(** * Proxy configuration manager and anti-entropy syncer

    A shallow embedding of the parts of [agent/local/ae/ae.go] and of the
    proxy configuration state machine (package [proxycfg]) that the
    specification talks about, with the properties proved about them.

    Conventions.  Go [int] and [time.Duration] are 64-bit signed integers:
    they are modelled as [Z] and every arithmetic operation of the source is
    followed by [wrap].  Go maps are [gmap]s; a [context.CancelFunc] stored in
    a map is a handle (a natural number) and calling it records the handle in
    a log; channels created with [make] are numbered in allocation order. *)

From Stdlib Require Import Ascii String.
From Stdlib Require Floats.SpecFloat.
From stdpp Require Import base numbers list strings gmap fin_maps.

Local Open Scope Z_scope.
Set Warnings "-clear-no-such-hyp,-level-tolerance".

(** ** Machine integers *)

Definition int_min : Z := - 2 ^ 63.
Definition int_max : Z := 2 ^ 63 - 1.

(** Two's complement wrap-around of a 64-bit signed integer. *)
Definition wrap (z : Z) : Z := (z - int_min) `mod` 2 ^ 64 + int_min.

(** Go's [error]: [None] is the nil error. *)
Definition error := option string.

(** * The anti-entropy syncer ([agent/local/ae/ae.go]) *)

Module AE.

(** Modelled from the spec: [Trigger], whose file [trigger.go] is outside the
    files embedded here.  "[Trigger()] -- non-blocking, coalesces if a prior
    trigger is unread; [Wait()] -- returns a receive-only readiness
    channel".  The channel has one slot, [pending] says whether it is
    occupied; [fired] counts the calls of [Trigger()]. *)
Record Trigger := mkTrigger { pending : bool; fired : nat }.

Definition NewTrigger : Trigger := mkTrigger false 0.

Definition Trigger_Trigger (t : Trigger) : Trigger :=
  mkTrigger true (S (fired t)).

Definition serverUpIntv : Z := 3 * 1000000000.
Definition retryFailIntv : Z := 15 * 1000000000.

(** What a run of the syncer does to the outside world, in order. *)
Inductive Effect :=
| ETimerNextFullSync (d : Z)   (* s.timerNextFullSync = time.After(d) *)
| ESyncFull (e : error)        (* s.State.SyncFull() returned e *)
| ELogError (msg : string).

(** Which case of the blocking [select] of [fullSync] fires is the
    environment's choice. *)
Inductive SelEvent :=
| TimeAfter        (* <-time.After(delay) *)
| SyncFullWait     (* <-s.SyncFull.wait() *)
| Shutdown.        (* <-s.ShutdownCh *)

(** How a call of [fullSync] ends.  The Go loop has no bound: [Spinning] is a
    run that used up the given number of iterations, [Waiting] one that
    blocks in [select] after the scripted events. *)
Inductive Outcome :=
| Returned (e : error)
| Spinning
| Waiting.

Definition errShutdown : error := Some "shutdown"%string.

Section Syncer.

(** The [SyncState] and [Delayer] interfaces: the state behind each and the
    methods as state transformers. *)
Variable ST : Type.
Variable State_SyncFull : ST → ST * error.
Variable DT : Type.
Variable Delayer_Jitter : DT → Z → Z * DT.

Record StateSyncer := mkSyncer {
  State : ST;
  Interval : Z;
  Delayer : DT;
  SyncFull : Trigger;
  SyncChanges : Trigger;
  paused : Z;
  chPaused : option nat;
  serverUpInterval : Z;
  retryFailInterval : Z;
  (* the duration the pending timer was armed for, [None] for the nil channel *)
  timerNextFullSync : option Z;
  (* the world around the syncer *)
  closedChans : gset nat;   (* channels closed so far *)
  madeChans : nat;          (* channels made so far *)
  trace : list Effect
}.

Definition NewStateSyncer (state : ST) (intv : Z) (d : DT) : StateSyncer :=
  {| State := state; Interval := intv; Delayer := d;
     SyncFull := NewTrigger; SyncChanges := NewTrigger;
     paused := 0; chPaused := None;
     serverUpInterval := serverUpIntv; retryFailInterval := retryFailIntv;
     timerNextFullSync := None;
     closedChans := ∅; madeChans := 0; trace := [] |}.

Definition set_pause (s : StateSyncer) (p : Z) (c : option nat)
    (cl : gset nat) (n : nat) (t : Trigger) : StateSyncer :=
  {| State := State s; Interval := Interval s; Delayer := Delayer s;
     SyncFull := SyncFull s; SyncChanges := t;
     paused := p; chPaused := c;
     serverUpInterval := serverUpInterval s;
     retryFailInterval := retryFailInterval s;
     timerNextFullSync := timerNextFullSync s;
     closedChans := cl; madeChans := n; trace := trace s |}.

(** [Pause]: [s.paused++], and a fresh channel when there is none. *)
Definition Pause (s : StateSyncer) : StateSyncer :=
  let p := wrap (paused s + 1) in
  match chPaused s with
  | None =>
      set_pause s p (Some (madeChans s)) (closedChans s) (S (madeChans s))
        (SyncChanges s)
  | Some _ =>
      set_pause s p (chPaused s) (closedChans s) (madeChans s) (SyncChanges s)
  end.

Definition isPaused (s : StateSyncer) : bool := negb (paused s =? 0).

(** [Resume]: [inl msg] is a panic.  Closing the nil channel or a closed
    channel panics in Go. *)
Definition Resume (s : StateSyncer) : string + StateSyncer * bool :=
  let p := wrap (paused s - 1) in
  if p <? 0 then inl "unbalanced pause/resume"%string
  else
    let resumed := p =? 0 in
    if resumed then
      match chPaused s with
      | None => inl "close of nil channel"%string
      | Some c =>
          if decide (c ∈ closedChans s) then inl "close of closed channel"%string
          else inr (set_pause s p None ({[c]} ∪ closedChans s) (madeChans s)
                      (Trigger_Trigger (SyncChanges s)), true)
      end
    else
      inr (set_pause s p (chPaused s) (closedChans s) (madeChans s)
             (SyncChanges s), false).

Definition WaitResume (s : StateSyncer) : option nat := chPaused s.

(** A sequence of calls on one syncer. *)
Inductive call := CPause | CResume.

Fixpoint runCalls (cs : list call) (s : StateSyncer) : string + StateSyncer :=
  match cs with
  | [] => inr s
  | CPause :: cs' => runCalls cs' (Pause s)
  | CResume :: cs' =>
      match Resume s with
      | inl msg => inl msg
      | inr (s', _) => runCalls cs' s'
      end
  end.

(** Pauses minus resumes; [None] as soon as a prefix has more resumes. *)
Fixpoint depth (cs : list call) (n : nat) : option nat :=
  match cs with
  | [] => Some n
  | CPause :: cs' => depth cs' (S n)
  | CResume :: cs' =>
      match n with
      | O => None
      | S m => depth cs' m
      end
  end.

(** Resume never outnumbers Pause, in any prefix. *)
Definition balanced (cs : list call) : Prop := is_Some (depth cs 0).

Definition set_sync (s : StateSyncer) (st : ST) (d : DT) (f : Trigger)
    (t : option Z) (tr : list Effect) : StateSyncer :=
  {| State := st; Interval := Interval s; Delayer := d;
     SyncFull := f; SyncChanges := SyncChanges s;
     paused := paused s; chPaused := chPaused s;
     serverUpInterval := serverUpInterval s;
     retryFailInterval := retryFailInterval s;
     timerNextFullSync := t;
     closedChans := closedChans s; madeChans := madeChans s; trace := tr |}.

(** [s.Delayer.Jitter(d)], threading the delayer's state. *)
Definition Jitter (s : StateSyncer) (d : Z) : Z * StateSyncer :=
  let '(j, dl) := Delayer_Jitter (Delayer s) d in
  (j, set_sync s (State s) dl (SyncFull s) (timerNextFullSync s) (trace s)).

(** The closure [retryDelay] of [fullSync]. *)
Definition retryDelay (s : StateSyncer) : Z * StateSyncer :=
  let '(j, s') := Jitter s (retryFailInterval s) in
  (wrap (retryFailInterval s + j), s').

(** [s.timerNextFullSync = time.After(s.Interval + s.Delayer.Jitter(s.Interval))] *)
Definition scheduleNextFullSync (s : StateSyncer) : StateSyncer :=
  let '(j, s') := Jitter s (Interval s) in
  let d := wrap (Interval s + j) in
  set_sync s' (State s') (Delayer s') (SyncFull s') (Some d)
    (trace s' ++ [ETimerNextFullSync d]).

(** [s.State.SyncFull()] *)
Definition callSyncFull (s : StateSyncer) : error * StateSyncer :=
  let '(st, e) := State_SyncFull (State s) in
  (e, set_sync s st (Delayer s) (SyncFull s) (timerNextFullSync s)
        (trace s ++ [ESyncFull e])).

Definition logError (msg : string) (s : StateSyncer) : StateSyncer :=
  set_sync s (State s) (Delayer s) (SyncFull s) (timerNextFullSync s)
    (trace s ++ [ELogError msg]).

(** [fullSync]: one unit of [fuel] per iteration of the [for] loop; [evs]
    scripts the blocking [select]s. *)
Fixpoint fullSync (fuel : nat) (delay : Z) (evs : list SelEvent)
    (s : StateSyncer) : Outcome * StateSyncer :=
  match fuel with
  | O => (Spinning, s)
  | S fuel' =>
      if delay =? 0 then
        let s1 := scheduleNextFullSync s in
        if isPaused s1 then
          let '(d, s2) := retryDelay s1 in
          fullSync fuel' d evs s2
        else
          let '(e, s2) := callSyncFull s1 in
          match e with
          | Some _ =>
              let '(d, s3) :=
                retryDelay (logError "failed to sync remote state" s2) in
              fullSync fuel' d evs s3
          | None => (Returned None, s2)
          end
      else
        match evs with
        | [] => (Waiting, s)
        | TimeAfter :: evs' => fullSync fuel' 0 evs' s
        | SyncFullWait :: evs' =>
            let '(j, s1) := Jitter s (serverUpInterval s) in
            fullSync fuel' j evs'
              (set_sync s1 (State s1) (Delayer s1)
                 (mkTrigger false (fired (SyncFull s1)))
                 (timerNextFullSync s1) (trace s1))
        | Shutdown :: _ => (Returned errShutdown, s)
        end
  end.

(** ** [sync] and [Run] *)

Variable State_SyncChanges : ST → ST * error.

(** Which case of the [select] of [sync] fires. *)
Inductive SyncEvent :=
| SyncFullReady      (* <-s.SyncFull.wait() *)
| TimerFired         (* <-s.timerNextFullSync *)
| SyncChangesReady   (* <-s.SyncChanges.wait() *)
| ShutdownClosed.    (* <-s.ShutdownCh *)

(** [s.State.SyncChanges()]: the call shows in the state it leaves. *)
Definition callSyncChanges (s : StateSyncer) : error * StateSyncer :=
  let '(st, e) := State_SyncChanges (State s) in
  (e, set_sync s st (Delayer s) (SyncFull s) (timerNextFullSync s) (trace s)).

(** [sync]: the case [ev] of the [select] fires; [fuel] and [evs] are for
    the call of [fullSync] it may make.  Receiving from a trigger's channel
    empties its slot.  The nil channel [timerNextFullSync] never delivers:
    that case then keeps waiting. *)
Definition sync (ev : SyncEvent) (fuel : nat) (evs : list SelEvent)
    (s : StateSyncer) : Outcome * StateSyncer :=
  match ev with
  | SyncFullReady =>
      let s0 := set_sync s (State s) (Delayer s)
                  (mkTrigger false (fired (SyncFull s)))
                  (timerNextFullSync s) (trace s) in
      let '(j, s1) := Jitter s0 (serverUpInterval s0) in
      fullSync fuel j evs s1
  | TimerFired =>
      match timerNextFullSync s with
      | None => (Waiting, s)
      | Some _ => fullSync fuel 0 evs s
      end
  | SyncChangesReady =>
      let s0 := set_pause s (paused s) (chPaused s) (closedChans s)
                  (madeChans s) (mkTrigger false (fired (SyncChanges s))) in
      if isPaused s0 then (Returned None, s0)
      else
        let '(e, s1) := callSyncChanges s0 in
        match e with
        | Some _ => (Returned None, logError "failed to sync changes" s1)
        | None => (Returned None, s1)
        end
  | ShutdownClosed => (Returned errShutdown, s)
  end.

(** The loop [for err == nil { err = s.sync() }] of [Run]: each round has
    the case that fires and the events for its [fullSync]. *)
Fixpoint syncLoop (fuel : nat) (script : list (SyncEvent * list SelEvent))
    (s : StateSyncer) : Outcome * StateSyncer :=
  match script with
  | [] => (Waiting, s)
  | (ev, evs) :: rest =>
      match sync ev fuel evs s with
      | (Returned None, s') => syncLoop fuel rest s'
      | r => r
      end
  end.

(** [Run]: [Returned e] carries the error that ended the method. *)
Definition Run (fuel : nat) (evs0 : list SelEvent)
    (script : list (SyncEvent * list SelEvent)) (s : StateSyncer)
    : Outcome * StateSyncer :=
  match fullSync fuel 0 evs0 s with
  | (Returned None, s') => syncLoop fuel script s'
  | r => r
  end.

End Syncer.

Arguments State {ST DT}.
Arguments Interval {ST DT}.
Arguments Delayer {ST DT}.
Arguments SyncFull {ST DT}.
Arguments SyncChanges {ST DT}.
Arguments paused {ST DT}.
Arguments chPaused {ST DT}.
Arguments serverUpInterval {ST DT}.
Arguments retryFailInterval {ST DT}.
Arguments timerNextFullSync {ST DT}.
Arguments closedChans {ST DT}.
Arguments madeChans {ST DT}.
Arguments trace {ST DT}.
Arguments NewStateSyncer {ST DT}.
Arguments Pause {ST DT}.
Arguments isPaused {ST DT}.
Arguments Resume {ST DT}.
Arguments WaitResume {ST DT}.
Arguments runCalls {ST DT}.
Arguments Jitter {ST DT}.
Arguments retryDelay {ST DT}.
Arguments scheduleNextFullSync {ST DT}.
Arguments callSyncFull {ST} _ {DT}.
Arguments logError {ST DT}.
Arguments fullSync {ST} _ {DT}.
Arguments sync {ST} _ {DT}.
Arguments syncLoop {ST} _ {DT}.
Arguments Run {ST} _ {DT}.
Arguments callSyncChanges {ST DT}.

(** ** The cluster-size scale factor

    [scaleFactor] leaves the integers: it converts the node count to
    [float64], takes binary logarithms, rounds up and converts back.  A
    [float64] is an IEEE 754 binary64 number, modelled by [spec_float] with
    a 53-bit mantissa and exponents below 1024; subtraction and addition
    are the correctly rounded ones of that format. *)

Section ScaleFactor.
Import SpecFloat.

Definition float64 : Type := spec_float.

(** The conversion [float64(n)] of an [int]: the nearest float, ties to the
    even mantissa. *)
Definition float64_of_int (n : Z) : float64 := binary_normalize 53 1024 n 0 false.

Definition float64_sub : float64 → float64 → float64 := SFsub 53 1024.
Definition float64_add : float64 → float64 → float64 := SFadd 53 1024.

(** [math.Log2] is the library's; the properties below say what they need
    of it. *)
Variable math_Log2 : float64 → float64.

(** What [int(x)] gives when [x] is not a number or is out of the range of
    [int]: Go leaves it to the implementation. *)
Variable int_overflow : float64 → Z.

(** [math.Ceil(x)]: the least integer value greater than or equal to [x];
    zeros, infinities and NaN are returned as they are, and a negative [x]
    above -1 gives the negative zero. *)
Definition math_Ceil (x : float64) : float64 :=
  match x with
  | S754_finite s m e =>
      if 0 <=? e then x
      else
        let c := - ((- cond_Zopp s (Z.pos m)) `div` 2 ^ (- e)) in
        if c =? 0 then S754_zero s else float64_of_int c
  | _ => x
  end.

(** The conversion [int(x)] of a [float64]: the fraction is discarded. *)
Definition int_of_float64 (x : float64) : Z :=
  match x with
  | S754_zero _ => 0
  | S754_finite s m e =>
      let t := cond_Zopp s
                 (if 0 <=? e then Z.pos m * 2 ^ e else Z.pos m `div` 2 ^ (- e)) in
      if (int_min <=? t) && (t <=? int_max) then t else int_overflow x
  | _ => int_overflow x
  end.

Definition scaleThreshold : Z := 128.

Definition scaleFactor (nodes : Z) : Z :=
  if nodes <=? scaleThreshold then 1
  else
    int_of_float64
      (float64_add
         (math_Ceil
            (float64_sub (math_Log2 (float64_of_int nodes))
                         (math_Log2 (float64_of_int scaleThreshold))))
         (float64_of_int 1)).

End ScaleFactor.

End AE.

(** * The proxy configuration state (package [proxycfg]) *)

Module Proxycfg.

Local Open Scope string_scope.

Definition coalesceTimeout : Z := 200 * 1000000.
Definition rootsWatchID : string := "roots".
Definition leafWatchID : string := "leaf".
Definition intentionsWatchID : string := "intentions".
Definition gatewayServicesWatchID : string := "gateway-services".
Definition gatewayConfigWatchID : string := "gateway-config".
Definition externalServiceIDPrefix : string := "external-service:".
Definition serviceLeafIDPrefix : string := "service-leaf:".
Definition serviceConfigIDPrefix : string := "service-config:".
Definition serviceResolverIDPrefix : string := "service-resolver:".
Definition serviceIntentionsIDPrefix : string := "service-intentions:".
Definition intentionUpstreamsID : string := "intention-upstreams".
Definition meshConfigEntryID : string := "mesh".

(** ** Types of package [structs] as far as the handlers use them *)

(** [structs.ServiceKind] *)
Inductive ServiceKind :=
| ServiceKindTypical
| ServiceKindConnectProxy
| ServiceKindMeshGateway
| ServiceKindTerminatingGateway
| ServiceKindIngressGateway.

Global Instance ServiceKind_eq_dec : EqDecision ServiceKind.
Proof. solve_decision. Defined.

(** [structs.ServiceName]: a name and its enterprise metadata (the
    namespace). *)
Record ServiceName := mkServiceName { Name : string; EnterpriseMeta : string }.

Global Instance ServiceName_eq_dec : EqDecision ServiceName.
Proof. solve_decision. Defined.

Global Instance ServiceName_countable : Countable ServiceName.
Proof.
  refine (inj_countable' (λ n, (Name n, EnterpriseMeta n))
            (λ p, mkServiceName p.1 p.2) _).
  by intros [].
Defined.

(** [structs.GatewayService], the fields read by the handlers. *)
Record GatewayService := mkGatewayService {
  Service : ServiceName;
  Port : Z;
  Protocol : string;
  Hosts : list string
}.

(** [structs.Upstream], the fields read by the handlers; [Config] is the
    opaque [map[string]interface{}]. *)
Record Upstream (CfgMap : Type) := mkUpstream {
  DestinationType : string;
  DestinationNamespace : string;
  DestinationName : string;
  Datacenter : string;
  LocalBindPort : Z;
  IngressHosts : list string;
  Config : CfgMap;
  MeshGateway : string
}.
Arguments mkUpstream {CfgMap}.
Arguments DestinationType {CfgMap}.
Arguments DestinationNamespace {CfgMap}.
Arguments DestinationName {CfgMap}.
Arguments Datacenter {CfgMap}.
Arguments LocalBindPort {CfgMap}.
Arguments IngressHosts {CfgMap}.
Arguments Config {CfgMap}.
Arguments MeshGateway {CfgMap}.

(** ** Subscriptions

    [cache.Notify] and [health.Notify] are the two subscription providers.
    A subscription is recorded with the handle of the context it was issued
    under; cancelling a context records its handle. *)

Inductive CacheType :=
| ConnectCARootName
| ConnectCALeafName
| IntentionMatchName
| ResolvedServiceConfigName
| ConfigEntriesName
| CompiledDiscoveryChainName
| GatewayServicesName.

Inductive Provider :=
| Cache (t : CacheType)   (* s.cache.Notify(ctx, t, ...) *)
| Health.                 (* s.health.Notify(ctx, ...) *)

Global Instance CacheType_eq_dec : EqDecision CacheType.
Proof. solve_decision. Defined.
Global Instance Provider_eq_dec : EqDecision Provider.
Proof. solve_decision. Defined.

Record Sub := mkSub {
  subProvider : Provider;
  subID : string;          (* the correlation id *)
  subCtx : nat;            (* the handle of its context *)
  subDNSSAN : list string  (* DNSSAN of a leaf request, [] otherwise *)
}.

Global Instance Sub_eq_dec : EqDecision Sub.
Proof. solve_decision. Defined.

Record World := mkWorld {
  subs : list Sub;        (* subscriptions accepted so far *)
  cancelled : list nat;   (* contexts cancelled so far *)
  nextCtx : nat;          (* contexts made so far *)
  logs : list string      (* messages logged so far *)
}.

Definition emptyWorld : World := mkWorld [] [] 0 [].

Definition cancel (h : nat) (w : World) : World :=
  mkWorld (subs w) (cancelled w ++ [h]) (nextCtx w) (logs w).

Definition cancelAll (hs : list nat) (w : World) : World :=
  mkWorld (subs w) (cancelled w ++ hs) (nextCtx w) (logs w).

Definition logMsg (msg : string) (w : World) : World :=
  mkWorld (subs w) (cancelled w) (nextCtx w) (logs w ++ [msg]).

(** [context.WithCancel] followed by [Notify]: the context gets the next
    handle; the provider accepts the subscription or returns an error. *)
Definition watch (Notify : World → Provider → string → error)
    (p : Provider) (id : string) (sans : list string) (w : World)
    : error * nat * World :=
  let h := nextCtx w in
  let w1 := mkWorld (subs w) (cancelled w) (S h) (logs w) in
  match Notify w1 p id with
  | Some e => (Some e, h, w1)
  | None =>
      (None, h,
       mkWorld (subs w1 ++ [mkSub p id h sans]) (cancelled w1) (nextCtx w1)
         (logs w1))
  end.

(** [Notify] under a context that exists: no context is made. *)
Definition notify (Notify : World → Provider → string → error)
    (p : Provider) (id : string) (ctx : nat) (w : World) : error * World :=
  match Notify w p id with
  | Some e => (Some e, w)
  | None =>
      (None,
       mkWorld (subs w ++ [mkSub p id ctx []]) (cancelled w) (nextCtx w)
         (logs w))
  end.

(** [cache.UpdateEvent]; [Result] is an [interface{}] and the handlers assert
    its dynamic type. *)
Inductive Payload :=
| PIndexedGatewayServices (services : list GatewayService)
| PIndexedServiceList (services : list ServiceName)
| POtherType.

Record UpdateEvent := mkUpdateEvent {
  CorrelationID : string;
  Result : Payload;
  Err : error
}.

(** ** Correlation ids: package [strings] and [removeColonPrefix]

    A Go string is a sequence of bytes, as a [string] here.  The length of a
    string and an index into it fit an [int]: no wrap-around is written. *)

(** [len(s)] *)
Definition len (s : string) : Z := Z.of_nat (String.length s).

(** [s[i:j]] *)
Definition slice (s : string) (i j : Z) : string :=
  substring (Z.to_nat i) (Z.to_nat (j - i)) s.

(** [strings.Index(s, substr)]: the index of the first instance of [substr]
    in [s], or -1. *)
Fixpoint strings_Index (s substr : string) : Z :=
  if String.prefix substr s then 0
  else
    match s with
    | EmptyString => -1
    | String _ rest =>
        let i := strings_Index rest substr in
        if Z.ltb i 0 then -1 else i + 1
    end.

(** [strings.HasPrefix(s, prefix)] *)
Definition strings_HasPrefix (s prefix : string) : bool :=
  String.prefix prefix s.

(** [strings.TrimPrefix(s, prefix)] *)
Definition strings_TrimPrefix (s prefix : string) : string :=
  if strings_HasPrefix s prefix then slice s (len prefix) (len s) else s.

Definition removeColonPrefix (s : string) : string * string * bool :=
  let idx := strings_Index s ":" in
  if Z.eqb idx (-1) then ("", "", false)
  else (slice s 0 idx, slice s (idx + 1) (len s), true).

(** ** The terminating gateway: [handlerTerminatingGateway.handleUpdate] *)

Module TerminatingGateway.
Section Handler.

(** The subscription providers, [ServiceName.String] and the values mirrored
    into the snapshot (health results, certificates, config entries,
    intentions), which the handler stores without looking into them. *)
Variable Notify : World → Provider → string → error.
Variable SN_String : ServiceName → string.
Variable Data : Type.

Record configSnapshotTerminatingGateway := mkTG {
  WatchedServices : gmap ServiceName nat;
  WatchedIntentions : gmap ServiceName nat;
  Intentions : gmap ServiceName Data;
  WatchedLeaves : gmap ServiceName nat;
  ServiceLeaves : gmap ServiceName Data;
  WatchedConfigs : gmap ServiceName nat;
  ServiceConfigs : gmap ServiceName Data;
  WatchedResolvers : gmap ServiceName nat;
  ServiceResolvers : gmap ServiceName Data;
  ServiceResolversSet : gmap ServiceName bool;
  ServiceGroups : gmap ServiceName Data;
  GatewayServices : gmap ServiceName GatewayService;
  HostnameServices : gmap ServiceName Data
}.

(** The maps as [handlerTerminatingGateway.initialize] makes them. *)
Definition emptyTG : configSnapshotTerminatingGateway :=
  mkTG ∅ ∅ ∅ ∅ ∅ ∅ ∅ ∅ ∅ ∅ ∅ ∅ ∅.

(** The pattern repeated five times in the loop over the delivered services:
    if the service has no entry in the watch map, subscribe and store the
    cancel function; on an error log, cancel and return the error. *)
Definition watchIfMissing (m : gmap ServiceName nat) (sn : ServiceName)
    (p : Provider) (prefix msg : string) (w : World)
    : error * gmap ServiceName nat * World :=
  match m !! sn with
  | Some _ => (None, m, w)
  | None =>
      match watch Notify p (prefix ++ SN_String sn) [] w with
      | (Some e, h, w') => (Some e, m, cancel h (logMsg msg w'))
      | (None, h, w') => (None, <[sn := h]> m, w')
      end
  end.

(** The body of the loop for one delivered service. *)
Definition watchGatewayService (svc : GatewayService)
    (tg : configSnapshotTerminatingGateway) (w : World)
    : error * configSnapshotTerminatingGateway * World :=
  let sn := Service svc in
  let gs := <[sn := svc]> (GatewayServices tg) in
  let mk ws wi wl wc wr :=
    mkTG ws wi (Intentions tg) wl (ServiceLeaves tg) wc (ServiceConfigs tg)
      wr (ServiceResolvers tg) (ServiceResolversSet tg) (ServiceGroups tg)
      gs (HostnameServices tg) in
  let ws0 := WatchedServices tg in
  let wi0 := WatchedIntentions tg in
  let wl0 := WatchedLeaves tg in
  let wc0 := WatchedConfigs tg in
  let wr0 := WatchedResolvers tg in
  match watchIfMissing ws0 sn Health externalServiceIDPrefix
          "failed to register watch for external-service" w with
  | (Some e, ws, w1) => (Some e, mk ws wi0 wl0 wc0 wr0, w1)
  | (None, ws, w1) =>
  match watchIfMissing wi0 sn (Cache IntentionMatchName)
          serviceIntentionsIDPrefix
          "failed to register watch for service-intentions" w1 with
  | (Some e, wi, w2) => (Some e, mk ws wi wl0 wc0 wr0, w2)
  | (None, wi, w2) =>
  match watchIfMissing wl0 sn (Cache ConnectCALeafName) serviceLeafIDPrefix
          "failed to register watch for a service-leaf" w2 with
  | (Some e, wl, w3) => (Some e, mk ws wi wl wc0 wr0, w3)
  | (None, wl, w3) =>
  match watchIfMissing wc0 sn (Cache ResolvedServiceConfigName)
          serviceConfigIDPrefix
          "failed to register watch for a resolved service config" w3 with
  | (Some e, wc, w4) => (Some e, mk ws wi wl wc wr0, w4)
  | (None, wc, w4) =>
  match watchIfMissing wr0 sn (Cache ConfigEntriesName)
          serviceResolverIDPrefix
          "failed to register watch for a service-resolver" w4 with
  | (Some e, wr, w5) => (Some e, mk ws wi wl wc wr, w5)
  | (None, wr, w5) => (None, mk ws wi wl wc wr, w5)
  end end end end end.

(** The loop [for _, svc := range services.Services], building [svcMap] and
    returning at the first error. *)
Fixpoint watchGatewayServices (services : list GatewayService)
    (svcMap : gset ServiceName) (tg : configSnapshotTerminatingGateway)
    (w : World)
    : error * gset ServiceName * configSnapshotTerminatingGateway * World :=
  match services with
  | [] => (None, svcMap, tg, w)
  | svc :: rest =>
      let svcMap' := {[Service svc]} ∪ svcMap in
      match watchGatewayService svc tg w with
      | (Some e, tg', w') => (Some e, svcMap', tg', w')
      | (None, tg', w') => watchGatewayServices rest svcMap' tg' w'
      end
  end.

(** [for sn := range m { if _, ok := svcMap[sn]; !ok { delete(m, sn) } }] *)
Definition keepListed {V : Type} (svcMap : gset ServiceName)
    (m : gmap ServiceName V) : gmap ServiceName V :=
  filter (λ kv, kv.1 ∈ svcMap) m.

(** The entries of a watch map the loops above it cancel. *)
Definition unlisted (svcMap : gset ServiceName) (m : gmap ServiceName nat)
    : gmap ServiceName nat :=
  filter (λ kv, kv.1 ∉ svcMap) m.

(** [delete(mirror, sn)] for every [sn] whose watch is cancelled.  *)
Definition dropCancelled {V : Type} (gone : gmap ServiceName nat)
    (mirror : gmap ServiceName V) : gmap ServiceName V :=
  filter (λ kv, kv.1 ∉ dom gone) mirror.

(** What one clean-up loop does to the world: a debug message and the call
    of the cancel function for every entry it deletes.  Go visits a map in
    no fixed order: the cancel functions are called in the order of
    [map_to_list]. *)
Definition cancelGone (msg : string) (gone : gmap ServiceName nat)
    (w : World) : World :=
  cancelAll (map_to_list gone).*2
    (foldr (λ _ w, logMsg msg w) w (map_to_list gone)).

(** The seven clean-up loops after the loop over the delivered services. *)
Definition cleanUp (svcMap : gset ServiceName)
    (tg : configSnapshotTerminatingGateway) (w : World)
    : configSnapshotTerminatingGateway * World :=
  let goneS := unlisted svcMap (WatchedServices tg) in
  let goneL := unlisted svcMap (WatchedLeaves tg) in
  let goneC := unlisted svcMap (WatchedConfigs tg) in
  let goneR := unlisted svcMap (WatchedResolvers tg) in
  let goneI := unlisted svcMap (WatchedIntentions tg) in
  (mkTG (keepListed svcMap (WatchedServices tg))
        (keepListed svcMap (WatchedIntentions tg))
        (dropCancelled goneI (Intentions tg))
        (keepListed svcMap (WatchedLeaves tg))
        (dropCancelled goneL (ServiceLeaves tg))
        (keepListed svcMap (WatchedConfigs tg))
        (dropCancelled goneC (ServiceConfigs tg))
        (keepListed svcMap (WatchedResolvers tg))
        (dropCancelled goneR (ServiceResolvers tg))
        (dropCancelled goneR (ServiceResolversSet tg))
        (dropCancelled goneS (ServiceGroups tg))
        (keepListed svcMap (GatewayServices tg))
        (keepListed svcMap (HostnameServices tg)),
   cancelGone "canceling watch for intention" goneI
     (cancelGone "canceling watch for service-resolver" goneR
        (cancelGone "canceling watch for resolved service config" goneC
           (cancelGone "canceling watch for leaf cert" goneL
              (cancelGone "canceling watch for service" goneS w))))).

(** The case [u.CorrelationID == gatewayServicesWatchID] after its type
    assertion. *)
Definition handleGatewayServices (services : list GatewayService)
    (tg : configSnapshotTerminatingGateway) (w : World)
    : error * configSnapshotTerminatingGateway * World :=
  match watchGatewayServices services ∅ tg w with
  | (Some e, _, tg', w') => (Some e, tg', w')
  | (None, svcMap, tg', w') =>
      let '(tg'', w'') := cleanUp svcMap tg' w' in (None, tg'', w'')
  end.

(** [handleUpdate] of the terminating gateway.  The cases other than
    [gateway-services] (roots and the per-service results) are [otherCases];
    none of them has the correlation id [gateway-services]. *)
Definition handleUpdate
    (otherCases : UpdateEvent → configSnapshotTerminatingGateway → World →
                  error * configSnapshotTerminatingGateway * World)
    (u : UpdateEvent) (tg : configSnapshotTerminatingGateway) (w : World)
    : error * configSnapshotTerminatingGateway * World :=
  match Err u with
  | Some e => (Some ("error filling agent cache: " ++ e), tg, w)
  | None =>
      if decide (CorrelationID u = gatewayServicesWatchID) then
        match Result u with
        | PIndexedGatewayServices services =>
            handleGatewayServices services tg w
        | _ => (Some "invalid type for response", tg, w)
        end
      else otherCases u tg w
  end.

(** [handlerTerminatingGateway.initialize] under the context [ctx].  The
    maps of the snapshot it returns with an error are nil, which reads like
    an empty map. *)
Definition initialize (ctx : nat) (w : World)
    : error * configSnapshotTerminatingGateway * World :=
  match notify Notify (Cache ConnectCARootName) rootsWatchID ctx w with
  | (Some e, w1) =>
      (Some e, emptyTG,
       logMsg "failed to register watch for root changes" w1)
  | (None, w1) =>
      match notify Notify (Cache GatewayServicesName) gatewayServicesWatchID
              ctx w1 with
      | (Some e, w2) =>
          (Some e, emptyTG,
           logMsg "failed to register watch for linked services" w2)
      | (None, w2) => (None, emptyTG, w2)
      end
  end.

End Handler.
End TerminatingGateway.

(** ** The connect proxy: [handlerConnectProxy.handleUpdate] *)

Module ConnectProxy.
Section Handler.

(** [s.kind] and [s.source.Datacenter] of the handler state, the
    subscription provider, and what package [structs] and [mapstructure]
    contribute: [ServiceName.String], the string of the wildcard service id,
    the opaque upstream configuration with its empty map and its parser (an
    error is reported by [Some]). *)
Variable kind : ServiceKind.
Variable sourceDatacenter : string.
Variable Notify : World → Provider → string → error.
Variable SN_String : ServiceName → string.
Variable wildcardSID_String : string.
Variable Data : Type.
Variable CfgMap : Type.
Variable emptyCfgMap : CfgMap.
Variable parseReducedUpstreamConfig : CfgMap → error.

(** [configSnapshotConnectProxy] with the embedded
    [ConfigSnapshotUpstreams], the fields this case touches. *)
Record configSnapshotConnectProxy := mkCP {
  DiscoveryChain : gmap string Data;
  WatchedDiscoveryChains : gmap string nat;
  WatchedUpstreams : gmap string (gmap string nat);
  WatchedUpstreamEndpoints : gmap string (gmap string Data);
  WatchedGateways : gmap string (gmap string nat);
  WatchedGatewayEndpoints : gmap string (gmap string Data);
  UpstreamConfig : gmap string (Upstream CfgMap)
}.

Definition set_chains (cp : configSnapshotConnectProxy)
    (m : gmap string nat) : configSnapshotConnectProxy :=
  mkCP (DiscoveryChain cp) m (WatchedUpstreams cp)
    (WatchedUpstreamEndpoints cp) (WatchedGateways cp)
    (WatchedGatewayEndpoints cp) (UpstreamConfig cp).

Definition set_UpstreamConfig (cp : configSnapshotConnectProxy)
    (m : gmap string (Upstream CfgMap)) : configSnapshotConnectProxy :=
  mkCP (DiscoveryChain cp) (WatchedDiscoveryChains cp) (WatchedUpstreams cp)
    (WatchedUpstreamEndpoints cp) (WatchedGateways cp)
    (WatchedGatewayEndpoints cp) m.

(** [handlerUpstreams.watchDiscoveryChain]: [ig] is
    [snap.IngressGateway.WatchedDiscoveryChains].  The request fields other
    than the correlation id are not recorded. *)
Definition watchDiscoveryChain (id : string)
    (cp : configSnapshotConnectProxy) (ig : gmap string nat) (w : World)
    : error * configSnapshotConnectProxy * gmap string nat * World :=
  match WatchedDiscoveryChains cp !! id with
  | Some _ => (None, cp, ig, w)
  | None =>
      match watch Notify (Cache CompiledDiscoveryChainName)
              ("discovery-chain:" ++ id) [] w with
      | (Some e, h, w') => (Some e, cp, ig, cancel h w')
      | (None, h, w') =>
          match kind with
          | ServiceKindIngressGateway => (None, cp, <[id := h]> ig, w')
          | ServiceKindConnectProxy =>
              (None, set_chains cp (<[id := h]> (WatchedDiscoveryChains cp)),
               ig, w')
          | _ => (Some "unsupported kind", cp, ig, cancel h w')
          end
      end
  end.

(** The body of the loop over [resp.Services] for one service.  The parsed
    configuration and the overlaid mesh gateway mode only fill request
    fields, which are not recorded.  When the service has neither a
    configuration of its own nor wildcard defaults, [u] is nil and the call
    [u.Identifier()] of the warning would dereference it: this is reported as
    an error. *)
Definition watchIntentionUpstream (svc : ServiceName)
    (cp : configSnapshotConnectProxy) (ig : gmap string nat) (w : World)
    : error * configSnapshotConnectProxy * gmap string nat * World :=
  let id := SN_String svc in
  let '(cfgMap, isNil, cp1) :=
    match UpstreamConfig cp !! id with
    | Some u => (Config u, false, cp)
    | None =>
        match UpstreamConfig cp !! wildcardSID_String with
        | Some defaults =>
            (Config defaults, false,
             set_UpstreamConfig cp (<[id := defaults]> (UpstreamConfig cp)))
        | None => (emptyCfgMap, true, cp)
        end
    end in
  match parseReducedUpstreamConfig cfgMap, isNil with
  | Some _, true => (Some "panic: nil pointer dereference", cp1, ig, w)
  | parsed, _ =>
      let w1 :=
        match parsed with
        | Some _ => logMsg "failed to parse upstream config" w
        | None => w
        end in
      match watchDiscoveryChain id cp1 ig w1 with
      | (Some e, cp2, ig2, w2) =>
          (Some ("failed to watch discovery chain for " ++ id ++ ": " ++ e),
           cp2, ig2, w2)
      | (None, cp2, ig2, w2) => (None, cp2, ig2, w2)
      end
  end.

(** The loop [for _, svc := range resp.Services], building [seenServices]
    and returning at the first error. *)
Fixpoint watchIntentionUpstreams (services : list ServiceName)
    (seenServices : gset string) (cp : configSnapshotConnectProxy)
    (ig : gmap string nat) (w : World)
    : error * gset string * configSnapshotConnectProxy * gmap string nat
      * World :=
  match services with
  | [] => (None, seenServices, cp, ig, w)
  | svc :: rest =>
      let seen' := {[SN_String svc]} ∪ seenServices in
      match watchIntentionUpstream svc cp ig w with
      | (Some e, cp', ig', w') => (Some e, seen', cp', ig', w')
      | (None, cp', ig', w') => watchIntentionUpstreams rest seen' cp' ig' w'
      end
  end.

(** The guard of the clean-up loops: the upstream is configured with a
    datacenter that is neither empty nor the source datacenter. *)
Definition pinnedElsewhere (cfg : gmap string (Upstream CfgMap))
    (sn : string) : bool :=
  match cfg !! sn with
  | Some upstream =>
      negb (String.eqb (Datacenter upstream) "")
      && negb (String.eqb (Datacenter upstream) sourceDatacenter)
  | None => false
  end.

(** An entry stays when the guard [continue]s or the service was seen. *)
Definition stays (cfg : gmap string (Upstream CfgMap))
    (seenServices : gset string) (sn : string) : bool :=
  pinnedElsewhere cfg sn || bool_decide (sn ∈ seenServices).

Definition keepStaying {V : Type} (cfg : gmap string (Upstream CfgMap))
    (seenServices : gset string) (m : gmap string V) : gmap string V :=
  filter (λ kv, stays cfg seenServices kv.1 = true) m.

(** The five clean-up loops.  The cancel functions of the last one are called
    in the order of [map_to_list]. *)
Definition cleanUp (seenServices : gset string)
    (cp : configSnapshotConnectProxy) (w : World)
    : configSnapshotConnectProxy * World :=
  let cfg := UpstreamConfig cp in
  let gone :=
    filter (λ kv, stays cfg seenServices kv.1 = false)
      (WatchedDiscoveryChains cp) in
  (mkCP (filter (λ kv, kv.1 ∉ dom gone) (DiscoveryChain cp))
        (keepStaying cfg seenServices (WatchedDiscoveryChains cp))
        (keepStaying cfg seenServices (WatchedUpstreams cp))
        (keepStaying cfg seenServices (WatchedUpstreamEndpoints cp))
        (keepStaying cfg seenServices (WatchedGateways cp))
        (keepStaying cfg seenServices (WatchedGatewayEndpoints cp))
        cfg,
   cancelAll (map_to_list gone).*2 w).

(** The case [u.CorrelationID == intentionUpstreamsID] after its type
    assertion. *)
Definition handleIntentionUpstreams (services : list ServiceName)
    (cp : configSnapshotConnectProxy) (ig : gmap string nat) (w : World)
    : error * configSnapshotConnectProxy * gmap string nat * World :=
  match watchIntentionUpstreams services ∅ cp ig w with
  | (Some e, _, cp', ig', w') => (Some e, cp', ig', w')
  | (None, seenServices, cp', ig', w') =>
      let '(cp'', w'') := cleanUp seenServices cp' w' in
      (None, cp'', ig', w'')
  end.

(** [handleUpdate] of the connect proxy.  The cases other than
    [intention-upstreams] are [otherCases]; none of the cases before it
    (roots, intentions) has its correlation id. *)
Definition handleUpdate
    (otherCases : UpdateEvent → configSnapshotConnectProxy →
                  gmap string nat → World →
                  error * configSnapshotConnectProxy * gmap string nat
                  * World)
    (u : UpdateEvent) (cp : configSnapshotConnectProxy)
    (ig : gmap string nat) (w : World)
    : error * configSnapshotConnectProxy * gmap string nat * World :=
  match Err u with
  | Some e => (Some ("error filling agent cache: " ++ e), cp, ig, w)
  | None =>
      if decide (CorrelationID u = intentionUpstreamsID) then
        match Result u with
        | PIndexedServiceList services =>
            handleIntentionUpstreams services cp ig w
        | _ => (Some "invalid type for response", cp, ig, w)
        end
      else otherCases u cp ig w
  end.

(** [targetWatchOpts] *)
Record targetWatchOpts := mkTargetWatchOpts {
  opts_upstreamID : string;
  opts_chainID : string;
  opts_service : string;
  opts_filter : string;
  opts_datacenter : string;
  opts_entMeta : string
}.

Definition set_WatchedUpstreams (cp : configSnapshotConnectProxy)
    (m : gmap string (gmap string nat)) : configSnapshotConnectProxy :=
  mkCP (DiscoveryChain cp) (WatchedDiscoveryChains cp) m
    (WatchedUpstreamEndpoints cp) (WatchedGateways cp)
    (WatchedGatewayEndpoints cp) (UpstreamConfig cp).

(** [handlerUpstreams.watchUpstreamTarget] on the upstreams part of the
    snapshot.  The request fields other than the correlation id are not
    recorded.  [snap.WatchedUpstreams[opts.upstreamID]] is a map: assigning
    to an entry of it when it is nil panics, which is reported as an
    error. *)
Definition watchUpstreamTarget (opts : targetWatchOpts)
    (cp : configSnapshotConnectProxy) (w : World)
    : error * configSnapshotConnectProxy * World :=
  let w0 := logMsg "initializing watch of target" w in
  let correlationID :=
    "upstream-target:" ++ opts_chainID opts ++ ":" ++ opts_upstreamID opts in
  match watch Notify Health correlationID [] w0 with
  | (Some e, h, w') => (Some e, cp, cancel h w')
  | (None, h, w') =>
      match WatchedUpstreams cp !! opts_upstreamID opts with
      | None => (Some "panic: assignment to entry in nil map", cp, w')
      | Some targets =>
          (None,
           set_WatchedUpstreams cp
             (<[opts_upstreamID opts :=
                  <[opts_chainID opts := h]> targets]> (WatchedUpstreams cp)),
           w')
      end
  end.

(** The case [strings.HasPrefix(u.CorrelationID, "upstream-target:")] of
    [handleUpdateUpstreams] up to the check of the correlation id: the
    target and the upstream the event is for, or the error returned (in
    which the source quotes the id). *)
Definition upstreamTargetOf (correlationID : string)
    : string + string * string :=
  let '(targetID, svc, ok) :=
    removeColonPrefix (strings_TrimPrefix correlationID "upstream-target:") in
  if negb ok then inl ("invalid correlation id " ++ correlationID)
  else inr (targetID, svc).

End Handler.
End ConnectProxy.

(** ** The ingress gateway: DNS SANs of the leaf certificate watch *)

Module IngressGateway.
Section Handler.

(** [s.source.Datacenter], [s.dnsConfig.Domain], [s.dnsConfig.AltDomain] and
    the subscription provider. *)
Variable sourceDatacenter : string.
Variable Domain : string.
Variable AltDomain : string.
Variable Notify : World → Provider → string → error.
Variable CfgMap : Type.

(** Modelled from the spec: the constant [structs.IntentionDefaultNamespace]
    of package [structs], which is outside the files embedded here: the name
    of "the default namespace", written [default] in the specification. *)
Definition IntentionDefaultNamespace : string := "default".

(** [configSnapshotIngressGateway]; a listener key is [(Protocol, Port)]. *)
Record configSnapshotIngressGateway := mkIG {
  TLSEnabled : bool;
  TLSSet : bool;
  Hosts : list string;
  HostsSet : bool;
  Upstreams : gmap (string * Z) (list (Upstream CfgMap));
  WatchedDiscoveryChains : gmap string nat;
  LeafCertWatchCancel : option nat
}.

(** The keys of the local map [namespaces]. *)
Definition namespaces (ig : configSnapshotIngressGateway) : gset string :=
  list_to_set
    (DestinationNamespace <$> mjoin (map_to_list (Upstreams ig)).*2).

(** The names appended for one key of [namespaces]. *)
Definition namesFor (ns : string) : list string :=
  let ns' :=
    if String.eqb ns IntentionDefaultNamespace then "" else ns ++ "." in
  ["*.ingress." ++ ns' ++ Domain;
   "*.ingress." ++ ns' ++ sourceDatacenter ++ "." ++ Domain]
  ++ (if String.eqb AltDomain "" then []
      else ["*.ingress." ++ ns' ++ AltDomain;
            "*.ingress." ++ ns' ++ sourceDatacenter ++ "." ++ AltDomain]).

(** Go visits the keys of a map in an order of its choosing: [order] is an
    order in which [for ns := range namespaces] may visit them. *)
Definition rangeOrder (ig : configSnapshotIngressGateway)
    (order : list string) : Prop :=
  order ≡ₚ elements (namespaces ig).

(** [generateIngressDNSSANs], the keys visited in [order]. *)
Definition generateIngressDNSSANs (order : list string)
    (ig : configSnapshotIngressGateway) : list string :=
  if negb (TLSEnabled ig) then []
  else (order ≫= namesFor) ++ Hosts ig.

(** [watchIngressLeafCert] *)
Definition watchIngressLeafCert (order : list string)
    (ig : configSnapshotIngressGateway) (w : World)
    : error * configSnapshotIngressGateway * World :=
  if negb (TLSSet ig) || negb (HostsSet ig) then (None, ig, w)
  else
    let w0 :=
      match LeafCertWatchCancel ig with
      | Some h => cancel h w
      | None => w
      end in
    match watch Notify (Cache ConnectCALeafName) leafWatchID
            (generateIngressDNSSANs order ig) w0 with
    | (Some e, h, w1) => (Some e, ig, cancel h w1)
    | (None, h, w1) =>
        (None,
         mkIG (TLSEnabled ig) (TLSSet ig) (Hosts ig) (HostsSet ig)
           (Upstreams ig) (WatchedDiscoveryChains ig) (Some h),
         w1)
    end.

(** *** The cases [gateway-config] and [gateway-services] of
    [handlerIngressGateway.handleUpdate] *)

(** What the handler stores of a discovery chain, and what package
    [structs] contributes to [makeUpstream] and to the watch options:
    [EnterpriseMeta.NamespaceOrDefault], [Upstream.Identifier] and the map
    [{"protocol": g.Protocol}]. *)
Variable Data : Type.
Variable NamespaceOrDefault : string → string.
Variable Upstream_Identifier : Upstream CfgMap → string.
Variable protocolConfig : string → CfgMap.

Definition makeUpstream (g : GatewayService) : Upstream CfgMap :=
  mkUpstream "" (NamespaceOrDefault (EnterpriseMeta (Service g)))
    (Name (Service g)) "" (Port g) (Proxycfg.Hosts g)
    (protocolConfig (Protocol g)) "".

(** The loop [for _, service := range services.Services] with its local
    variables [hosts], [watchedSvcs] and [upstreamsMap]; [cp] is
    [snap.ConnectProxy], which [watchDiscoveryChain] looks into, and
    [chains] is [snap.IngressGateway.WatchedDiscoveryChains].  The handler
    is the one of an ingress gateway: [s.kind] is
    [ServiceKindIngressGateway]. *)
Fixpoint watchUpstreams (services : list GatewayService)
    (hosts : list string) (watchedSvcs : gset string)
    (upstreamsMap : gmap (string * Z) (list (Upstream CfgMap)))
    (cp : ConnectProxy.configSnapshotConnectProxy Data CfgMap)
    (chains : gmap string nat) (w : World)
    : error * list string * gset string
      * gmap (string * Z) (list (Upstream CfgMap))
      * ConnectProxy.configSnapshotConnectProxy Data CfgMap
      * gmap string nat * World :=
  match services with
  | [] => (None, hosts, watchedSvcs, upstreamsMap, cp, chains, w)
  | service :: rest =>
      let u := makeUpstream service in
      let id := Upstream_Identifier u in
      match ConnectProxy.watchDiscoveryChain ServiceKindIngressGateway
              Notify Data CfgMap id cp chains w with
      | (Some e, cp', chains', w') =>
          (Some ("failed to watch discovery chain for " ++ id ++ ": " ++ e),
           hosts, watchedSvcs, upstreamsMap, cp', chains', w')
      | (None, cp', chains', w') =>
          let key := (Protocol service, Port service) in
          watchUpstreams rest (hosts ++ Proxycfg.Hosts service)%list
            ({[id]} ∪ watchedSvcs)
            (<[key := (default [] (upstreamsMap !! key) ++ [u])%list]>
               upstreamsMap)
            cp' chains' w'
      end
  end.

Definition set_chains (ig : configSnapshotIngressGateway)
    (chains : gmap string nat) : configSnapshotIngressGateway :=
  mkIG (TLSEnabled ig) (TLSSet ig) (Hosts ig) (HostsSet ig) (Upstreams ig)
    chains (LeafCertWatchCancel ig).

(** The case [u.CorrelationID == gatewayServicesWatchID] after its type
    assertion; [order] is the order in which [generateIngressDNSSANs] visits
    the namespaces of the new upstreams.  The cancel functions of the
    clean-up loop are called in the order of [map_to_list]. *)
Definition handleGatewayServices (order : list string)
    (services : list GatewayService) (ig : configSnapshotIngressGateway)
    (cp : ConnectProxy.configSnapshotConnectProxy Data CfgMap) (w : World)
    : error * configSnapshotIngressGateway
      * ConnectProxy.configSnapshotConnectProxy Data CfgMap * World :=
  match watchUpstreams services [] ∅ ∅ cp (WatchedDiscoveryChains ig) w with
  | (Some e, _, _, _, cp', chains', w') =>
      (Some e, set_chains ig chains', cp', w')
  | (None, hosts, watchedSvcs, upstreamsMap, cp', chains', w') =>
      let gone := filter (λ kv, kv.1 ∉ watchedSvcs) chains' in
      let ig1 :=
        mkIG (TLSEnabled ig) (TLSSet ig) hosts true upstreamsMap
          (filter (λ kv, kv.1 ∈ watchedSvcs) chains')
          (LeafCertWatchCancel ig) in
      let '(e, ig2, w2) :=
        watchIngressLeafCert order ig1 (cancelAll (map_to_list gone).*2 w') in
      (e, ig2, cp', w2)
  end.

(** The case [u.CorrelationID == gatewayConfigWatchID] after its type
    assertions, for the value of [gatewayConf.TLS.Enabled]. *)
Definition handleGatewayConfig (order : list string) (enabled : bool)
    (ig : configSnapshotIngressGateway) (w : World)
    : error * configSnapshotIngressGateway * World :=
  watchIngressLeafCert order
    (mkIG enabled true (Hosts ig) (HostsSet ig) (Upstreams ig)
       (WatchedDiscoveryChains ig) (LeafCertWatchCancel ig))
    w.

End Handler.
End IngressGateway.

(** ** Endpoints with hostnames: [hostnameEndpoints] *)

Section HostnameEndpoints.

(** A [structs.CheckServiceNode] with the datacenter of its node and its
    compound service name, [BestAddress(wan)], and [net.ParseIP(addr) != nil]. *)
Variable CheckServiceNode : Type.
Variable Node_Datacenter : CheckServiceNode → string.
Variable CompoundServiceName_String : CheckServiceNode → string.
Variable BestAddress : CheckServiceNode → bool → string * Z.
Variable ParseIP : string → bool.

(** The address the loop classifies: WAN when the node is in another
    datacenter. *)
Definition bestAddr (localDC : string) (n : CheckServiceNode) : string :=
  (BestAddress n (negb (String.eqb localDC (Node_Datacenter n)))).1.

(** The loop: [(hasIP, hasHostname, resp)]. *)
Fixpoint classify (localDC : string) (nodes : list CheckServiceNode)
    (acc : bool * bool * list CheckServiceNode)
    : bool * bool * list CheckServiceNode :=
  match nodes with
  | [] => acc
  | n :: rest =>
      let '(hasIP, hasHostname, resp) := acc in
      if ParseIP (bestAddr localDC n)
      then classify localDC rest (true, hasHostname, resp)
      else classify localDC rest (hasIP, true, (resp ++ [n])%list)
  end.

(** [hostnameEndpoints]: the result and the warnings logged, each with the
    datacenter and service of [nodes[0]]. *)
Definition hostnameEndpoints (localDC : string) (nodes : list CheckServiceNode)
    : list CheckServiceNode * list (string * string * string) :=
  let '(hasIP, hasHostname, resp) := classify localDC nodes (false, false, []) in
  (resp,
   if hasHostname && hasIP then
     match nodes with
     | n0 :: _ =>
         [("service contains instances with mix of hostnames and IP addresses; only hostnames will be passed to Envoy",
           Node_Datacenter n0, CompoundServiceName_String n0)]
     | [] => []
     end
   else []).

End HostnameEndpoints.

(** A recogniser of dotted-quad IPv4 addresses: four runs of one to three
    decimal digits, each at most 255, separated by dots.  It stands in for
    [net.ParseIP(addr) != nil] in the examples below. *)
Definition isDigit (c : ascii) : bool :=
  (48 <=? nat_of_ascii c)%nat && (nat_of_ascii c <=? 57)%nat.

Fixpoint fields (s : string) (cur : list ascii) : list (list ascii) :=
  match s with
  | EmptyString => [cur]
  | String c rest =>
      if Ascii.eqb c "."%char then cur :: fields rest []
      else fields rest (cur ++ [c])%list
  end.

Definition octet (l : list ascii) : bool :=
  match l with
  | [] => false
  | _ =>
      (length l <=? 3)%nat && forallb isDigit l
      && (foldl (λ acc c, 10 * acc + nat_of_ascii c - 48) 0 l <=? 255)%nat
  end.

Definition dottedQuad (s : string) : bool :=
  match fields s [] with
  | [a; b; c; d] => octet a && octet b && octet c && octet d
  | _ => false
  end.

(** ** The mesh gateway: [handlerMeshGateway.handleUpdate] *)

Module MeshGateway.
Section Handler.

(** [snap.Datacenter], the subscription provider, [ServiceName.String] and
    [structs.ServiceNameFromString], the [structs.CheckServiceNode]s with
    what [hostnameEndpoints] reads of them and the name of their service
    ([csn.Service.Service]), and the constant [structs.ConsulServiceName]. *)
Variable snapDatacenter : string.
Variable Notify : World → Provider → string → error.
Variable SN_String : ServiceName → string.
Variable ServiceNameFromString : string → ServiceName.
Variable CheckServiceNode : Type.
Variable Node_Datacenter : CheckServiceNode → string.
Variable CompoundServiceName_String : CheckServiceNode → string.
Variable BestAddress : CheckServiceNode → bool → string * Z.
Variable ParseIP : string → bool.
Variable Service_Service : CheckServiceNode → string.
Variable ConsulServiceName : string.

Definition serviceListWatchID : string := "service-list".
Definition federationStateListGatewaysWatchID : string :=
  "federation-state-list-mesh-gateways".
Definition consulServerListWatchID : string := "consul-server-list".
Definition datacentersWatchID : string := "datacenters".
Definition serviceResolversWatchID : string := "service-resolvers".

(** [configSnapshotMeshGateway], the fields these cases touch and the map
    of the datacenter watches. *)
Record configSnapshotMeshGateway := mkMG {
  WatchedServices : gmap ServiceName nat;
  WatchedServicesSet : bool;
  WatchedDatacenters : gmap string nat;
  ServiceGroups : gmap ServiceName (list CheckServiceNode);
  GatewayGroups : gmap string (list CheckServiceNode);
  FedStateGateways : gmap string (list CheckServiceNode);
  ConsulServers : list CheckServiceNode;
  HostnameDatacenters : gmap string (list CheckServiceNode)
}.

(** The dynamic types the cases assert of [u.Result]. *)
Inductive MeshPayload :=
| PDatacenterIndexedCheckServiceNodes
    (DatacenterNodes : gmap string (list CheckServiceNode))
| PServiceList (services : list ServiceName)
| PIndexedCheckServiceNodes (nodes : list CheckServiceNode)
| PIndexedNodesWithGateways (nodes : list CheckServiceNode)
| POther.

Record MeshUpdateEvent := mkMeshUpdateEvent {
  MCorrelationID : string;
  MResult : MeshPayload;
  MErr : error
}.

(** [hostnameEndpoints(logger, snap.Datacenter, nodes)]: the result, the
    warning being logged. *)
Definition hostnames (nodes : list CheckServiceNode) (w : World)
    : list CheckServiceNode * World :=
  let '(resp, warnings) :=
    hostnameEndpoints CheckServiceNode Node_Datacenter
      CompoundServiceName_String BestAddress ParseIP snapDatacenter nodes in
  (resp, foldl (λ w warning, logMsg warning.1.1 w) w warnings).

(** The case [federationStateListGatewaysWatchID] after its type assertion.
    The first loop visits the delivered map in the order of [map_to_list]. *)
Definition handleFederationStates
    (DatacenterNodes : gmap string (list CheckServiceNode))
    (mg : configSnapshotMeshGateway) (w : World)
    : configSnapshotMeshGateway * World :=
  let '(hd, w1) :=
    foldl (λ '(hd, w) '(dc, nodes),
             let '(resp, w') := hostnames nodes w in (<[dc := resp]> hd, w'))
      (HostnameDatacenters mg, w) (map_to_list DatacenterNodes) in
  (mkMG (WatchedServices mg) (WatchedServicesSet mg) (WatchedDatacenters mg)
     (ServiceGroups mg) (GatewayGroups mg) DatacenterNodes (ConsulServers mg)
     (filter (λ kv, kv.1 ∈ dom DatacenterNodes) hd),
   w1).

Definition set_WatchedServices (mg : configSnapshotMeshGateway)
    (m : gmap ServiceName nat) (set : bool) : configSnapshotMeshGateway :=
  mkMG m set (WatchedDatacenters mg) (ServiceGroups mg) (GatewayGroups mg)
    (FedStateGateways mg) (ConsulServers mg) (HostnameDatacenters mg).

(** The loop [for _, svc := range services.Services] of the case
    [serviceListWatchID]: the pattern of the terminating gateway, for the
    one map [WatchedServices]. *)
Fixpoint watchServices (services : list ServiceName)
    (svcMap : gset ServiceName) (mg : configSnapshotMeshGateway) (w : World)
    : error * gset ServiceName * configSnapshotMeshGateway * World :=
  match services with
  | [] => (None, svcMap, mg, w)
  | svc :: rest =>
      let svcMap' := {[svc]} ∪ svcMap in
      match TerminatingGateway.watchIfMissing Notify SN_String
              (WatchedServices mg) svc Health "connect-service:"
              "failed to register watch for connect-service" w with
      | (Some e, m, w') =>
          (Some e, svcMap', set_WatchedServices mg m (WatchedServicesSet mg),
           w')
      | (None, m, w') =>
          watchServices rest svcMap'
            (set_WatchedServices mg m (WatchedServicesSet mg)) w'
      end
  end.

(** The case [serviceListWatchID] after its type assertion. *)
Definition handleServiceList (services : list ServiceName)
    (mg : configSnapshotMeshGateway) (w : World)
    : error * configSnapshotMeshGateway * World :=
  match watchServices services ∅ mg w with
  | (Some e, _, mg', w') => (Some e, mg', w')
  | (None, svcMap, mg', w') =>
      let gone := TerminatingGateway.unlisted svcMap (WatchedServices mg') in
      (None,
       set_WatchedServices mg'
         (TerminatingGateway.keepListed svcMap (WatchedServices mg')) true,
       TerminatingGateway.cancelGone "canceling watch for service" gone w')
  end.

(** The sanity checks of the case [consulServerListWatchID]. *)
Fixpoint checkConsulServers (nodes : list CheckServiceNode) : error :=
  match nodes with
  | [] => None
  | csn :: rest =>
      if negb (String.eqb (Service_Service csn) ConsulServiceName) then
        Some ("expected service name " ++ ConsulServiceName ++ " but got "
              ++ Service_Service csn)
      else if negb (String.eqb (Node_Datacenter csn) snapDatacenter) then
        Some ("expected datacenter " ++ snapDatacenter ++ " but got "
              ++ Node_Datacenter csn)
      else checkConsulServers rest
  end.

Definition handleConsulServerList (nodes : list CheckServiceNode)
    (mg : configSnapshotMeshGateway) : error * configSnapshotMeshGateway :=
  match checkConsulServers nodes with
  | Some e => (Some e, mg)
  | None =>
      (None,
       mkMG (WatchedServices mg) (WatchedServicesSet mg)
         (WatchedDatacenters mg) (ServiceGroups mg) (GatewayGroups mg)
         (FedStateGateways mg) nodes (HostnameDatacenters mg))
  end.

(** The case of the prefix [connect-service:] after its type assertion. *)
Definition handleConnectService (correlationID : string)
    (nodes : list CheckServiceNode) (mg : configSnapshotMeshGateway)
    : configSnapshotMeshGateway :=
  let sn :=
    ServiceNameFromString
      (strings_TrimPrefix correlationID "connect-service:") in
  mkMG (WatchedServices mg) (WatchedServicesSet mg) (WatchedDatacenters mg)
    (if Z.ltb 0 (Z.of_nat (length nodes))
     then <[sn := nodes]> (ServiceGroups mg)
     else delete sn (ServiceGroups mg))
    (GatewayGroups mg) (FedStateGateways mg) (ConsulServers mg)
    (HostnameDatacenters mg).

(** The case of the prefix [mesh-gateway:] after its type assertion. *)
Definition handleMeshGatewayNodes (correlationID : string)
    (nodes : list CheckServiceNode) (mg : configSnapshotMeshGateway)
    (w : World) : configSnapshotMeshGateway * World :=
  let dc := strings_TrimPrefix correlationID "mesh-gateway:" in
  let gg := delete dc (GatewayGroups mg) in
  let hd := delete dc (HostnameDatacenters mg) in
  if Z.ltb 0 (Z.of_nat (length nodes)) then
    let '(resp, w') := hostnames nodes w in
    (mkMG (WatchedServices mg) (WatchedServicesSet mg)
       (WatchedDatacenters mg) (ServiceGroups mg) (<[dc := nodes]> gg)
       (FedStateGateways mg) (ConsulServers mg) (<[dc := resp]> hd),
     w')
  else
    (mkMG (WatchedServices mg) (WatchedServicesSet mg)
       (WatchedDatacenters mg) (ServiceGroups mg) gg (FedStateGateways mg)
       (ConsulServers mg) hd,
     w).

(** [handleUpdate] of the mesh gateway.  The cases [roots], [datacenters]
    and [service-resolvers] are [otherCases]. *)
Definition handleUpdate
    (otherCases : MeshUpdateEvent → configSnapshotMeshGateway → World →
                  error * configSnapshotMeshGateway * World)
    (u : MeshUpdateEvent) (mg : configSnapshotMeshGateway) (w : World)
    : error * configSnapshotMeshGateway * World :=
  match MErr u with
  | Some e => (Some ("error filling agent cache: " ++ e), mg, w)
  | None =>
      let id := MCorrelationID u in
      if decide (id = rootsWatchID) then otherCases u mg w
      else if decide (id = federationStateListGatewaysWatchID) then
        match MResult u with
        | PDatacenterIndexedCheckServiceNodes dcNodes =>
            let '(mg', w') := handleFederationStates dcNodes mg w in
            (None, mg', w')
        | _ => (Some "invalid type for response", mg, w)
        end
      else if decide (id = serviceListWatchID) then
        match MResult u with
        | PServiceList services => handleServiceList services mg w
        | _ => (Some "invalid type for response", mg, w)
        end
      else if decide (id = datacentersWatchID) then otherCases u mg w
      else if decide (id = serviceResolversWatchID) then otherCases u mg w
      else if decide (id = consulServerListWatchID) then
        match MResult u with
        | PIndexedCheckServiceNodes nodes =>
            let '(e, mg') := handleConsulServerList nodes mg in (e, mg', w)
        | _ => (Some "invalid type for response", mg, w)
        end
      else if strings_HasPrefix id "connect-service:" then
        match MResult u with
        | PIndexedCheckServiceNodes nodes =>
            (None, handleConnectService id nodes mg, w)
        | _ => (Some "invalid type for response", mg, w)
        end
      else if strings_HasPrefix id "mesh-gateway:" then
        match MResult u with
        | PIndexedNodesWithGateways nodes =>
            let '(mg', w') := handleMeshGatewayNodes id nodes mg w in
            (None, mg', w')
        | _ => (Some "invalid type for response", mg, w)
        end
      else (None, mg, w)
  end.

End Handler.
End MeshGateway.

(** ** The proxy state: [state.run], [state.CurrentSnapshot], [state.Changed] *)

Module State.

Section Run.

(** The snapshot type with [ConfigSnapshot.Valid] and
    [ConfigSnapshot.Clone] (which returns a copy or an error), the update
    events with the handler of the proxy's kind, and the heap they work on:
    the handler changes the snapshot in place, also when it returns an
    error. *)
Variable Snap : Type.
Variable Heap : Type.
Variable Update : Type.
Variable handleUpdate : Update → Snap → Heap → error * Snap * Heap.
Variable Valid : Snap → bool.
Variable Clone : Snap → Heap → string + Snap * Heap.

(** The variables of [run] and the channels around it. *)
Record runState := mkRun {
  snap : Snap;
  heap : Heap;
  (* the [*time.Timer] by its number, [None] for nil *)
  coalesceTimer : option nat;
  (* the durations of the calls of [time.AfterFunc] so far *)
  timersMade : list Z;
  (* timer callbacks whose send on [sendCh] was not received yet *)
  sendPending : nat;
  (* [s.snapCh], of capacity 1 *)
  snapCh : list Snap;
  snapChClosed : bool;
  (* what was sent on the reply channels of the requests *)
  replies : list (option Snap);
  logged : list string;
  (* [run] has returned *)
  stopped : bool
}.

(** The state in which [Watch] starts [run]. *)
Definition initRun (sn : Snap) (h : Heap) : runState :=
  mkRun sn h None [] 0 [] false [] [] false.

Definition set_snap (st : runState) (sn : Snap) (h : Heap) : runState :=
  mkRun sn h (coalesceTimer st) (timersMade st) (sendPending st) (snapCh st)
    (snapChClosed st) (replies st) (logged st) (stopped st).

Definition set_heap (st : runState) (h : Heap) : runState :=
  set_snap st (snap st) h.

Definition logError (msg : string) (st : runState) : runState :=
  mkRun (snap st) (heap st) (coalesceTimer st) (timersMade st)
    (sendPending st) (snapCh st) (snapChClosed st) (replies st)
    (logged st ++ [msg]) (stopped st).

(** [coalesceTimer = time.AfterFunc(coalesceTimeout, func() { sendCh <- struct{}{} })] *)
Definition armTimer (st : runState) : runState :=
  mkRun (snap st) (heap st) (Some (length (timersMade st)))
    (timersMade st ++ [coalesceTimeout]) (S (sendPending st)) (snapCh st)
    (snapChClosed st) (replies st) (logged st) (stopped st).

(** [if coalesceTimer == nil { coalesceTimer = time.AfterFunc(...) }] *)
Definition armIfNil (st : runState) : runState :=
  match coalesceTimer st with
  | None => armTimer st
  | Some _ => st
  end.

(** The end of the loop body, reached after an update handled without
    error. *)
Definition afterUpdate (st : runState) : runState :=
  if Valid (snap st) then armIfNil st else st.

(** The case [u := <-s.ch]. *)
Definition onUpdate (u : Update) (st : runState) : runState :=
  let '(err, sn, h) := handleUpdate u (snap st) (heap st) in
  match err with
  | Some _ =>
      logError "Failed to handle update from watch" (set_snap st sn h)
  | None => afterUpdate (set_snap st sn h)
  end.

(** The case [<-sendCh], the token of one timer received. *)
Definition onSendCh (st : runState) : runState :=
  let st0 :=
    mkRun (snap st) (heap st) (coalesceTimer st) (timersMade st)
      (pred (sendPending st)) (snapCh st) (snapChClosed st) (replies st)
      (logged st) (stopped st) in
  match Clone (snap st0) (heap st0) with
  | inl _ => logError "Failed to copy config snapshot for proxy" st0
  | inr (snapCopy, h) =>
      let st1 := set_heap st0 h in
      match snapCh st1 with
      | [] =>
          (* case s.snapCh <- *snapCopy *)
          mkRun (snap st1) (heap st1) None (timersMade st1)
            (sendPending st1) [snapCopy] (snapChClosed st1) (replies st1)
            (logged st1) (stopped st1)
      | _ :: _ =>
          (* default *)
          armIfNil st1
      end
  end.

(** The case [replyCh := <-s.reqCh]: the new state and what is sent on
    [replyCh], if anything. *)
Definition onRequest (st : runState) : runState * option (option Snap) :=
  let reply (r : option Snap) (st : runState) :=
    mkRun (snap st) (heap st) (coalesceTimer st) (timersMade st)
      (sendPending st) (snapCh st) (snapChClosed st) (replies st ++ [r])
      (logged st) (stopped st) in
  if negb (Valid (snap st)) then (reply None st, Some None)
  else
    match Clone (snap st) (heap st) with
    | inl _ => (logError "Failed to copy config snapshot for proxy" st, None)
    | inr (snapCopy, h) =>
        (reply (Some snapCopy) (set_heap st h), Some (Some snapCopy))
    end.

(** What can happen next: a case of the [select] of [run] that is ready, or
    the consumer receiving from [s.snapCh]. *)
Inductive event :=
| CtxDone
| Inbound (u : Update)
| SendCh
| ReqCh
| Consume.

(** One iteration of the loop of [run] ([None]: the event cannot happen in
    this state). *)
Definition step (e : event) (st : runState) : option runState :=
  match e with
  | Consume =>
      match snapCh st with
      | [] => None
      | _ :: rest =>
          Some (mkRun (snap st) (heap st) (coalesceTimer st) (timersMade st)
                  (sendPending st) rest (snapChClosed st) (replies st)
                  (logged st) (stopped st))
      end
  | _ =>
      if stopped st then None
      else
        match e with
        | CtxDone =>
            Some (mkRun (snap st) (heap st) (coalesceTimer st)
                    (timersMade st) (sendPending st) (snapCh st) true
                    (replies st) (logged st) true)
        | Inbound u => Some (onUpdate u st)
        | SendCh =>
            match sendPending st with
            | O => None
            | S _ => Some (onSendCh st)
            end
        | ReqCh => Some (onRequest st).1
        | Consume => None
        end
  end.

Fixpoint run (es : list event) (st : runState) : option runState :=
  match es with
  | [] => Some st
  | e :: es' =>
      match step e st with
      | Some st' => run es' st'
      | None => None
      end
  end.

(** [CurrentSnapshot]: the request is sent, the loop takes it, and the caller
    receives what the loop sends back; [None] when nothing is sent back. *)
Definition CurrentSnapshot (st : runState) : option (option Snap * runState) :=
  if stopped st then None
  else
    match onRequest st with
    | (st', Some r) => Some (r, st')
    | (_, None) => None
    end.

End Run.

(** *** [state.Watch] and [state.Close] *)

Section Watch.

(** The snapshot type and [s.handler.initialize]. *)
Variable Snap : Type.
Variable initialize : nat → World → error * Snap * World.

(** [Watch]: the error, [s.cancel] as it is left, the snapshot [run] is
    started with (if it is started), and the world. *)
Definition Watch (w : World) : error * option nat * option Snap * World :=
  let h := nextCtx w in
  let w1 := mkWorld (subs w) (cancelled w) (S h) (logs w) in
  match initialize h w1 with
  | (Some e, _, w2) => (Some e, Some h, None, cancel h w2)
  | (None, snap, w2) => (None, Some h, Some snap, w2)
  end.

(** [Close], for the value of [s.cancel]. *)
Definition Close (s_cancel : option nat) (w : World) : World :=
  match s_cancel with
  | Some h => cancel h w
  | None => w
  end.

End Watch.

Arguments snap {Snap Heap}.
Arguments heap {Snap Heap}.
Arguments coalesceTimer {Snap Heap}.
Arguments timersMade {Snap Heap}.
Arguments sendPending {Snap Heap}.
Arguments snapCh {Snap Heap}.
Arguments snapChClosed {Snap Heap}.
Arguments replies {Snap Heap}.
Arguments logged {Snap Heap}.
Arguments stopped {Snap Heap}.
Arguments initRun {Snap Heap}.
Arguments CtxDone {Update}.
Arguments SendCh {Update}.
Arguments ReqCh {Update}.
Arguments Consume {Update}.
Arguments Inbound {Update}.
Arguments step {Snap Heap Update}.
Arguments run {Snap Heap Update}.
Arguments onUpdate {Snap Heap Update}.
Arguments onSendCh {Snap Heap}.
Arguments onRequest {Snap Heap}.
Arguments armIfNil {Snap Heap}.
Arguments armTimer {Snap Heap}.
Arguments afterUpdate {Snap Heap}.
Arguments CurrentSnapshot {Snap Heap}.

(** *** Go values and the deep copy *)

(** A Go value as far as sharing goes: a value without identity, or a map,
    slice or pointed-to structure with its address and its elements. *)
#[local] Unset Elimination Schemes.
Inductive value :=
| Scalar (s : string)
| Object (addr : nat) (elems : list value).
#[local] Set Elimination Schemes.

(** The addresses of the maps, slices and structures inside a value. *)
Fixpoint addrs (v : value) : list nat :=
  match v with
  | Scalar _ => []
  | Object a es => a :: flat_map addrs es
  end.

(** A value without its addresses. *)
Fixpoint content (v : value) : value :=
  match v with
  | Scalar s => Scalar s
  | Object _ es => Object 0 (map content es)
  end.

(** Modelled from the spec: [ConfigSnapshot.Clone], whose file [snapshot.go]
    is outside the files embedded here.  "Deep-clone the snapshot", "clones must be
    deep: no sub-map, slice, or nested structure may be shared between the
    internal snapshot and published copies": every map, slice and structure
    of the copy is allocated anew, [next] being the first free address. *)
Fixpoint deepCopy (v : value) (next : nat) : value * nat :=
  match v with
  | Scalar s => (Scalar s, next)
  | Object _ es =>
      let '(es', next') :=
        (fix copyAll (l : list value) (n : nat) : list value * nat :=
           match l with
           | [] => ([], n)
           | x :: r =>
               let '(x', n1) := deepCopy x n in
               let '(r', n2) := copyAll r n1 in
               (x' :: r', n2)
           end) es (S next) in
      (Object next es', next')
  end.

(** The inner loop of [deepCopy] on its own. *)
Fixpoint copyAll (l : list value) (n : nat) : list value * nat :=
  match l with
  | [] => ([], n)
  | x :: r =>
      let '(x', n1) := deepCopy x n in
      let '(r', n2) := copyAll r n1 in
      (x' :: r', n2)
  end.

Definition Clone (v : value) (next : nat) : string + value * nat :=
  inr (deepCopy v next).

(** Every object of the snapshot was allocated below the first free
    address. *)
Definition allocated (st : runState value nat) : Prop :=
  Forall (λ a, (a < heap st)%nat) (addrs (snap st)).

(** *** [state.Changed] *)

Section Changed.

(** [structs.ConnectProxyConfig] is its upstreams and the rest of its
    fields; [zeroRest] is the rest of the zero value.  [copystructure.Copy]
    returns an error or an [interface{}], whose assertion to
    [ConnectProxyConfig] can fail ([inr None]).  [reflect.DeepEqual],
    [EnterpriseMeta.NamespaceOrDefault] and the constant
    [structs.UpstreamDestTypePreparedQuery] are taken as they come. *)
Variable CfgMap : Type.
Variable Rest : Type.
Variable zeroRest : Rest.

Record ConnectProxyConfig := mkProxyCfg {
  ProxyUpstreams : list (Upstream CfgMap);
  ProxyRest : Rest
}.

Variable copystructure_Copy :
  ConnectProxyConfig → string + option ConnectProxyConfig.
Variable reflect_DeepEqual : ConnectProxyConfig → ConnectProxyConfig → bool.
Variable NamespaceOrDefault : string → string.
Variable UpstreamDestTypePreparedQuery : string.

(** [structs.NodeService], the fields read here; [CompoundServiceID] pairs
    the id with the enterprise metadata. *)
Record NodeService := mkNodeService {
  NS_Kind : ServiceKind;
  NS_ID : string;
  NS_Service : string;
  NS_Address : string;
  NS_Port : Z;
  NS_Proxy : ConnectProxyConfig;
  NS_EnterpriseMeta : string
}.

Definition CompoundServiceID (ns : NodeService) : string * string :=
  (NS_ID ns, NS_EnterpriseMeta ns).

Record serviceInstance := mkServiceInstance {
  kind : ServiceKind;
  service : string;
  proxyID : string * string;
  address : string;
  port : Z;
  proxyCfg : ConnectProxyConfig;
  token : string
}.

Definition zeroProxyCfg : ConnectProxyConfig := mkProxyCfg [] zeroRest.

(** The loop of [copyProxyConfig] over the copied upstreams. *)
Definition defaultNamespace (ns : NodeService) (us : Upstream CfgMap)
    : Upstream CfgMap :=
  if negb (String.eqb (DestinationType us) UpstreamDestTypePreparedQuery)
     && String.eqb (DestinationNamespace us) ""
  then mkUpstream (DestinationType us)
         (NamespaceOrDefault (NS_EnterpriseMeta ns)) (DestinationName us)
         (Datacenter us) (LocalBindPort us) (IngressHosts us) (Config us)
         (MeshGateway us)
  else us.

Definition copyProxyConfig (ns : option NodeService)
    : ConnectProxyConfig * error :=
  match ns with
  | None => (zeroProxyCfg, None)
  | Some ns =>
      match copystructure_Copy (NS_Proxy ns) with
      | inl err => (zeroProxyCfg, Some err)
      | inr None => (zeroProxyCfg, Some "failed to copy proxy config")
      | inr (Some cfg) =>
          (mkProxyCfg (map (defaultNamespace ns) (ProxyUpstreams cfg))
             (ProxyRest cfg), None)
      end
  end.

(** [Changed]: the answer and the warnings it logs. *)
Definition Changed (i : serviceInstance) (ns : option NodeService)
    (tok : string) : bool * list string :=
  match ns with
  | None => (true, [])
  | Some n =>
      let '(cfg, err) := copyProxyConfig ns in
      (negb (bool_decide (NS_Kind n = kind i))
       || negb (bool_decide (proxyID i = CompoundServiceID n))
       || negb (String.eqb (address i) (NS_Address n))
       || negb (Z.eqb (port i) (NS_Port n))
       || negb (reflect_DeepEqual (proxyCfg i) cfg)
       || negb (String.eqb (token i) tok),
       match err with
       | Some _ =>
           ["Failed to parse proxy config and will treat the new service as unchanged"]
       | None => []
       end)
  end.

(** *** [newServiceInstanceFromNodeService] and [newState] *)

(** The two map fields of a [structs.NodeService] and of a
    [serviceInstance] that the records above leave out;
    [structs.ServiceAddress] is taken as it comes. *)
Variable ServiceAddress : Type.

Record serviceMaps := mkServiceMaps {
  meta : gmap string string;
  taggedAddresses : gmap string ServiceAddress
}.

(** [m2 := make(map[K]V); for k, v := range m { m2[k] = v }] *)
Definition copyMap {V : Type} (m : gmap string V) : gmap string V :=
  map_fold (λ k v acc, <[k := v]> acc) ∅ m.

(** [newServiceInstanceFromNodeService]: the registration is its record and
    its two maps.  [inl] is the error returned; with a nil registration
    [copyProxyConfig] returns no error and [ns.TaggedAddresses] dereferences
    nil, which is reported as an error. *)
Definition newServiceInstanceFromNodeService
    (ns : option (NodeService * serviceMaps)) (tok : string)
    : string + serviceInstance * serviceMaps :=
  match copyProxyConfig (fst <$> ns) with
  | (_, Some err) => inl err
  | (cfg, None) =>
      match ns with
      | None => inl "panic: nil pointer dereference"
      | Some (n, maps) =>
          inr (mkServiceInstance (NS_Kind n) (NS_Service n)
                 (CompoundServiceID n) (NS_Address n) (NS_Port n) cfg tok,
               mkServiceMaps (copyMap (meta maps))
                 (copyMap (taggedAddresses maps)))
      end
  end.

(** The kinds of [kindHandler]. *)
Inductive handlerKind :=
| handlerConnectProxy
| handlerTerminatingGateway
| handlerMeshGateway
| handlerIngressGateway.

(** [state] as [newState] fills it: the instance, the handler, and the
    capacities of the channels [ch], [snapCh] and [reqCh]. *)
Record state := mkState {
  state_serviceInstance : serviceInstance;
  state_serviceMaps : serviceMaps;
  state_handler : handlerKind;
  state_ch : Z;
  state_snapCh : Z;
  state_reqCh : Z
}.

Definition newState (ns : option (NodeService * serviceMaps)) (tok : string)
    : string + state :=
  match newServiceInstanceFromNodeService ns tok with
  | inl err => inl err
  | inr (s, maps) =>
      let mk h := inr (mkState s maps h 10 1 1) in
      match ns with
      | None => inl "panic: nil pointer dereference"
      | Some (n, _) =>
          match NS_Kind n with
          | ServiceKindConnectProxy => mk handlerConnectProxy
          | ServiceKindTerminatingGateway => mk handlerTerminatingGateway
          | ServiceKindMeshGateway => mk handlerMeshGateway
          | ServiceKindIngressGateway => mk handlerIngressGateway
          | ServiceKindTypical =>
              inl "not a connect-proxy, terminating-gateway, mesh-gateway, or ingress-gateway"
          end
      end
  end.

End Changed.

End State.

End Proxycfg.

(** * Properties *)

Lemma wrap_small z : int_min ≤ z ≤ int_max → wrap z = z.
Proof.
  unfold wrap, int_min, int_max. intros Hz.
  rewrite Z.mod_small; lia.
Qed.

(** ** The anti-entropy syncer *)

Module AEFacts.
Import AE.

Section PauseResume.

Context {ST DT : Type}.
Implicit Types s : StateSyncer ST DT.

(** What holds between calls when [n] pauses are outstanding. *)
Definition refcounted (n : nat) s : Prop :=
  paused s = Z.of_nat n
  ∧ (n = 0%nat ↔ chPaused s = None)
  ∧ (∀ c, chPaused s = Some c → (c ∉ closedChans s) ∧ (c < madeChans s)%nat)
  ∧ (∀ c, c ∈ closedChans s → (c < madeChans s)%nat).

Lemma refcounted_new (st : ST) intv (d : DT) :
  refcounted 0 (NewStateSyncer st intv d).
Proof.
  repeat split; simpl; try done.
Qed.

Lemma refcounted_Pause n s :
  Z.of_nat n < int_max → refcounted n s → refcounted (S n) (Pause s).
Proof.
  intros Hn (Hp & Hnil & Hopen & Hcl).
  assert (Hw : wrap (paused s + 1) = Z.of_nat (S n)).
  { rewrite Hp, wrap_small; unfold int_min, int_max in *; lia. }
  unfold Pause, set_pause, refcounted. destruct (chPaused s) as [c|] eqn:Hc; simpl.
  - split; [done|]. split; [split; [lia | done] |].
    split; [|done]. intros c' [= <-]. by apply Hopen.
  - split; [done|]. split; [split; [lia | done] |]. split.
    + intros c' [= <-]. split; [|lia].
      intros Hin. apply Hcl in Hin. lia.
    + intros c' Hin. apply Hcl in Hin. lia.
Qed.

(** A resume with [S n] pauses outstanding, in full. *)
Lemma Resume_refcounted n s :
  Z.of_nat (S n) ≤ int_max → refcounted (S n) s →
  ∃ s' r,
    Resume s = inr (s', r)
    ∧ refcounted n s'
    ∧ paused s' = paused s - 1
    ∧ (r = true ↔ paused s' = 0)
    ∧ (r = true →
       ∃ c, WaitResume s = Some c
            ∧ (c ∉ closedChans s)
            ∧ closedChans s' = {[c]} ∪ closedChans s
            ∧ WaitResume s' = None
            ∧ SyncChanges s' = Trigger_Trigger (SyncChanges s))
    ∧ (r = false →
       closedChans s' = closedChans s
       ∧ WaitResume s' = WaitResume s
       ∧ SyncChanges s' = SyncChanges s).
Proof.
  intros Hn (Hp & Hnil & Hopen & Hcl).
  assert (Hw : wrap (paused s - 1) = Z.of_nat n).
  { rewrite Hp, wrap_small; unfold int_min, int_max in *; lia. }
  unfold Resume, set_pause, refcounted, WaitResume. rewrite Hw.
  destruct (Z.ltb_spec (Z.of_nat n) 0) as [?|_]; [lia|].
  destruct (Z.eqb_spec (Z.of_nat n) 0) as [H0|H0].
  - destruct (chPaused s) as [c|] eqn:Hc.
    2:{ exfalso. assert (S n = 0%nat) by (by apply Hnil). lia. }
    destruct (Hopen c eq_refl) as [Hnc Hlt].
    destruct (decide (c ∈ closedChans s)) as [|_]; [done|].
    eexists _, true. split; [done|]. simpl.
    split.
    { split; [done|]. split; [split; [done|lia]|]. split; [done|].
      intros c'. rewrite elem_of_union, elem_of_singleton.
      intros [->|Hin]; [done|by apply Hcl]. }
    split; [lia|]. split; [split; [lia|done]|].
    split; [|done]. intros _. by exists c.
  - eexists _, false. split; [done|]. simpl.
    split.
    { split; [done|]. split.
      - split; [lia|]. intros Hnone.
        assert (S n = 0%nat) by (by apply Hnil). lia.
      - done. }
    split; [lia|]. split; [split; [done|lia]|].
    split; [done|]. by intros _.
Qed.

Lemma runCalls_app (cs1 cs2 : list call) s :
  runCalls (cs1 ++ cs2) s =
  match runCalls cs1 s with
  | inl msg => inl msg
  | inr s' => runCalls cs2 s'
  end.
Proof.
  revert s. induction cs1 as [|[] cs1 IH]; intros s; simpl; [done| |].
  - apply IH.
  - destruct (Resume s) as [msg|[s' r]]; [done|apply IH].
Qed.

Lemma depth_app (cs1 cs2 : list call) n :
  depth (cs1 ++ cs2) n = depth cs1 n ≫= depth cs2.
Proof.
  revert n. induction cs1 as [|[] cs1 IH]; intros n; simpl; [done| |].
  - apply IH.
  - destruct n; [done|apply IH].
Qed.

Lemma depth_bound (cs : list call) n m :
  depth cs n = Some m → (m ≤ n + length cs)%nat.
Proof.
  revert n. induction cs as [|[] cs IH]; intros n; simpl.
  - intros [= ->]. lia.
  - intros H. apply IH in H. lia.
  - destruct n; [done|]. intros H. apply IH in H. lia.
Qed.

(** A balanced sequence of calls runs without a panic and keeps count. *)
Lemma runCalls_refcounted (cs : list call) n m s :
  refcounted n s → depth cs n = Some m →
  Z.of_nat (n + length cs) ≤ int_max →
  ∃ s', runCalls cs s = inr s' ∧ refcounted m s'.
Proof.
  revert n s. induction cs as [|[] cs IH]; intros n s Hinv Hd Hlen; simpl in *.
  - injection Hd as <-. eauto.
  - apply (IH (S n)); [|done|lia].
    apply refcounted_Pause; [lia|done].
  - destruct n as [|n]; [done|].
    destruct (Resume_refcounted n s) as (s' & r & -> & Hinv' & _); [lia|done|].
    apply (IH n); [done|done|lia].
Qed.

(** C8.  In a sequence of [Pause] and [Resume] calls on a new syncer in
    which resumes never outnumber pauses (and whose length an [int] can
    count), every [Resume] runs without a panic, decrements the count and
    returns [true] exactly when the count is then zero.  When it returns
    [true] it closes the channel that [WaitResume] gave before the call and
    calls [SyncChanges.Trigger()] once; when it returns [false] it closes no
    channel and triggers nothing.  In particular [Pause] then [Resume] on a
    new syncer takes the count from 0 to 1 to 0 and triggers once. *)
Theorem Resume_counts_down (st : ST) (intv : Z) (d : DT) (pre : list call) :
  balanced (pre ++ [CResume]) →
  Z.of_nat (length pre) ≤ int_max →
  ∃ s s' r,
    runCalls pre (NewStateSyncer st intv d) = inr s
    ∧ Resume s = inr (s', r)
    ∧ paused s' = paused s - 1
    ∧ (r = true ↔ paused s' = 0)
    ∧ (r = true →
       ∃ c, WaitResume s = Some c
            ∧ (c ∉ closedChans s)
            ∧ closedChans s' = {[c]} ∪ closedChans s
            ∧ WaitResume s' = None
            ∧ fired (SyncChanges s') = S (fired (SyncChanges s)))
    ∧ (r = false →
       closedChans s' = closedChans s
       ∧ WaitResume s' = WaitResume s
       ∧ fired (SyncChanges s') = fired (SyncChanges s))
    ∧ (∃ s2,
         paused (Pause (NewStateSyncer st intv d)) = 1
         ∧ Resume (Pause (NewStateSyncer st intv d)) = inr (s2, true)
         ∧ paused s2 = 0
         ∧ fired (SyncChanges s2) = 1%nat).
Proof.
  intros [k Hk] Hlen.
  rewrite depth_app in Hk.
  destruct (depth pre 0) as [[|m]|] eqn:Hd; simpl in Hk; try done.
  pose proof (depth_bound _ _ _ Hd) as Hm.
  destruct (runCalls_refcounted pre 0 (S m) (NewStateSyncer st intv d))
    as (s & Hrun & Hinv); [apply refcounted_new|done|simpl; lia|].
  destruct (Resume_refcounted m s) as (s' & r & HR & _ & Hdec & Hr & Ht & Hf);
    [lia|done|].
  exists s, s', r. repeat (split; [done|]).
  split.
  { intros Hrt. destruct (Ht Hrt) as (c & ? & ? & ? & ? & Htr).
    exists c. repeat (split; [done|]). by rewrite Htr. }
  split.
  { intros Hrf. destruct (Hf Hrf) as (? & ? & Htr).
    repeat (split; [done|]). by rewrite Htr. }
  assert (Hp1 : refcounted 1 (Pause (NewStateSyncer st intv d))).
  { apply refcounted_Pause; [done|apply refcounted_new]. }
  destruct (Resume_refcounted 0 (Pause (NewStateSyncer st intv d)))
    as (s2 & r2 & HR2 & _ & Hdec2 & Hr2 & Ht2 & _); [done|done|].
  destruct Hp1 as (Hpp & _). rewrite Hpp in Hdec2.
  assert (r2 = true) as -> by (apply Hr2; lia).
  exists s2. split; [done|]. split; [done|]. split; [lia|].
  by destruct (Ht2 eq_refl) as (c & _ & _ & _ & _ & ->).
Qed.

End PauseResume.

(** The theorem at [Pause; Pause; Resume] and the last [Resume]. *)
Lemma Resume_counts_down_witness :
  ∃ s s' r,
    runCalls [CPause; CPause; CResume] (NewStateSyncer tt 60000000000 tt)
      = inr s
    ∧ Resume s = inr (s', r)
    ∧ paused s' = paused s - 1.
Proof.
  destruct (Resume_counts_down tt 60000000000 tt [CPause; CPause; CResume])
    as (s & s' & r & H1 & H2 & H3 & _).
  - by exists 0%nat.
  - unfold int_max. simpl. lia.
  - by exists s, s', r.
Defined.

Section FullSync.

Context {ST DT : Type}.
Variable State_SyncFull : ST → ST * error.
Variable Delayer_Jitter : DT → Z → Z * DT.
Implicit Types s : StateSyncer ST DT.

Local Abbreviation fullSync := (AE.fullSync State_SyncFull Delayer_Jitter).
Local Abbreviation Jitter := (AE.Jitter Delayer_Jitter).
Local Abbreviation retryDelay := (AE.retryDelay Delayer_Jitter).
Local Abbreviation scheduleNextFullSync :=
  (AE.scheduleNextFullSync Delayer_Jitter).
Local Abbreviation callSyncFull := (AE.callSyncFull State_SyncFull).

Lemma Jitter_keeps s d :
  let s' := (Jitter s d).2 in
  trace s' = trace s ∧ paused s' = paused s ∧ State s' = State s
  ∧ Interval s' = Interval s ∧ retryFailInterval s' = retryFailInterval s
  ∧ timerNextFullSync s' = timerNextFullSync s.
Proof.
  unfold AE.Jitter. by destruct (Delayer_Jitter (Delayer s) d).
Qed.

Lemma retryDelay_spec s :
  (retryDelay s).1 = wrap (retryFailInterval s + (Jitter s (retryFailInterval s)).1)
  ∧ (retryDelay s).2 = (Jitter s (retryFailInterval s)).2.
Proof.
  unfold AE.retryDelay. by destruct (Jitter s (retryFailInterval s)).
Qed.

Lemma scheduleNextFullSync_spec s :
  let d := wrap (Interval s + (Jitter s (Interval s)).1) in
  let s1 := scheduleNextFullSync s in
  timerNextFullSync s1 = Some d
  ∧ trace s1 = trace s ++ [ETimerNextFullSync d]
  ∧ paused s1 = paused s ∧ State s1 = State s
  ∧ retryFailInterval s1 = retryFailInterval s.
Proof.
  unfold AE.scheduleNextFullSync.
  pose proof (Jitter_keeps s (Interval s)) as H.
  destruct (Jitter s (Interval s)) as [j s']. simpl in *.
  destruct H as (-> & -> & -> & _ & -> & _). done.
Qed.

Lemma callSyncFull_spec s :
  let r := State_SyncFull (State s) in
  (callSyncFull s).1 = r.2
  ∧ State (callSyncFull s).2 = r.1
  ∧ trace (callSyncFull s).2 = trace s ++ [ESyncFull r.2]
  ∧ retryFailInterval (callSyncFull s).2 = retryFailInterval s.
Proof.
  unfold AE.callSyncFull. by destruct (State_SyncFull (State s)).
Qed.

(** The delay after which a paused or failed full sync is retried, computed
    in state [s]. *)
Definition retryAfter s : Z :=
  wrap (retryFailInterval s + (Jitter s (retryFailInterval s)).1).

(** C9.  An iteration of [fullSync] with delay 0 first arms
    [timerNextFullSync] for [Interval + Jitter(Interval)].  If the syncer is
    paused it calls nothing else and goes on with the delay
    [retryFailInterval + Jitter(retryFailInterval)].  Otherwise it calls
    [SyncFull] once: on success [fullSync] returns nil, on failure it logs
    and goes on with a delay computed in the same way.  Going on with a
    delay other than 0 means waiting until it has elapsed and then running
    the iteration with delay 0 again. *)
Theorem fullSync_delay_zero (fuel : nat) (evs : list SelEvent) s :
  let next := wrap (Interval s + (Jitter s (Interval s)).1) in
  let s1 := scheduleNextFullSync s in
  timerNextFullSync s1 = Some next
  ∧ trace s1 = trace s ++ [ETimerNextFullSync next]
  ∧ (isPaused s = true →
     let s2 := (Jitter s1 (retryFailInterval s1)).2 in
     fullSync (S fuel) 0 evs s = fullSync fuel (retryAfter s1) evs s2
     ∧ trace s2 = trace s1)
  ∧ (isPaused s = false →
     let r := State_SyncFull (State s) in
     let s2 := (callSyncFull s1).2 in
     State s2 = r.1
     ∧ trace s2 = trace s1 ++ [ESyncFull r.2]
     ∧ (r.2 = None → fullSync (S fuel) 0 evs s = (Returned None, s2))
     ∧ (r.2 ≠ None →
        let s3 := logError "failed to sync remote state" s2 in
        let s4 := (Jitter s3 (retryFailInterval s3)).2 in
        fullSync (S fuel) 0 evs s = fullSync fuel (retryAfter s3) evs s4
        ∧ trace s4 =
          trace s2 ++ [ELogError "failed to sync remote state"]))
  ∧ (∀ d s', d ≠ 0 →
     fullSync (S fuel) d (TimeAfter :: evs) s' = fullSync fuel 0 evs s').
Proof.
  intros next s1.
  destruct (scheduleNextFullSync_spec s) as (Ht & Htr & Hp & Hst & Hrf).
  fold s1 in Ht, Htr, Hp, Hst, Hrf. fold next in Ht, Htr.
  assert (Hpaused : isPaused s1 = isPaused s).
  { unfold isPaused. by rewrite Hp. }
  split; [done|]. split; [done|]. split; [|split].
  - intros Hs s2. simpl. fold s1. rewrite Hpaused, Hs.
    destruct (retryDelay_spec s1) as [Hd Hs2].
    destruct (retryDelay s1) as [d s2'] eqn:Hrd. simpl in Hd, Hs2.
    subst d s2'. split; [done|].
    apply (Jitter_keeps s1 (retryFailInterval s1)).
  - intros Hs r s2. simpl. fold s1. rewrite Hpaused, Hs.
    destruct (callSyncFull_spec s1) as (He & Hst2 & Htr2 & _).
    fold s2 in Hst2, Htr2. rewrite Hst in He, Hst2, Htr2. fold r in He, Hst2, Htr2.
    split; [done|]. split; [done|].
    destruct (callSyncFull s1) as [e s2'] eqn:Hc. simpl in He.
    subst s2. simpl. subst e. split.
    + intros ->. done.
    + intros Hne. destruct (r.2) as [msg|]; [|done].
      set (s3 := logError "failed to sync remote state" s2').
      destruct (retryDelay_spec s3) as [Hd Hs4].
      destruct (retryDelay s3) as [d s4'] eqn:Hrd. simpl in Hd, Hs4.
      subst d s4'. split; [done|].
      apply (Jitter_keeps s3 (retryFailInterval s2')).
  - intros d s' Hd. simpl.
    destruct (Z.eqb_spec d 0); [done|reflexivity].
Qed.

End FullSync.

(** A run of [fullSync]: the first [SyncFull] fails, the retry delay
    elapses, the second succeeds.  The delayer adds no jitter. *)
Example fullSync_retry_run :
  let failOnce (n : nat) : nat * error :=
    match n with
    | O => (O, None)
    | S k => (k, Some "rpc error"%string)
    end in
  let r := fullSync failOnce (λ (d : ()) (_ : Z), (0, d)) 5 0 [TimeAfter]
             (NewStateSyncer 1%nat 60000000000 ()) in
  r.1 = Returned None
  ∧ trace r.2 =
    [ETimerNextFullSync 60000000000; ESyncFull (Some "rpc error"%string);
     ELogError "failed to sync remote state";
     ETimerNextFullSync 60000000000; ESyncFull None].
Proof. by vm_compute. Qed.

(** While the syncer is paused [fullSync] never calls [SyncFull]. *)
Example fullSync_paused_run :
  let r := fullSync (λ n : nat, (n, None)) (λ (d : ()) (_ : Z), (0, d)) 4 0
             [TimeAfter]
             (Pause (NewStateSyncer 0%nat 60000000000 ())) in
  r.1 = Waiting
  ∧ trace r.2 =
    [ETimerNextFullSync 60000000000; ETimerNextFullSync 60000000000].
Proof. by vm_compute. Qed.

(** *** Unbalanced calls, and what [WaitResume] tells *)

Section PauseState.

Context {ST DT : Type}.
Implicit Types s : StateSyncer ST DT.

Lemma Resume_unbalanced s :
  paused s = 0 → Resume s = inl "unbalanced pause/resume"%string.
Proof.
  intros Hp. unfold Resume. rewrite Hp. done.
Qed.

Lemma runCalls_unbalanced (cs : list call) n s :
  refcounted n s → depth cs n = None →
  Z.of_nat (n + length cs) ≤ int_max →
  runCalls cs s = inl "unbalanced pause/resume"%string.
Proof.
  revert n s. induction cs as [|[] cs IH]; intros n s Hinv Hd Hlen; simpl in *.
  - done.
  - apply (IH (S n)); [|done|lia].
    apply refcounted_Pause; [lia|done].
  - destruct n as [|n].
    + rewrite Resume_unbalanced; [done|]. by destruct Hinv as [-> _].
    + destruct (Resume_refcounted n s) as (s' & r & -> & Hinv' & _); [lia|done|].
      apply (IH n); [done|done|lia].
Qed.

(** X1.  A sequence of [Pause] and [Resume] calls on a new syncer in which
    some prefix has more resumes than pauses panics with "unbalanced
    pause/resume" (the length being one an [int] can count). *)
Theorem unbalanced_Resume_panics (st : ST) (intv : Z) (d : DT) (cs : list call) :
  ¬ balanced cs →
  Z.of_nat (length cs) ≤ int_max →
  runCalls cs (NewStateSyncer st intv d) = inl "unbalanced pause/resume"%string.
Proof.
  intros Hb Hlen. apply (runCalls_unbalanced cs 0).
  - apply refcounted_new.
  - unfold balanced in Hb. destruct (depth cs 0); [|done].
    exfalso. apply Hb. eauto.
  - simpl. lia.
Qed.

(** X2.  After a balanced sequence of calls on a new syncer that leaves [m]
    pauses outstanding, the count is [m], [isPaused] holds exactly when
    [m] is not zero, [WaitResume] returns nil exactly when the syncer is not
    paused, the channel it returns otherwise is one that has not been
    closed, and a further [Pause] of a paused syncer keeps that channel. *)
Theorem WaitResume_nil_iff_running (st : ST) (intv : Z) (d : DT)
    (cs : list call) (m : nat) :
  depth cs 0 = Some m →
  Z.of_nat (length cs) < int_max →
  ∃ s,
    runCalls cs (NewStateSyncer st intv d) = inr s
    ∧ paused s = Z.of_nat m
    ∧ (isPaused s = true ↔ m ≠ 0%nat)
    ∧ (WaitResume s = None ↔ isPaused s = false)
    ∧ (∀ c, WaitResume s = Some c → c ∉ closedChans s)
    ∧ (isPaused s = true → WaitResume (Pause s) = WaitResume s).
Proof.
  intros Hd Hlen.
  destruct (runCalls_refcounted cs 0 m (NewStateSyncer st intv d))
    as (s & Hrun & Hinv); [apply refcounted_new|done|simpl; lia|].
  exists s. split; [done|].
  destruct Hinv as (Hp & Hnil & Hopen & _).
  assert (Hip : isPaused s = true ↔ m ≠ 0%nat).
  { unfold isPaused. rewrite Hp.
    destruct (Z.eqb_spec (Z.of_nat m) 0); simpl; split; try done; lia. }
  split; [done|]. split; [done|]. split; [|split].
  - unfold WaitResume. rewrite <- Hnil.
    destruct (isPaused s); split; intros H; try done.
    + exfalso. by apply (proj1 Hip).
    + destruct (decide (m = 0%nat)) as [|Hm]; [done|].
      by apply (proj2 Hip) in Hm.
  - intros c Hc. by apply Hopen.
  - intros Hps. unfold WaitResume, Pause.
    destruct (chPaused s) as [c|]; [done|].
    exfalso. apply (proj1 Hip Hps). by apply Hnil.
Qed.

End PauseState.

(** The theorem at [Pause; Resume; Resume]. *)
Lemma unbalanced_Resume_panics_witness :
  runCalls [CPause; CResume; CResume] (NewStateSyncer tt 60000000000 tt)
  = inl "unbalanced pause/resume"%string.
Proof.
  apply (unbalanced_Resume_panics tt 60000000000 tt [CPause; CResume; CResume]).
  - intros [k Hk]. discriminate Hk.
  - unfold int_max. simpl. lia.
Defined.

(** The theorem at [Pause; Pause; Resume]: one pause is outstanding. *)
Lemma WaitResume_nil_iff_running_witness :
  ∃ s,
    runCalls [CPause; CPause; CResume] (NewStateSyncer tt 60000000000 tt) = inr s
    ∧ paused s = 1.
Proof.
  destruct (WaitResume_nil_iff_running tt 60000000000 tt
              [CPause; CPause; CResume] 1) as (s & H1 & H2 & _).
  - reflexivity.
  - unfold int_max. simpl. lia.
  - by exists s.
Defined.

(** *** How [fullSync], [sync] and [Run] end *)

Section SyncRun.

Context {ST DT : Type}.
Variable State_SyncFull : ST → ST * error.
Variable Delayer_Jitter : DT → Z → Z * DT.
Variable State_SyncChanges : ST → ST * error.
Implicit Types s : StateSyncer ST DT.

Local Abbreviation fullSync := (AE.fullSync State_SyncFull Delayer_Jitter).
Local Abbreviation Jitter := (AE.Jitter Delayer_Jitter).
Local Abbreviation retryDelay := (AE.retryDelay Delayer_Jitter).
Local Abbreviation scheduleNextFullSync :=
  (AE.scheduleNextFullSync Delayer_Jitter).
Local Abbreviation callSyncFull := (AE.callSyncFull State_SyncFull).
Local Abbreviation sync :=
  (AE.sync State_SyncFull Delayer_Jitter State_SyncChanges).
Local Abbreviation syncLoop :=
  (AE.syncLoop State_SyncFull Delayer_Jitter State_SyncChanges).
Local Abbreviation Run :=
  (AE.Run State_SyncFull Delayer_Jitter State_SyncChanges).

Lemma isPaused_eq s s' : paused s' = paused s → isPaused s' = isPaused s.
Proof. unfold isPaused. by intros ->. Qed.

Lemma retryDelay_keeps s :
  let s' := (retryDelay s).2 in
  trace s' = trace s ∧ paused s' = paused s ∧ State s' = State s.
Proof.
  destruct (retryDelay_spec Delayer_Jitter s) as [_ ->].
  by destruct (Jitter_keeps Delayer_Jitter s (retryFailInterval s))
    as (? & ? & ? & _).
Qed.

Lemma callSyncFull_paused s : paused (callSyncFull s).2 = paused s.
Proof. unfold AE.callSyncFull. by destruct (State_SyncFull (State s)). Qed.

(** The effects of a run during which [SyncFull] is not called. *)
Definition timersOnly (tr : list Effect) : Prop :=
  Forall (λ e, ∃ d, e = ETimerNextFullSync d) tr.

Lemma fullSync_ends (fuel : nat) :
  ∀ (d : Z) (evs : list SelEvent) s (e : error) s',
    fullSync fuel d evs s = (Returned e, s') →
    paused s' = paused s
    ∧ ((e = None ∧ isPaused s = false
        ∧ ∃ tr, trace s' = tr ++ [ESyncFull None])
       ∨ (e = errShutdown ∧ Shutdown ∈ evs)).
Proof.
  induction fuel as [|fuel IH]; intros d evs s e s' H; [done|].
  simpl in H. destruct (Z.eqb_spec d 0) as [_|_].
  - destruct (scheduleNextFullSync_spec Delayer_Jitter s)
      as (_ & _ & Hp & _).
    set (s1 := scheduleNextFullSync s) in *.
    destruct (isPaused s1) eqn:Hps.
    + pose proof (retryDelay_keeps s1) as (_ & Hp2 & _).
      destruct (retryDelay s1) as [d' s2]. simpl in Hp2.
      apply IH in H as [Hpp H]. split; [congruence|].
      destruct H as [(_ & Hnp & _)|H]; [|by right].
      rewrite (isPaused_eq s1 s2) in Hnp by done. congruence.
    + pose proof (callSyncFull_spec State_SyncFull s1) as (He & _ & Htr & _).
      pose proof (callSyncFull_paused s1) as Hp2.
      destruct (callSyncFull s1) as [e1 s2]. simpl in He, Htr, Hp2.
      destruct e1 as [msg|].
      * set (s3 := logError "failed to sync remote state" s2) in *.
        pose proof (retryDelay_keeps s3) as (_ & Hp3 & _).
        destruct (retryDelay s3) as [d' s4]. simpl in Hp3.
        apply IH in H as [Hpp H]. split; [by rewrite Hpp, Hp3; simpl; congruence|].
        destruct H as [(-> & Hnp & tr)|H]; [left|by right].
        split; [done|]. split; [|done].
        rewrite <- Hps. symmetry. by apply isPaused_eq.
      * injection H as <- <-. split; [congruence|]. left.
        split; [done|]. split.
        { rewrite <- Hps. symmetry. by apply isPaused_eq. }
        rewrite <- He in Htr. eauto.
  - destruct evs as [|[] evs']; [done| | |].
    + apply IH in H as [Hpp H]. split; [done|].
      destruct H as [H|[-> Hin]]; [by left|right].
      split; [done|]. by apply list_elem_of_further.
    + pose proof (Jitter_keeps Delayer_Jitter s (serverUpInterval s))
        as (_ & Hp1 & _).
      destruct (Jitter s (serverUpInterval s)) as [j s1]. simpl in Hp1.
      apply IH in H as [Hpp H]. simpl in Hpp. split; [congruence|].
      destruct H as [(-> & Hnp & tr)|[-> Hin]]; [left|right].
      * split; [done|]. split; [|done]. rewrite <- Hnp.
        symmetry. by apply isPaused_eq.
      * split; [done|]. by apply list_elem_of_further.
    + injection H as <- <-. split; [done|]. right. split; [done|].
      apply list_elem_of_here.
Qed.

(** X3.  [fullSync] returns only nil or the shutdown error, and keeps the
    pause count.  It returns nil only when the syncer is not paused, and its
    last effect is then a call of [SyncFull] that succeeded; it returns the
    shutdown error only when the shutdown channel was among the events. *)
Theorem fullSync_returns (fuel : nat) (d : Z) (evs : list SelEvent) s
    (e : error) s' :
  fullSync fuel d evs s = (Returned e, s') →
  paused s' = paused s
  ∧ ((e = None ∧ isPaused s = false
      ∧ ∃ tr, trace s' = tr ++ [ESyncFull None])
     ∨ (e = errShutdown ∧ Shutdown ∈ evs)).
Proof. apply fullSync_ends. Qed.

Lemma fullSync_paused (fuel : nat) :
  ∀ (d : Z) (evs : list SelEvent) s,
    isPaused s = true →
    let r := fullSync fuel d evs s in
    r.1 ≠ Returned None
    ∧ State r.2 = State s
    ∧ paused r.2 = paused s
    ∧ ∃ tr, trace r.2 = trace s ++ tr ∧ timersOnly tr.
Proof.
  induction fuel as [|fuel IH]; intros d evs s Hps; simpl.
  { split; [done|]. split; [done|]. split; [done|].
    exists []. split; [by rewrite app_nil_r|constructor]. }
  destruct (Z.eqb_spec d 0) as [_|_].
  - destruct (scheduleNextFullSync_spec Delayer_Jitter s)
      as (_ & Htr & Hp & Hst & _).
    set (s1 := scheduleNextFullSync s) in *.
    rewrite (isPaused_eq s s1), Hps by done.
    pose proof (retryDelay_keeps s1) as (Htr2 & Hp2 & Hst2).
    destruct (retryDelay s1) as [d' s2]. simpl in Htr2, Hp2, Hst2.
    destruct (IH d' evs s2) as (Hr & HS & HP & tr & Ht & Hto).
    { rewrite (isPaused_eq s s2); [done|congruence]. }
    split; [done|]. split; [congruence|]. split; [congruence|].
    eexists (_ :: tr). split.
    + rewrite Ht, Htr2, Htr, <- app_assoc. done.
    + constructor; [eauto|done].
  - destruct evs as [|[] evs'].
    + split; [done|]. split; [done|]. split; [done|].
      exists []. split; [by rewrite app_nil_r|constructor].
    + by apply IH.
    + pose proof (Jitter_keeps Delayer_Jitter s (serverUpInterval s))
        as (Htr1 & Hp1 & Hst1 & _).
      destruct (Jitter s (serverUpInterval s)) as [j s1].
      simpl in Htr1, Hp1, Hst1.
      match goal with |- context [fullSync fuel j evs' ?x] => set (s2 := x) end.
      destruct (IH j evs' s2) as (Hr & HS & HP & tr & Ht & Hto).
      { rewrite <- Hps. by apply isPaused_eq. }
      split; [done|]. split; [by rewrite HS|]. split; [by rewrite HP|].
      exists tr. split; [|done]. by rewrite Ht; simpl; rewrite Htr1.
    + simpl. split; [done|]. split; [done|]. split; [done|].
      exists []. split; [by rewrite app_nil_r|constructor].
Qed.

(** X4.  While the syncer is paused [fullSync] never calls [SyncFull]: for
    any number of iterations and any events, the synchronised state is
    untouched, the only effects are re-armed timers, and the call does not
    return nil. *)
Theorem fullSync_paused_never_syncs (fuel : nat) (d : Z) (evs : list SelEvent) s :
  isPaused s = true →
  let r := fullSync fuel d evs s in
  r.1 ≠ Returned None
  ∧ State r.2 = State s
  ∧ ∃ tr, trace r.2 = trace s ++ tr ∧ timersOnly tr.
Proof.
  intros Hps r.
  destruct (fullSync_paused fuel d evs s Hps) as (? & ? & _ & ?). done.
Qed.

Lemma sync_ends (ev : SyncEvent) (fuel : nat) (evs : list SelEvent) s
    (e : error) s' :
  sync ev fuel evs s = (Returned e, s') →
  paused s' = paused s
  ∧ (e = None ∨ (e = errShutdown ∧ (ev = ShutdownClosed ∨ Shutdown ∈ evs))).
Proof.
  destruct ev; simpl.
  - match goal with |- context [Jitter ?x ?y] =>
      pose proof (Jitter_keeps Delayer_Jitter x y) as (_ & Hp1 & _);
      destruct (Jitter x y) as [j s1] end.
    simpl in Hp1. intros H. apply fullSync_ends in H as [Hpp H].
    split; [congruence|]. destruct H as [(-> & _)|[-> ?]]; eauto.
  - destruct (timerNextFullSync s); [|done].
    intros H. apply fullSync_ends in H as [Hpp H].
    split; [done|]. destruct H as [(-> & _)|[-> ?]]; eauto.
  - match goal with |- context [isPaused ?x] => set (s0 := x) end.
    destruct (isPaused s0).
    + intros [= <- <-]. by split; [|left].
    + unfold callSyncChanges. destruct (State_SyncChanges (State s0)) as [st' [msg|]];
        intros [= <- <-]; by split; [|left].
  - intros [= <- <-]. split; [done|]. right. eauto.
Qed.

(** Whether a script lets the shutdown channel be seen. *)
Definition shutdownScripted (evs0 : list SelEvent)
    (script : list (SyncEvent * list SelEvent)) : Prop :=
  Shutdown ∈ evs0
  ∨ Exists (λ p, p.1 = ShutdownClosed ∨ Shutdown ∈ p.2) script.

Lemma syncLoop_ends (fuel : nat) (script : list (SyncEvent * list SelEvent)) :
  ∀ s (e : error) s',
    syncLoop fuel script s = (Returned e, s') →
    paused s' = paused s ∧ e = errShutdown
    ∧ Exists (λ p, p.1 = ShutdownClosed ∨ Shutdown ∈ p.2) script.
Proof.
  induction script as [|[ev evs] script IH]; intros s e s' H; [done|].
  simpl in H.
  destruct (sync ev fuel evs s) as [[[msg|]| |] s1] eqn:Hs; try done.
  - injection H as <- <-. apply sync_ends in Hs as [Hp [?|[-> Hsh]]]; [done|].
    split; [done|]. split; [done|]. by apply Exists_cons_hd.
  - apply sync_ends in Hs as [Hp _]. apply IH in H as (Hp' & -> & Hex).
    split; [congruence|]. split; [done|]. by apply Exists_cons_tl.
Qed.

(** X5.  [Run] ends only with the shutdown error, and only when the shutdown
    channel was among the events of the run; a failure of [SyncFull] or of
    [SyncChanges] never ends it.  The pause count is as before. *)
Theorem Run_ends_on_shutdown (fuel : nat) (evs0 : list SelEvent)
    (script : list (SyncEvent * list SelEvent)) s (e : error) s' :
  Run fuel evs0 script s = (Returned e, s') →
  e = errShutdown ∧ shutdownScripted evs0 script ∧ paused s' = paused s.
Proof.
  unfold AE.Run, shutdownScripted.
  destruct (fullSync fuel 0 evs0 s) as [[[msg|]| |] s1] eqn:Hf; try done.
  - intros [= <- <-]. apply fullSync_ends in Hf as [Hp [(? & _)|[-> Hin]]]; [done|].
    eauto.
  - intros H. apply fullSync_ends in Hf as [Hp _].
    apply syncLoop_ends in H as (Hp' & -> & Hex).
    split; [done|]. split; [by right|congruence].
Qed.

(** X24.  A partial sync that is skipped during a pause is made up for by
    [Resume].  When the syncer is paused once and [sync] takes a
    [SyncChanges] trigger, it returns nil without calling [SyncChanges] and
    the trigger is used up; the [Resume] that follows ends the pause and
    leaves a trigger pending; and when [sync] takes that one it calls
    [SyncChanges], once, and returns nil whether the call fails or not. *)
Theorem skipped_SyncChanges_is_made_up (fuel : nat) (evs : list SelEvent) s
    (c : nat) :
  paused s = 1 →
  chPaused s = Some c →
  c ∉ closedChans s →
  let r := sync SyncChangesReady fuel evs s in
  r.1 = Returned None
  ∧ State r.2 = State s
  ∧ trace r.2 = trace s
  ∧ pending (SyncChanges r.2) = false
  ∧ ∃ s2,
      Resume r.2 = inr (s2, true)
      ∧ pending (SyncChanges s2) = true
      ∧ isPaused s2 = false
      ∧ let r2 := sync SyncChangesReady fuel evs s2 in
        r2.1 = Returned None
        ∧ State r2.2 = (State_SyncChanges (State s)).1
        ∧ pending (SyncChanges r2.2) = false.
Proof.
  intros Hp Hc Hopen. unfold AE.sync, isPaused, set_pause. simpl.
  rewrite Hp. simpl. split; [done|]. split; [done|]. split; [done|].
  split; [done|].
  unfold Resume, set_pause. simpl. rewrite Hc.
  change (wrap (1 - 1)) with 0. simpl.
  destruct (decide (c ∈ closedChans s)) as [|_]; [done|].
  eexists. split; [done|]. simpl. split; [done|]. split; [done|].
  unfold callSyncChanges. simpl.
  by destruct (State_SyncChanges (State s)) as [st [e|]].
Qed.

End SyncRun.

(** A syncer whose [SyncFull] fails once and whose [SyncChanges] always
    fails; the delayer adds no jitter. *)
Definition failOnce (n : nat) : nat * error :=
  match n with
  | O => (O, None)
  | S k => (k, Some "rpc error"%string)
  end.

Definition alwaysFails (n : nat) : nat * error :=
  (n, Some "rpc error"%string).

Definition noJitter (d : ()) (_ : Z) : Z * () := (0, d).

(** The theorem at a run whose first [SyncFull] fails and whose second,
    after the retry delay, succeeds. *)
Lemma fullSync_returns_witness :
  ∃ s', fullSync failOnce noJitter 5 0 [TimeAfter]
          (NewStateSyncer 1%nat 60000000000 ()) = (Returned None, s')
        ∧ paused s' = 0.
Proof.
  eexists. split; [vm_compute; reflexivity|].
  eapply (fullSync_returns failOnce noJitter 5 0 [TimeAfter]
            (NewStateSyncer 1%nat 60000000000 ()) None).
  vm_compute. reflexivity.
Defined.

(** The theorem at a paused syncer, the retry delay elapsing once. *)
Lemma fullSync_paused_never_syncs_witness :
  let r := fullSync failOnce noJitter 4 0 [TimeAfter]
             (Pause (NewStateSyncer 1%nat 60000000000 ())) in
  isPaused (Pause (NewStateSyncer 1%nat 60000000000 ())) = true
  ∧ State r.2 = 1%nat.
Proof.
  split; [reflexivity|].
  by destruct (fullSync_paused_never_syncs failOnce noJitter 4 0 [TimeAfter]
                 (Pause (NewStateSyncer 1%nat 60000000000 ())) eq_refl)
    as (_ & -> & _).
Defined.

(** The theorem at a run of [Run]: the first full sync fails and is retried,
    a [SyncChanges] fails and is logged, then the agent shuts down. *)
Lemma Run_ends_on_shutdown_witness :
  ∃ s', Run failOnce noJitter alwaysFails 5 [TimeAfter]
          [(SyncChangesReady, []); (ShutdownClosed, [])]
          (NewStateSyncer 1%nat 60000000000 ()) = (Returned errShutdown, s')
        ∧ paused s' = 0.
Proof.
  eexists. split; [vm_compute; reflexivity|].
  eapply (Run_ends_on_shutdown failOnce noJitter alwaysFails 5 [TimeAfter]
            [(SyncChangesReady, []); (ShutdownClosed, [])]
            (NewStateSyncer 1%nat 60000000000 ()) errShutdown).
  vm_compute. reflexivity.
Defined.

(** The theorem at a new syncer paused once. *)
Lemma skipped_SyncChanges_is_made_up_witness :
  ∃ s2,
    Resume (sync failOnce noJitter alwaysFails SyncChangesReady 1 []
              (Pause (NewStateSyncer 1%nat 60000000000 ()))).2
    = inr (s2, true)
    ∧ pending (SyncChanges s2) = true.
Proof.
  destruct (skipped_SyncChanges_is_made_up failOnce noJitter alwaysFails 1 []
              (Pause (NewStateSyncer 1%nat 60000000000 ())) 0
              eq_refl eq_refl)
    as (_ & _ & _ & _ & s2 & HR & Hpend & _).
  - set_solver.
  - by exists s2.
Defined.

(** ** The scale factor and the binary logarithm

    The float part of [scaleFactor] is followed through the format: a
    canonical positive float [m * 2 ^ e] is compared, subtracted and rounded
    up by its value, which [scaled] keeps as an integer. *)

Section FloatFacts.
Import SpecFloat.

Local Abbreviation B := (S754_finite false).
Local Abbreviation D m := (Z.pos (digits2_pos m)).

(** The value of a positive finite float, scaled by [2 ^ 1074] so that it is
    an integer for every exponent a binary64 number can have. *)
Definition scaled (m : positive) (e : Z) : Z := Z.pos m * 2 ^ (e + 1074).

Lemma digits2_log2 (m : positive) : D m = Z.log2 (Z.pos m) + 1.
Proof.
  assert (Hs : ∀ p, digits2_pos p = Pos.size p) by (induction p; simpl; congruence).
  rewrite Hs. destruct m; simpl; lia.
Qed.

Lemma digits2_bounds (m : positive) : 2 ^ (D m - 1) ≤ Z.pos m < 2 ^ D m.
Proof.
  rewrite digits2_log2.
  pose proof (Z.log2_spec (Z.pos m) ltac:(lia)) as H.
  replace (Z.log2 (Z.pos m) + 1 - 1) with (Z.log2 (Z.pos m)) by lia.
  replace (Z.log2 (Z.pos m) + 1) with (Z.succ (Z.log2 (Z.pos m))) by lia.
  exact H.
Qed.

Lemma digits2_mul_pow2 (m q : positive) (s : Z) :
  0 ≤ s → Z.pos m = Z.pos q * 2 ^ s → D m = D q + s.
Proof.
  intros Hs H. rewrite !digits2_log2, H, Z.log2_mul_pow2 by lia. lia.
Qed.

Lemma bounded_spec (m : positive) (e : Z) :
  bounded 53 1024 m e = true ↔
  -1074 ≤ e ≤ 971 ∧ D m ≤ 53 ∧ (-1074 < e → D m = 53).
Proof.
  unfold bounded, canonical_mantissa, fexp, emin.
  rewrite andb_true_iff, Z.eqb_eq, Z.leb_le. lia.
Qed.

Lemma scaled_lt_exponent (m1 m2 : positive) (e1 e2 : Z) :
  bounded 53 1024 m1 e1 = true → bounded 53 1024 m2 e2 = true →
  e1 < e2 → scaled m1 e1 < scaled m2 e2.
Proof.
  intros [H1 [H1' _]]%bounded_spec [H2 [_ H2']]%bounded_spec Hlt.
  pose proof (digits2_bounds m1) as B1. pose proof (digits2_bounds m2) as B2.
  rewrite H2' in B2 by lia.
  assert (Z.pos m1 < 2 ^ 53).
  { eapply Z.lt_le_trans; [apply B1|]. apply Z.pow_le_mono_r; lia. }
  unfold scaled.
  replace (e2 + 1074) with ((e2 - e1) + (e1 + 1074)) by lia.
  rewrite (Z.pow_add_r 2 (e2 - e1) (e1 + 1074)) by lia.
  assert (0 < 2 ^ (e1 + 1074)) by (apply Z.pow_pos_nonneg; lia).
  assert (2 ^ 1 ≤ 2 ^ (e2 - e1)) by (apply Z.pow_le_mono_r; lia).
  change (2 ^ (53 - 1)) with 4503599627370496 in B2.
  change (2 ^ 53) with 9007199254740992 in *. change (2 ^ 1) with 2 in *.
  assert (Z.pos m1 < Z.pos m2 * 2 ^ (e2 - e1)) by nia.
  rewrite Z.mul_assoc. by apply Z.mul_lt_mono_pos_r.
Qed.

(** On canonical floats [SFcompare] orders by value. *)
Lemma SFcompare_scaled (m1 m2 : positive) (e1 e2 : Z) :
  bounded 53 1024 m1 e1 = true → bounded 53 1024 m2 e2 = true →
  SFcompare (B m1 e1) (B m2 e2) = Some (scaled m1 e1 ?= scaled m2 e2).
Proof.
  intros H1 H2. simpl. f_equal.
  destruct (Z.compare_spec e1 e2) as [->|Hlt|Hgt].
  - unfold scaled. rewrite Pos.compare_cont_spec. simpl.
    assert (0 < 2 ^ (e2 + 1074)).
    { apply bounded_spec in H2. apply Z.pow_pos_nonneg; lia. }
    destruct (Pos.compare_spec m1 m2) as [->|Hl|Hg]; symmetry.
    + by apply Z.compare_eq_iff.
    + apply Z.compare_lt_iff, Z.mul_lt_mono_pos_r; lia.
    + apply Z.compare_gt_iff, Z.mul_lt_mono_pos_r; lia.
  - symmetry. apply Z.compare_lt_iff. by apply scaled_lt_exponent.
  - symmetry. apply Z.compare_gt_iff. by apply scaled_lt_exponent.
Qed.

Lemma iter_xO (m d : positive) : Z.pos (Pos.iter xO m d) = Z.pos m * 2 ^ Z.pos d.
Proof.
  induction d as [|d IH] using Pos.peano_ind.
  - simpl. lia.
  - rewrite Pos.iter_succ, Pos2Z.inj_xO, IH, Pos2Z.inj_succ, Z.pow_succ_r by lia. lia.
Qed.

Lemma shl_align_spec (m : positive) (e e' : Z) :
  e' ≤ e →
  ∃ m', shl_align m e e' = (m', e') ∧ Z.pos m' = Z.pos m * 2 ^ (e - e').
Proof.
  intros Hle. unfold shl_align.
  destruct (e' - e) as [|d|d] eqn:Hd; [|lia|].
  - exists m. assert (e = e') as -> by lia. rewrite Z.sub_diag. split; [done|lia].
  - exists (Pos.iter xO m d). split; [done|].
    rewrite iter_xO. f_equal. f_equal. lia.
Qed.

Lemma iter_pos_nat {A} (f : A → A) (p : positive) (x : A) :
  iter_pos f p x = Nat.iter (Pos.to_nat p) f x.
Proof.
  revert x. induction p as [p IH|p IH|]; intros x; cbn [iter_pos].
  - rewrite !IH, Pos2Nat.inj_xI.
    rewrite <- Nat.iter_succ_r, <- Nat.iter_add. f_equal. lia.
  - rewrite !IH, Pos2Nat.inj_xO, <- Nat.iter_add. f_equal. lia.
  - done.
Qed.

(** Shifting out zero bits loses nothing. *)
Lemma shr_1_exact (r : nat) (q : positive) :
  Nat.iter r shr_1 (Build_shr_record (Z.pos q * 2 ^ Z.of_nat r) false false)
  = Build_shr_record (Z.pos q) false false.
Proof.
  revert q. induction r as [|r IH]; intros q.
  - simpl. f_equal. lia.
  - rewrite Nat.iter_succ.
    replace (Z.pos q * 2 ^ Z.of_nat (S r)) with (Z.pos q~0 * 2 ^ Z.of_nat r).
    + by rewrite IH.
    + rewrite Nat2Z.inj_succ, Z.pow_succ_r by lia. lia.
Qed.

(** A number that fits the format is rounded to itself: [binary_round] only
    moves the binary point. *)
Lemma binary_round_exact (M : positive) (E : Z) :
  let e' := fexp 53 1024 (D M + E) in
  -1074 ≤ E → e' ≤ 971 →
  (E < e' → (2 ^ (e' - E) | Z.pos M)) →
  ∃ m', binary_round 53 1024 false M E = B m' e' ∧
        scaled m' e' = scaled M E ∧ bounded 53 1024 m' e' = true.
Proof.
  intros e' HE He' Hdiv.
  assert (Hfexp : ∀ z, fexp 53 1024 z = Z.max (z - 53) (-1074)) by done.
  assert (He'min : -1074 ≤ e') by (unfold e'; rewrite Hfexp; lia).
  unfold binary_round. fold e'.
  destruct (Z_le_gt_dec e' E) as [Hle|Hgt].
  - destruct (shl_align_spec M E e' Hle) as (mz & -> & Hmz).
    assert (Hd : D mz = D M + (E - e')) by (apply digits2_mul_pow2; [lia|done]).
    assert (Hcan : fexp 53 1024 (D mz + e') = e').
    { rewrite Hd. replace (D M + (E - e') + e') with (D M + E) by lia. done. }
    exists mz. split; [|split].
    + unfold binary_round_aux, shr_fexp. simpl Zdigits2.
      rewrite Hcan, Z.sub_diag. simpl. rewrite Hcan, Z.sub_diag. simpl.
      change (1024 - 53) with 971. by apply Z.leb_le in He' as ->.
    + unfold scaled. rewrite Hmz, <- Z.mul_assoc, <- Z.pow_add_r by lia.
      f_equal. f_equal. lia.
    + unfold bounded, canonical_mantissa. rewrite Hcan, Z.eqb_refl. simpl.
      by apply Z.leb_le.
  - destruct (Hdiv ltac:(lia)) as [q Hq].
    assert (Hqpos : 0 < q).
    { assert (0 < 2 ^ (e' - E)) by (apply Z.pow_pos_nonneg; lia). nia. }
    destruct q as [|q|q]; [lia| |lia].
    assert (Hd : D M = D q + (e' - E)) by (apply digits2_mul_pow2; [lia|done]).
    assert (Hcan : fexp 53 1024 (D q + e') = e').
    { replace (D q + e') with (D M + E) by lia. done. }
    unfold shl_align. destruct (e' - E) as [|r|r] eqn:Hr; [lia| |lia].
    exists q. split; [|split].
    + unfold binary_round_aux, shr_fexp. simpl Zdigits2. fold e'. rewrite Hr.
      unfold shr at 1. simpl shr_record_of_loc.
      rewrite iter_pos_nat, Hq, <- (positive_nat_Z r), shr_1_exact. simpl.
      rewrite positive_nat_Z, <- Hr.
      replace (E + (e' - E)) with e' by lia.
      rewrite Hcan, Z.sub_diag. simpl.
      change (1024 - 53) with 971. by apply Z.leb_le in He' as ->.
    + unfold scaled. rewrite Hq, <- Z.mul_assoc, <- Z.pow_add_r by lia.
      f_equal. f_equal. lia.
    + unfold bounded, canonical_mantissa. rewrite Hcan, Z.eqb_refl. simpl.
      by apply Z.leb_le.
Qed.

Lemma digits2_le (q : positive) (n : Z) : Z.pos q < 2 ^ n → D q ≤ n.
Proof.
  intros Hq. pose proof (digits2_bounds q) as [Hlo _].
  destruct (Z_le_gt_dec (D q) n) as [|Hgt]; [done|exfalso].
  assert (2 ^ n ≤ 2 ^ (D q - 1)); [|lia].
  destruct (Z_lt_le_dec n 0) as [Hneg|Hnn].
  - rewrite Z.pow_neg_r in Hq by done. lia.
  - apply Z.pow_le_mono_r; lia.
Qed.

(** Converting a small positive integer is exact. *)
Lemma float64_of_int_exact (k : Z) :
  0 < k < 2 ^ 53 →
  ∃ m e, float64_of_int k = B m e ∧ scaled m e = k * 2 ^ 1074 ∧
         bounded 53 1024 m e = true.
Proof.
  intros [Hpos Hlt]. destruct k as [|M|M]; [lia| |lia].
  pose proof (digits2_le M 53 Hlt) as HD.
  assert (Hfexp : ∀ z, fexp 53 1024 z = Z.max (z - 53) (-1074)) by done.
  destruct (binary_round_exact M 0) as (m' & Hr & Hv & Hb).
  - lia.
  - rewrite Hfexp. lia.
  - rewrite Hfexp. lia.
  - exists m', (fexp 53 1024 (D M + 0)). split; [exact Hr|]. split; [|exact Hb].
    rewrite Hv. unfold scaled. f_equal.
Qed.

Lemma float64_7 : float64_of_int 7 = B 7881299347898368 (-50).
Proof. reflexivity. Qed.

(** Subtracting 7.0 from a float between 7 and 64 is exact. *)
Lemma float64_sub_7_exact (m : positive) (e : Z) :
  bounded 53 1024 m e = true →
  7 * 2 ^ 1074 < scaled m e ≤ 64 * 2 ^ 1074 →
  ∃ m' e', float64_sub (B m e) (float64_of_int 7) = B m' e' ∧
           scaled m' e' = scaled m e - 7 * 2 ^ 1074 ∧
           bounded 53 1024 m' e' = true.
Proof.
  intros Hb [Hlo Hhi]. pose proof Hb as (He & HD & HD')%bounded_spec.
  pose proof (digits2_bounds m) as Hm.
  assert (Hfexp : ∀ z, fexp 53 1024 z = Z.max (z - 53) (-1074)) by done.
  assert (HP : 0 < 2 ^ 1024) by done.
  assert (H1074 : 2 ^ 1074 = 2 ^ 50 * 2 ^ 1024) by (by rewrite <- Z.pow_add_r).
  assert (Hm53 : Z.pos m < 2 ^ 53).
  { eapply Z.lt_le_trans; [apply Hm|]. apply Z.pow_le_mono_r; lia. }
  assert (Hge : -50 ≤ e).
  { destruct (Z_le_gt_dec (-50) e) as [|Hgt]; [done|exfalso].
    assert (2 ^ (e + 1074) ≤ 2 ^ 1023) by (apply Z.pow_le_mono_r; lia).
    assert (scaled m e < 2 ^ 53 * 2 ^ 1023).
    { unfold scaled. apply Z.le_lt_trans with (Z.pos m * 2 ^ 1023).
      - apply Z.mul_le_mono_nonneg_l; lia.
      - apply Z.mul_lt_mono_pos_r; [done|lia]. }
    assert (2 ^ 53 * 2 ^ 1023 = 4 * 2 ^ 1074) by (by rewrite <- Z.pow_add_r).
    set (P := 2 ^ 1074) in *. assert (0 < P) by done. lia. }
  assert (Hle : e ≤ -46).
  { destruct (Z_le_gt_dec e (-46)) as [|Hgt]; [done|exfalso].
    rewrite HD' in Hm by lia.
    assert (2 ^ 1029 ≤ 2 ^ (e + 1074)) by (apply Z.pow_le_mono_r; lia).
    assert (2 ^ (53 - 1) * 2 ^ 1029 ≤ scaled m e).
    { unfold scaled. apply Z.mul_le_mono_nonneg; lia. }
    assert (2 ^ (53 - 1) * 2 ^ 1029 = 128 * 2 ^ 1074) by (by rewrite <- Z.pow_add_r).
    set (P := 2 ^ 1074) in *. assert (0 < P) by done. lia. }
  destruct (shl_align_spec m e (-50) Hge) as (ma & Hal & Hma).
  replace (e - -50) with (e + 50) in Hma by lia.
  assert (Hsc : scaled m e = Z.pos ma * 2 ^ 1024).
  { unfold scaled. rewrite Hma, <- Z.mul_assoc, <- Z.pow_add_r by lia.
    f_equal. f_equal. lia. }
  rewrite float64_7. unfold float64_sub, SFsub.
  rewrite (Z.min_r e (-50)) by lia. rewrite Hal.
  change (fst (shl_align 7881299347898368 (-50) (-50))) with 7881299347898368%positive.
  cbn [cond_Zopp fst].
  assert (H7 : Z.pos 7881299347898368 = 7 * 2 ^ 50) by done.
  destruct (Z.pos ma - Z.pos 7881299347898368) as [|M|M] eqn:HM.
  - exfalso. rewrite Hsc, H1074 in Hlo. nia.
  - cbn [binary_normalize].
    (* the difference is a multiple of [2 ^ (e + 50)] with a 53-bit quotient *)
    remember (Z.pos m - 7 * 2 ^ (- e)) as q0 eqn:Hq0.
    assert (Hsplit : 2 ^ 50 = 2 ^ (- e) * 2 ^ (e + 50)).
    { rewrite <- Z.pow_add_r by lia. f_equal. lia. }
    assert (HMq : Z.pos M = q0 * 2 ^ (e + 50)).
    { rewrite Hq0. rewrite Z.mul_sub_distr_r, <- Hma, <- Z.mul_assoc, <- Hsplit. lia. }
    assert (Hpe : 0 < 2 ^ (e + 50)) by (apply Z.pow_pos_nonneg; lia).
    assert (Hpn : 0 < 2 ^ (- e)) by (apply Z.pow_pos_nonneg; lia).
    assert (Hq : 0 < q0 < 2 ^ 53) by (split; [nia|lia]).
    destruct q0 as [|q|q]; [lia| |lia].
    assert (HDq : D q ≤ 53) by (apply digits2_le; lia).
    assert (HDM : D M = D q + (e + 50)) by (apply digits2_mul_pow2; [lia|done]).
    destruct (binary_round_exact M (-50)) as (m' & Hr & Hv & Hb').
    + lia.
    + rewrite Hfexp. lia.
    + rewrite Hfexp. intros Hshift.
      replace ((D M + -50 - 53) `max` (-1074) - -50) with (D M - 53) by lia.
      exists (Z.pos q * 2 ^ (e + 50 - (D M - 53))).
      rewrite HMq, <- Z.mul_assoc, <- Z.pow_add_r by lia.
      f_equal. f_equal. lia.
    + exists m', (fexp 53 1024 (D M + -50)). split; [exact Hr|]. split; [|exact Hb'].
      rewrite Hv, Hsc. unfold scaled.
      change (-50 + 1074) with 1024. rewrite H1074. lia.
  - exfalso. rewrite Hsc, H1074 in Hlo. nia.
Qed.

(** [math_Ceil] of a float of value in [(c - 1, c]] is the float [c]. *)
Lemma math_Ceil_spec (m : positive) (e c : Z) :
  bounded 53 1024 m e = true → 1 ≤ c < 2 ^ 52 →
  (c - 1) * 2 ^ 1074 < scaled m e ≤ c * 2 ^ 1074 →
  math_Ceil (B m e) = float64_of_int c.
Proof.
  intros (He & HD & HD')%bounded_spec Hc [Hlo Hhi].
  pose proof (digits2_bounds m) as Hm.
  assert (Hneg : e < 0).
  { destruct (Z_lt_le_dec e 0) as [|Hge]; [done|exfalso].
    rewrite HD' in Hm by lia.
    assert (2 ^ 1074 ≤ 2 ^ (e + 1074)) by (apply Z.pow_le_mono_r; lia).
    assert (2 ^ (53 - 1) * 2 ^ 1074 ≤ scaled m e).
    { unfold scaled. apply Z.mul_le_mono_nonneg; lia. }
    set (P := 2 ^ 1074) in *. assert (0 < P) by done.
    change (2 ^ (53 - 1)) with (2 ^ 52) in *. nia. }
  unfold math_Ceil. destruct (Z.leb_spec 0 e) as [|_]; [lia|].
  cbn [cond_Zopp].
  set (P := 2 ^ (- e)). set (R := 2 ^ (e + 1074)).
  assert (HP : 0 < P) by (apply Z.pow_pos_nonneg; lia).
  assert (HR : 0 < R) by (apply Z.pow_pos_nonneg; lia).
  assert (HPR : 2 ^ 1074 = P * R).
  { unfold P, R. rewrite <- Z.pow_add_r by lia. f_equal. lia. }
  unfold scaled in Hlo, Hhi. fold R in Hlo, Hhi. rewrite HPR in Hlo, Hhi.
  assert (Hlo' : (c - 1) * P < Z.pos m) by nia.
  assert (Hhi' : Z.pos m ≤ c * P) by nia.
  assert (Hdiv : (- Z.pos m) `div` P = - c).
  { symmetry. apply Z.div_unique with (r := c * P - Z.pos m); lia. }
  rewrite Hdiv, Z.opp_involutive.
  destruct (Z.eqb_spec c 0); [lia|done].
Qed.

Section ScaleFactor.
Variable math_Log2 : float64 → float64.
Variable int_overflow : float64 → Z.

Local Abbreviation scaleFactor := (AE.scaleFactor math_Log2 int_overflow).

(** [math_Log2] finds the binary logarithm of [float64(n)] between the two
    integers that enclose the logarithm of [n]: above [⌈log₂ n⌉ - 1] and
    not above [⌈log₂ n⌉]. *)
Definition Log2_between (n : Z) : bool :=
  let k := Z.log2_up n - 1 in
  let y := math_Log2 (float64_of_int n) in
  valid_binary 53 1024 y && SFltb (float64_of_int k) y
  && SFleb y (float64_of_int (k + 1)).

Lemma add_1_int (c : Z) :
  1 ≤ c ≤ 56 →
  int_of_float64 int_overflow
    (float64_add (float64_of_int c) (float64_of_int 1)) = c + 1.
Proof.
  intros Hc.
  assert (∃ n : nat, c = Z.of_nat n + 1 ∧ (n < 56)%nat) as (n & -> & Hn).
  { exists (Z.to_nat (c - 1)). lia. }
  do 56 (destruct n as [|n]; [vm_compute; reflexivity|]). lia.
Qed.

Lemma between_scaled (y : float64) (k : Z) :
  0 < k → k + 1 < 2 ^ 53 →
  valid_binary 53 1024 y = true →
  SFltb (float64_of_int k) y = true →
  SFleb y (float64_of_int (k + 1)) = true →
  ∃ m e, y = B m e ∧ bounded 53 1024 m e = true ∧
         k * 2 ^ 1074 < scaled m e ≤ (k + 1) * 2 ^ 1074.
Proof.
  intros Hk Hk1 Hv Hlt Hle.
  destruct (float64_of_int_exact k) as (m1 & e1 & E1 & V1 & B1); [lia|].
  destruct (float64_of_int_exact (k + 1)) as (m2 & e2 & E2 & V2 & B2); [lia|].
  rewrite E1 in Hlt. rewrite E2 in Hle. unfold SFltb in Hlt. unfold SFleb in Hle.
  destruct y as [s|s| |[] m e]; try discriminate.
  - by destruct s.
  - cbn [valid_binary] in Hv.
    rewrite SFcompare_scaled in Hlt, Hle by done.
    exists m, e. split; [done|]. split; [done|]. rewrite <- V1, <- V2.
    destruct (Z.compare_spec (scaled m1 e1) (scaled m e)); try discriminate.
    destruct (Z.compare_spec (scaled m e) (scaled m2 e2)); try discriminate; lia.
Qed.

(** The float part of [scaleFactor] on a logarithm between [k] and [k + 1]. *)
Lemma ceil_of_difference (y : float64) (k : Z) :
  7 ≤ k ≤ 62 →
  valid_binary 53 1024 y = true →
  SFltb (float64_of_int k) y = true →
  SFleb y (float64_of_int (k + 1)) = true →
  int_of_float64 int_overflow
    (float64_add (math_Ceil (float64_sub y (float64_of_int 7)))
       (float64_of_int 1)) = k - 7 + 1 + 1.
Proof.
  intros Hk Hv Hlt Hle.
  destruct (between_scaled y k) as (m & e & -> & Hb & Hlo & Hhi); try done; [lia..|].
  assert (HP : 0 < 2 ^ 1074) by done.
  destruct (float64_sub_7_exact m e Hb) as (m' & e' & -> & Hval & Hb').
  { set (P := 2 ^ 1074) in *. lia. }
  rewrite (math_Ceil_spec m' e' (k - 6) Hb').
  - rewrite add_1_int by lia. lia.
  - lia.
  - rewrite Hval. set (P := 2 ^ 1074) in *. lia.
Qed.

(** [float64] keeps 53 bits: [2 ^ 53 + 1] is converted to [2 ^ 53]. *)
Lemma scaleFactor_53_bits : scaleFactor (2 ^ 53 + 1) = scaleFactor (2 ^ 53).
Proof.
  unfold AE.scaleFactor.
  change (2 ^ 53 + 1 <=? scaleThreshold) with false.
  change (2 ^ 53 <=? scaleThreshold) with false.
  assert (float64_of_int (2 ^ 53 + 1) = float64_of_int (2 ^ 53)) as ->
    by (vm_compute; reflexivity).
  reflexivity.
Qed.

Section Exact.
Hypothesis Log2_exact :
  ∀ k, 0 ≤ k ≤ 62 → math_Log2 (float64_of_int (2 ^ k)) = float64_of_int k.

Lemma scaleFactor_small (n : Z) : n ≤ 128 → scaleFactor n = 1.
Proof.
  intros Hn. unfold AE.scaleFactor, scaleThreshold.
  by destruct (Z.leb_spec n 128); [|lia].
Qed.

Lemma log2_up_range (n : Z) : 128 < n ≤ int_max → 8 ≤ Z.log2_up n ≤ 63.
Proof.
  intros [Hlo Hhi]. split.
  - change 8 with (Z.log2_up 129). apply Z.log2_up_le_mono. lia.
  - change 63 with (Z.log2_up (2 ^ 63)). apply Z.log2_up_le_mono.
    unfold int_max in Hhi. lia.
Qed.

Lemma scaleFactor_between (n : Z) :
  128 < n ≤ int_max → Log2_between n = true →
  scaleFactor n = Z.log2_up n - Z.log2_up 128 + 1.
Proof.
  intros Hn [[Hv Hlt]%andb_true_iff Hle]%andb_true_iff.
  pose proof (log2_up_range n Hn) as Hk.
  unfold AE.scaleFactor, scaleThreshold.
  destruct (Z.leb_spec n 128); [lia|].
  change 128 with (2 ^ 7) at 1. rewrite (Log2_exact 7) by lia.
  rewrite (ceil_of_difference _ (Z.log2_up n - 1)); try done; [|lia].
  change (Z.log2_up 128) with 7. lia.
Qed.

Lemma Log2_between_pow2 (k : Z) : 8 ≤ k ≤ 62 → Log2_between (2 ^ k) = true.
Proof.
  intros Hk. unfold Log2_between.
  rewrite Z.log2_up_pow2, Log2_exact by lia.
  replace (k - 1 + 1) with k by lia.
  assert (k < 2 ^ 53) by (change (2 ^ 53) with 9007199254740992; lia).
  destruct (float64_of_int_exact k) as (m & e & -> & V & Hb); [lia|].
  destruct (float64_of_int_exact (k - 1)) as (m1 & e1 & -> & V1 & Hb1); [lia|].
  cbn [valid_binary]. rewrite Hb. unfold SFltb, SFleb.
  rewrite !SFcompare_scaled by done.
  rewrite Z.compare_refl, V, V1.
  assert (HP : 0 < 2 ^ 1074) by done. set (P := 2 ^ 1074) in *.
  by destruct (Z.compare_spec ((k - 1) * P) (k * P)); [lia| |lia].
Qed.

Lemma scaleFactor_pow2 (k : Z) : 7 ≤ k ≤ 62 → scaleFactor (2 ^ k) = k - 7 + 1.
Proof.
  intros Hk. destruct (decide (k = 7)) as [->|Hne].
  - by apply scaleFactor_small.
  - assert (2 ^ 8 ≤ 2 ^ k ≤ 2 ^ 62) by (split; apply Z.pow_le_mono_r; lia).
    rewrite scaleFactor_between.
    + rewrite Z.log2_up_pow2 by lia. change (Z.log2_up 128) with 7. lia.
    + unfold int_max. change (2 ^ 8) with 256 in *.
      assert (2 ^ 62 < 2 ^ 63 - 1) by done. lia.
    + apply Log2_between_pow2. lia.
Qed.


End Exact.
End ScaleFactor.

(** A stand-in for [math.Log2] that meets the hypothesis: exact on powers of
    two, and half way between the neighbouring integers everywhere else. *)
Definition coarseLog2 (x : float64) : float64 :=
  match x with
  | S754_finite false m e =>
      let k := Z.log2 (Z.pos m) + e in
      if Z.pos m =? 2 ^ Z.log2 (Z.pos m) then float64_of_int k
      else float64_add (float64_of_int k) (B 4503599627370496 (-53))
  | _ => S754_nan
  end.

Lemma coarseLog2_exact (k : Z) :
  0 ≤ k ≤ 62 → coarseLog2 (float64_of_int (2 ^ k)) = float64_of_int k.
Proof.
  intros Hk.
  assert (∃ n : nat, k = Z.of_nat n ∧ (n < 63)%nat) as (n & -> & Hn).
  { exists (Z.to_nat k). lia. }
  do 63 (destruct n as [|n]; [vm_compute; reflexivity|]). lia.
Qed.



End FloatFacts.

End AEFacts.

(** ** The proxy configuration state *)

Module ProxycfgFacts.
Import Proxycfg.

Local Open Scope string_scope.

(** *** [state.Changed] *)

Section Changed.

Context {CfgMap Rest : Type}.
Variable zeroRest : Rest.
Variable copystructure_Copy :
  State.ConnectProxyConfig CfgMap Rest →
  string + option (State.ConnectProxyConfig CfgMap Rest).
Variable reflect_DeepEqual :
  State.ConnectProxyConfig CfgMap Rest →
  State.ConnectProxyConfig CfgMap Rest → bool.
Variable NamespaceOrDefault : string → string.
Variable UpstreamDestTypePreparedQuery : string.

Local Abbreviation Changed :=
  (State.Changed CfgMap Rest zeroRest copystructure_Copy reflect_DeepEqual
     NamespaceOrDefault UpstreamDestTypePreparedQuery).

(** C10.  For every proxy state and every token, [Changed] with a nil
    registration answers [true], whatever service instance is stored. *)
Theorem Changed_nil (i : State.serviceInstance CfgMap Rest) (tok : string) :
  (Changed i None tok).1 = true.
Proof. reflexivity. Qed.

(** With a registration the answer compares the six fields. *)
Lemma Changed_same (i : State.serviceInstance CfgMap Rest)
    (n : State.NodeService CfgMap Rest) (tok : string) :
  (Changed i (Some n) tok).1 = false →
  State.NS_Kind _ _ n = State.kind _ _ i
  ∧ State.proxyID _ _ i = State.CompoundServiceID _ _ n
  ∧ State.address _ _ i = State.NS_Address _ _ n
  ∧ State.port _ _ i = State.NS_Port _ _ n
  ∧ State.token _ _ i = tok.
Proof.
  unfold State.Changed.
  destruct (State.copyProxyConfig _ _ _ _ _ _ (Some n)) as [cfg err]. simpl.
  rewrite !orb_false_iff, !negb_false_iff.
  intros (((((Hk & Hid) & Ha) & Hp) & _) & Ht).
  apply bool_decide_eq_true in Hk, Hid.
  apply String.eqb_eq in Ha, Ht. apply Z.eqb_eq in Hp. done.
Qed.

End Changed.

(** A sidecar registration compared with itself, with a nil registration and
    with a registration on another port; the proxy configurations here have
    no upstreams and are all deeply equal. *)
Example Changed_examples :
  let cfg := State.mkProxyCfg () () [] () in
  let i := State.mkServiceInstance () () ServiceKindConnectProxy "web"
             ("web-sidecar", "default") "10.0.0.5" 21000 cfg "token" in
  let ns port := State.mkNodeService () () ServiceKindConnectProxy
                   "web-sidecar" "web" "10.0.0.5" port cfg "default" in
  let Changed := State.Changed () () () (λ c, inr (Some c)) (λ _ _, true)
                   (λ ns, ns) "prepared_query" in
  (Changed i (Some (ns 21000%Z)) "token").1 = false
  ∧ (Changed i None "token").1 = true
  ∧ (Changed i (Some (ns 21001%Z)) "token").1 = true
  ∧ (Changed i (Some (ns 21000%Z)) "other").1 = true.
Proof. by vm_compute. Qed.

(** *** [hostnameEndpoints] *)

Section HostnameEndpoints.

Context {CheckServiceNode : Type}.
Variable Node_Datacenter : CheckServiceNode → string.
Variable CompoundServiceName_String : CheckServiceNode → string.
Variable BestAddress : CheckServiceNode → bool → string * Z.
Variable ParseIP : string → bool.

Local Abbreviation bestAddr := (bestAddr CheckServiceNode Node_Datacenter BestAddress).
Local Abbreviation classify :=
  (classify CheckServiceNode Node_Datacenter BestAddress ParseIP).
Local Abbreviation hostnameEndpoints :=
  (hostnameEndpoints CheckServiceNode Node_Datacenter
     CompoundServiceName_String BestAddress ParseIP).

(** The best address of the instance is an IP address. *)
Definition isIP (localDC : string) (n : CheckServiceNode) : bool :=
  ParseIP (bestAddr localDC n).

Lemma classify_spec localDC (nodes : list CheckServiceNode) hasIP hasHostname resp :
  classify localDC nodes (hasIP, hasHostname, resp) =
  (hasIP || existsb (isIP localDC) nodes,
   hasHostname || existsb (λ n, negb (isIP localDC n)) nodes,
   (resp ++ filter (λ n, isIP localDC n = false) nodes)%list).
Proof.
  revert hasIP hasHostname resp.
  induction nodes as [|n nodes IH]; intros hasIP hasHostname resp.
  - simpl. by rewrite !orb_false_r, app_nil_r.
  - cbn [Proxycfg.classify existsb]. rewrite filter_cons.
    change (ParseIP (bestAddr localDC n)) with (isIP localDC n).
    destruct (isIP localDC n) eqn:Hip; rewrite IH.
    + rewrite decide_False by done. by rewrite orb_true_r.
    + rewrite decide_True by done. simpl.
      by rewrite orb_true_r, <- app_assoc.
Qed.

(** C6.  [hostnameEndpoints] returns, in their order, exactly the
    instances whose best address (WAN when the node is in another
    datacenter than the local one) is not an IP address, and it logs a
    warning, one, exactly when the input has an instance with an IP address
    and one without.  For two endpoints with the best addresses [10.0.0.1]
    and [host.example], in either order, the result is the second alone and
    the warning is logged. *)
Theorem hostnameEndpoints_hostnames_only localDC (nodes : list CheckServiceNode) :
  (hostnameEndpoints localDC nodes).1
    = filter (λ n, isIP localDC n = false) nodes
  ∧ ((hostnameEndpoints localDC nodes).2 ≠ [] ↔
     (∃ n, n ∈ nodes ∧ isIP localDC n = true)
     ∧ (∃ n, n ∈ nodes ∧ isIP localDC n = false))
  ∧ (length (hostnameEndpoints localDC nodes).2 ≤ 1)%nat
  ∧ (∀ n1 n2,
       bestAddr localDC n1 = "10.0.0.1" →
       bestAddr localDC n2 = "host.example" →
       ParseIP "10.0.0.1" = true →
       ParseIP "host.example" = false →
       (hostnameEndpoints localDC [n1; n2]).1 = [n2]
       ∧ (hostnameEndpoints localDC [n2; n1]).1 = [n2]
       ∧ length (hostnameEndpoints localDC [n1; n2]).2 = 1%nat
       ∧ length (hostnameEndpoints localDC [n2; n1]).2 = 1%nat).
Proof.
  assert (Hgen : ∀ l : list CheckServiceNode,
    hostnameEndpoints localDC l =
    (filter (λ n, isIP localDC n = false) l,
     if existsb (λ n, negb (isIP localDC n)) l && existsb (isIP localDC) l
     then match l with
          | n0 :: _ =>
              [("service contains instances with mix of hostnames and IP addresses; only hostnames will be passed to Envoy",
                Node_Datacenter n0, CompoundServiceName_String n0)]
          | [] => []
          end
     else [])).
  { intros l. unfold Proxycfg.hostnameEndpoints. by rewrite classify_spec. }
  split; [by rewrite Hgen|]. split; [|split].
  - rewrite Hgen. simpl. split.
    + intros Hw.
      destruct (existsb (λ n, negb (isIP localDC n)) nodes) eqn:Hh; [|done].
      destruct (existsb (isIP localDC) nodes) eqn:Hi; [|done].
      apply existsb_exists in Hh as (n & Hn & Hh).
      apply existsb_exists in Hi as (n' & Hn' & Hi).
      apply list_elem_of_In in Hn, Hn'. apply negb_true_iff in Hh.
      split; eauto.
    + intros [(n' & Hn' & Hi) (n & Hn & Hh)].
      assert (existsb (λ n, negb (isIP localDC n)) nodes = true) as ->.
      { apply existsb_exists. exists n. rewrite <- list_elem_of_In.
        by rewrite Hh. }
      assert (existsb (isIP localDC) nodes = true) as ->.
      { apply existsb_exists. exists n'. by rewrite <- list_elem_of_In. }
      destruct nodes; [by apply elem_of_nil in Hn|done].
  - rewrite Hgen. simpl.
    destruct (_ && _); [destruct nodes|]; simpl; lia.
  - intros n1 n2 H1 H2 Hip Hhost.
    assert (isIP localDC n1 = true) as Hi1 by (unfold isIP; by rewrite H1).
    assert (isIP localDC n2 = false) as Hi2 by (unfold isIP; by rewrite H2).
    rewrite !Hgen. simpl. rewrite !filter_cons, filter_nil, Hi1, Hi2. simpl.
    done.
Qed.

End HostnameEndpoints.

(** *** The terminating gateway and its linked services *)

Section TerminatingGateway.
Import TerminatingGateway.

Variable Notify : World → Provider → string → error.
Variable SN_String : ServiceName → string.
Context {Data : Type}.
Implicit Types tg : configSnapshotTerminatingGateway Data.
Implicit Types m : gmap ServiceName nat.

Local Abbreviation watchIfMissing := (watchIfMissing Notify SN_String).
Local Abbreviation watchGatewayService :=
  (watchGatewayService Notify SN_String Data).
Local Abbreviation watchGatewayServices :=
  (watchGatewayServices Notify SN_String Data).
Local Abbreviation handleGatewayServices :=
  (handleGatewayServices Notify SN_String Data).

(** The five watches kept per linked service, with the map of cancel
    functions, the provider and the prefix of the correlation id of each. *)
Inductive watchKind :=
| ExternalService | ServiceIntentions | ServiceLeaf | ServiceConfig
| ServiceResolver.

Definition watched (k : watchKind) tg : gmap ServiceName nat :=
  match k with
  | ExternalService => WatchedServices Data tg
  | ServiceIntentions => WatchedIntentions Data tg
  | ServiceLeaf => WatchedLeaves Data tg
  | ServiceConfig => WatchedConfigs Data tg
  | ServiceResolver => WatchedResolvers Data tg
  end.

Definition provider (k : watchKind) : Provider :=
  match k with
  | ExternalService => Health
  | ServiceIntentions => Cache IntentionMatchName
  | ServiceLeaf => Cache ConnectCALeafName
  | ServiceConfig => Cache ResolvedServiceConfigName
  | ServiceResolver => Cache ConfigEntriesName
  end.

Definition idPrefix (k : watchKind) : string :=
  match k with
  | ExternalService => "external-service:"
  | ServiceIntentions => "service-intentions:"
  | ServiceLeaf => "service-leaf:"
  | ServiceConfig => "service-config:"
  | ServiceResolver => "service-resolver:"
  end.

(** The state mirrored from the results of a watch has no entry for [sn]. *)
Definition purged (k : watchKind) tg (sn : ServiceName) : Prop :=
  match k with
  | ExternalService => ServiceGroups Data tg !! sn = None
  | ServiceIntentions => Intentions Data tg !! sn = None
  | ServiceLeaf => ServiceLeaves Data tg !! sn = None
  | ServiceConfig => ServiceConfigs Data tg !! sn = None
  | ServiceResolver =>
      ServiceResolvers Data tg !! sn = None
      ∧ ServiceResolversSet Data tg !! sn = None
  end.

(** The subscription of kind [k] for [sn] under the context [h]. *)
Definition subFor (k : watchKind) (sn : ServiceName) (h : nat) : Sub :=
  mkSub (provider k) (idPrefix k ++ SN_String sn) h [].

(** One pass of the pattern over a watch map. *)
Definition opens (k : watchKind) (sn : ServiceName) m m' (new : list Sub)
    : Prop :=
  match m !! sn with
  | Some _ => m' = m
  | None => ∃ h, m' = <[sn := h]> m ∧ subFor k sn h ∈ new
  end.

(** Its effect over a set [S] of services. *)
Definition opened (k : watchKind) (S : gset ServiceName) m m'
    (new : list Sub) : Prop :=
  dom m' = dom m ∪ S
  ∧ (∀ sn h, m !! sn = Some h → m' !! sn = Some h)
  ∧ (∀ sn, sn ∈ S → m !! sn = None →
       ∃ h, m' !! sn = Some h ∧ subFor k sn h ∈ new).

Lemma opens_more k sn m m' (pre new post : list Sub) :
  opens k sn m m' new → opens k sn m m' (pre ++ new ++ post).
Proof.
  unfold opens. destruct (m !! sn); [done|].
  intros (h & -> & Hin). exists h. split; [done|].
  rewrite !elem_of_app. auto.
Qed.

Lemma opened_nil k m : opened k ∅ m m [].
Proof.
  split; [set_solver|]. split; [done|]. intros sn Hin. set_solver.
Qed.

Lemma opened_cons k sn (S : gset ServiceName) m m1 m2 (new1 new2 : list Sub) :
  opens k sn m m1 new1 → opened k S m1 m2 new2 →
  opened k ({[sn]} ∪ S) m m2 (new1 ++ new2).
Proof.
  unfold opens. intros H1 (Hdom & Hkeep & Hnew).
  destruct (m !! sn) as [h0|] eqn:Hsn.
  - subst m1. split; [|split].
    + rewrite Hdom. apply elem_of_dom_2 in Hsn. set_solver.
    + done.
    + intros x Hx Hnone.
      assert (x ∈ S) as HxS.
      { apply elem_of_union in Hx as [Hx|]; [|done].
        apply elem_of_singleton in Hx as ->. congruence. }
      destruct (Hnew x HxS Hnone) as (h & ? & ?). exists h.
      split; [done|]. apply elem_of_app. auto.
  - destruct H1 as (h & -> & Hin). split; [|split].
    + rewrite Hdom, dom_insert_L. set_solver.
    + intros x hx Hx. apply Hkeep. rewrite lookup_insert_ne; [done|].
      congruence.
    + intros x Hx Hnone. destruct (decide (x = sn)) as [->|Hne].
      * exists h. split; [apply Hkeep, lookup_insert_eq|].
        apply elem_of_app. auto.
      * assert (x ∈ S) as HxS by set_solver.
        destruct (Hnew x HxS) as (h' & ? & ?);
          [by rewrite lookup_insert_ne|].
        exists h'. split; [done|]. apply elem_of_app. auto.
Qed.

Lemma watchIfMissing_opens k m sn (msg : string) (w : World) m' (w' : World) :
  watchIfMissing m sn (provider k) (idPrefix k) msg w = (None, m', w') →
  ∃ new, subs w' = (subs w ++ new)%list
         ∧ cancelled w' = cancelled w
         ∧ opens k sn m m' new.
Proof.
  unfold TerminatingGateway.watchIfMissing, opens, watch.
  destruct (m !! sn) as [h0|].
  - intros [= <- <-]. exists []. by rewrite app_nil_r.
  - destruct (Notify _ _ _) as [e|]; [done|]. intros [= <- <-]. simpl.
    eexists. split; [done|]. split; [done|].
    eexists. split; [done|]. apply list_elem_of_singleton. done.
Qed.

(** The loop over the delivered services leaves the mirrored state alone,
    but for the gateway services. *)
Definition mirrorsKept tg tg' : Prop :=
  Intentions Data tg' = Intentions Data tg
  ∧ ServiceLeaves Data tg' = ServiceLeaves Data tg
  ∧ ServiceConfigs Data tg' = ServiceConfigs Data tg
  ∧ ServiceResolvers Data tg' = ServiceResolvers Data tg
  ∧ ServiceResolversSet Data tg' = ServiceResolversSet Data tg
  ∧ ServiceGroups Data tg' = ServiceGroups Data tg
  ∧ HostnameServices Data tg' = HostnameServices Data tg.

Lemma watchGatewayService_opens (svc : GatewayService) tg (w : World) tg'
    (w' : World) :
  watchGatewayService svc tg w = (None, tg', w') →
  ∃ new, subs w' = (subs w ++ new)%list
         ∧ cancelled w' = cancelled w
         ∧ (∀ k, opens k (Service svc) (watched k tg) (watched k tg') new)
         ∧ mirrorsKept tg tg'.
Proof.
  unfold TerminatingGateway.watchGatewayService.
  destruct (watchIfMissing (WatchedServices Data tg) _ _ _ _ w)
    as [[[e|] ws] w1] eqn:H1; [done|].
  destruct (watchIfMissing (WatchedIntentions Data tg) _ _ _ _ w1)
    as [[[e|] wi] w2] eqn:H2; [done|].
  destruct (watchIfMissing (WatchedLeaves Data tg) _ _ _ _ w2)
    as [[[e|] wl] w3] eqn:H3; [done|].
  destruct (watchIfMissing (WatchedConfigs Data tg) _ _ _ _ w3)
    as [[[e|] wc] w4] eqn:H4; [done|].
  destruct (watchIfMissing (WatchedResolvers Data tg) _ _ _ _ w4)
    as [[[e|] wr] w5] eqn:H5; [done|].
  intros [= <- <-].
  apply (watchIfMissing_opens ExternalService) in H1
    as (n1 & Hs1 & Hc1 & Ho1).
  apply (watchIfMissing_opens ServiceIntentions) in H2
    as (n2 & Hs2 & Hc2 & Ho2).
  apply (watchIfMissing_opens ServiceLeaf) in H3 as (n3 & Hs3 & Hc3 & Ho3).
  apply (watchIfMissing_opens ServiceConfig) in H4 as (n4 & Hs4 & Hc4 & Ho4).
  apply (watchIfMissing_opens ServiceResolver) in H5
    as (n5 & Hs5 & Hc5 & Ho5).
  exists (n1 ++ n2 ++ n3 ++ n4 ++ n5)%list.
  split; [rewrite Hs5, Hs4, Hs3, Hs2, Hs1; by rewrite <- !app_assoc|].
  split; [congruence|]. split; [|done].
  intros []; simpl.
  - apply (opens_more _ _ _ _ [] n1 (n2 ++ n3 ++ n4 ++ n5)%list Ho1).
  - apply (opens_more _ _ _ _ n1 n2 (n3 ++ n4 ++ n5)%list Ho2).
  - replace (n1 ++ n2 ++ n3 ++ n4 ++ n5)%list
      with ((n1 ++ n2) ++ n3 ++ n4 ++ n5)%list by by rewrite <- !app_assoc.
    by apply opens_more.
  - replace (n1 ++ n2 ++ n3 ++ n4 ++ n5)%list
      with ((n1 ++ n2 ++ n3) ++ n4 ++ n5)%list by by rewrite <- !app_assoc.
    by apply opens_more.
  - replace (n1 ++ n2 ++ n3 ++ n4 ++ n5)%list
      with ((n1 ++ n2 ++ n3 ++ n4) ++ n5 ++ [])%list
      by by rewrite app_nil_r, <- !app_assoc.
    by apply opens_more.
Qed.

Lemma mirrorsKept_trans tg1 tg2 tg3 :
  mirrorsKept tg1 tg2 → mirrorsKept tg2 tg3 → mirrorsKept tg1 tg3.
Proof.
  unfold mirrorsKept.
  intros (-> & -> & -> & -> & -> & -> & ->) (-> & -> & -> & -> & -> & -> & ->).
  done.
Qed.

(** The loop over the delivered services, when it ends without error. *)
Lemma watchGatewayServices_opened (services : list GatewayService)
    (svcMap : gset ServiceName) tg (w : World) (svcMap' : gset ServiceName)
    tg' (w' : World) :
  watchGatewayServices services svcMap tg w = (None, svcMap', tg', w') →
  let delivered : gset ServiceName := list_to_set (Service <$> services) in
  svcMap' = delivered ∪ svcMap
  ∧ ∃ new, subs w' = (subs w ++ new)%list
           ∧ cancelled w' = cancelled w
           ∧ (∀ k, opened k delivered (watched k tg) (watched k tg') new)
           ∧ mirrorsKept tg tg'.
Proof.
  revert svcMap tg w.
  induction services as [|svc rest IH]; intros svcMap tg w; simpl.
  - intros [= <- <- <-]. split; [set_solver|].
    exists []. rewrite app_nil_r. split; [done|]. split; [done|].
    split; [intros k; apply opened_nil|done].
  - destruct (watchGatewayService svc tg w) as [[[e|] tg1] w1] eqn:H1;
      [done|].
    intros Hrest. apply IH in Hrest as (-> & new2 & Hs2 & Hc2 & Ho2 & Hm2).
    apply watchGatewayService_opens in H1 as (new1 & Hs1 & Hc1 & Ho1 & Hm1).
    split; [set_solver|].
    exists (new1 ++ new2)%list. rewrite Hs2, Hs1, <- app_assoc.
    split; [done|]. split; [congruence|].
    split; [|by eapply mirrorsKept_trans].
    intros k. by eapply opened_cons.
Qed.

(** The clean-up loops. *)
Local Arguments keepListed : simpl never.
Local Arguments dropCancelled : simpl never.
Local Arguments unlisted : simpl never.

Lemma lookup_keepListed {V : Type} (S : gset ServiceName)
    (m : gmap ServiceName V) (sn : ServiceName) :
  keepListed S m !! sn = if decide (sn ∈ S) then m !! sn else None.
Proof.
  unfold keepListed. destruct (decide (sn ∈ S)) as [Hin|Hout].
  - destruct (m !! sn) as [v|] eqn:Hm.
    + by apply map_lookup_filter_Some.
    + apply map_lookup_filter_None. by left.
  - apply map_lookup_filter_None. right. intros v _. done.
Qed.

Lemma dom_keepListed {V : Type} (S : gset ServiceName)
    (m : gmap ServiceName V) :
  dom (keepListed S m) = dom m ∩ S.
Proof.
  apply set_eq. intros sn.
  rewrite elem_of_intersection, !elem_of_dom, lookup_keepListed.
  destruct (decide (sn ∈ S)); [tauto|].
  split; [by intros [? ?]|tauto].
Qed.

Lemma lookup_unlisted (S : gset ServiceName) m (sn : ServiceName) (h : nat) :
  unlisted S m !! sn = Some h ↔ m !! sn = Some h ∧ sn ∉ S.
Proof. unfold unlisted. by rewrite map_lookup_filter_Some. Qed.

Lemma lookup_dropCancelled {V : Type} (gone : gmap ServiceName nat)
    (mirror : gmap ServiceName V) (sn : ServiceName) :
  sn ∈ dom gone → dropCancelled gone mirror !! sn = None.
Proof.
  intros Hin. unfold dropCancelled. apply map_lookup_filter_None.
  right. intros v _. simpl. tauto.
Qed.

Lemma cancelGone_spec (msg : string) (gone : gmap ServiceName nat)
    (w : World) :
  subs (cancelGone msg gone w) = subs w
  ∧ cancelled (cancelGone msg gone w)
    = (cancelled w ++ (map_to_list gone).*2)%list.
Proof.
  unfold cancelGone. simpl.
  assert (H : ∀ l : list (ServiceName * nat),
    subs (foldr (λ _ w, logMsg msg w) w l) = subs w
    ∧ cancelled (foldr (λ _ w, logMsg msg w) w l) = cancelled w).
  { induction l as [|x l IH]; [done|]. simpl. done. }
  destruct (H (map_to_list gone)) as [-> ->]. done.
Qed.

Lemma cancelGone_subs (msg : string) (gone : gmap ServiceName nat)
    (w : World) :
  subs (cancelGone msg gone w) = subs w.
Proof. apply cancelGone_spec. Qed.

Lemma cancelGone_cancelled (msg : string) (gone : gmap ServiceName nat)
    (w : World) :
  cancelled (cancelGone msg gone w)
  = (cancelled w ++ (map_to_list gone).*2)%list.
Proof. apply cancelGone_spec. Qed.

Lemma cleanUp_spec (S : gset ServiceName) tg (w : World) :
  let r := cleanUp Data S tg w in
  subs r.2 = subs w
  ∧ (∀ h, h ∈ cancelled w → h ∈ cancelled r.2)
  ∧ (∀ k, dom (watched k r.1) = dom (watched k tg) ∩ S)
  ∧ (∀ k sn, sn ∈ S → watched k r.1 !! sn = watched k tg !! sn)
  ∧ (∀ k sn h, sn ∉ S → watched k tg !! sn = Some h →
       h ∈ cancelled r.2 ∧ purged k r.1 sn)
  ∧ (∀ sn, sn ∉ S →
       GatewayServices Data r.1 !! sn = None
       ∧ HostnameServices Data r.1 !! sn = None).
Proof.
  intros r. subst r. unfold cleanUp. cbv zeta. cbn [fst snd].
  rewrite !cancelGone_subs, !cancelGone_cancelled.
  split; [done|].
  assert (Hgone : ∀ k sn h, sn ∉ S → watched k tg !! sn = Some h →
    h ∈ (map_to_list (unlisted S (watched k tg))).*2
    ∧ sn ∈ dom (unlisted S (watched k tg))).
  { intros k sn h Hout Hk.
    assert (unlisted S (watched k tg) !! sn = Some h) as Hu
      by by apply lookup_unlisted.
    split; [|by apply elem_of_dom_2 in Hu].
    apply list_elem_of_fmap. exists (sn, h). split; [done|].
    by apply elem_of_map_to_list. }
  split; [|split; [|split; [|split]]].
  - intros h Hh. rewrite !elem_of_app. auto 10.
  - intros []; simpl; apply dom_keepListed.
  - intros [] sn Hin; simpl; rewrite lookup_keepListed;
      by rewrite decide_True.
  - intros k sn h Hout Hk. destruct (Hgone k sn h Hout Hk) as [Hh Hd].
    split.
    + rewrite !elem_of_app. destruct k; simpl in Hh; auto 10.
    + destruct k; simpl in *; try split; by apply lookup_dropCancelled.
  - intros sn Hout. simpl. rewrite !lookup_keepListed.
    by rewrite !decide_False.
Qed.

(** C3.  After a [gateway-services] update that the terminating gateway
    handles without error, with [delivered] the services of the payload:
    the key set of each of the five [Watched*] maps is [delivered]; for a
    delivered service that a watch map did not have, the watch of that kind
    was subscribed during the update under the correlation id
    [<prefix><service>] and its cancel function is in the map, so a service
    new to all five maps gets the five subscriptions; for a service that is
    not delivered, every watch it had is cancelled and the state mirrored
    from that watch is purged (the service groups, the intentions, the
    leaf, the service config, the resolver with its set flag), and its
    entries in [GatewayServices] and [HostnameServices] are gone. *)
Theorem gateway_services_reconciles
    (otherCases : UpdateEvent → configSnapshotTerminatingGateway Data →
                  World → error * configSnapshotTerminatingGateway Data * World)
    (u : UpdateEvent) (services : list GatewayService) tg (w : World)
    tg' (w' : World) :
  Err u = None →
  CorrelationID u = "gateway-services" →
  Result u = PIndexedGatewayServices services →
  handleUpdate Notify SN_String Data otherCases u tg w = (None, tg', w') →
  let delivered : gset ServiceName := list_to_set (Service <$> services) in
  (∀ k, dom (watched k tg') = delivered)
  ∧ (∃ new, subs w' = (subs w ++ new)%list
            ∧ ∀ sn, sn ∈ delivered →
                ∀ k, watched k tg !! sn = None →
                     ∃ h, watched k tg' !! sn = Some h
                          ∧ subFor k sn h ∈ new)
  ∧ (∀ sn, sn ∉ delivered →
       (∀ k h, watched k tg !! sn = Some h →
               h ∈ cancelled w' ∧ purged k tg' sn)
       ∧ GatewayServices Data tg' !! sn = None
       ∧ HostnameServices Data tg' !! sn = None).
Proof.
  intros Herr Hid Hres. unfold handleUpdate. rewrite Herr, Hid, Hres.
  rewrite decide_True by done.
  unfold TerminatingGateway.handleGatewayServices.
  destruct (watchGatewayServices services ∅ tg w)
    as [[[[e|] svcMap] tg1] w1] eqn:Hloop; [done|].
  apply watchGatewayServices_opened in Hloop
    as (HS & new & Hsubs & Hcan & Hopened & Hkept).
  rewrite union_empty_r_L in HS. subst svcMap.
  pose proof (cleanUp_spec (list_to_set (Service <$> services)) tg1 w1)
    as (Hs2 & Hc2 & Hdom & Hlisted & Hgone & Hgw).
  destruct (cleanUp Data _ tg1 w1) as [tg2 w2]. simpl in *.
  intros [= <- <-].
  split; [|split].
  - intros k. rewrite Hdom. destruct (Hopened k) as (-> & _). set_solver.
  - exists new. split; [congruence|]. intros sn Hin k Hnone.
    destruct (Hopened k) as (_ & _ & Hnew).
    destruct (Hnew sn Hin Hnone) as (h & Hh & Hsub).
    exists h. split; [|done]. by rewrite Hlisted.
  - intros sn Hout. split; [|by apply Hgw].
    intros k h Hk. destruct (Hopened k) as (_ & Hkeep & _).
    apply (Hgone k sn h Hout). by apply Hkeep.
Qed.

End TerminatingGateway.

(** The scenario "Terminating gateway dynamic add/remove": [svcX] is linked
    and watched, with mirrored state, and the update delivers [svcY]. *)
Definition svcX : ServiceName := mkServiceName "svcX" "".
Definition svcY : ServiceName := mkServiceName "svcY" "".

Definition watchingX : TerminatingGateway.configSnapshotTerminatingGateway string :=
  TerminatingGateway.mkTG string
    {[svcX := 0%nat]} {[svcX := 1%nat]} {[svcX := "intentions"]}
    {[svcX := 2%nat]} {[svcX := "leaf"]}
    {[svcX := 3%nat]} {[svcX := "config"]}
    {[svcX := 4%nat]} {[svcX := "resolver"]} {[svcX := true]}
    {[svcX := "nodes"]}
    {[svcX := mkGatewayService svcX 0 "tcp" []]} ∅.

Definition deliverY : UpdateEvent :=
  mkUpdateEvent "gateway-services"
    (PIndexedGatewayServices [mkGatewayService svcY 0 "tcp" []]) None.

Lemma gateway_services_reconciles_witness :
  ∃ tg' w',
    TerminatingGateway.handleUpdate (λ _ _ _, None) Name string
      (λ _ tg w, (None, tg, w)) deliverY watchingX
      (mkWorld [] [] 5 []) = (None, tg', w')
    ∧ dom (TerminatingGateway.WatchedServices string tg') = {[svcY]}
    ∧ TerminatingGateway.ServiceGroups string tg' !! svcX = None
    ∧ (0%nat ∈ cancelled w').
Proof.
  assert (He : (TerminatingGateway.handleUpdate (λ _ _ _, None) Name string
      (λ _ tg w, (None, tg, w)) deliverY watchingX
      (mkWorld [] [] 5 [])).1.1 = None) by (vm_compute; reflexivity).
  destruct (TerminatingGateway.handleUpdate _ _ _ _ _ _ _)
    as [[e tg'] w'] eqn:Hrun.
  simpl in He. subst e. exists tg', w'. split; [reflexivity|].
  destruct (gateway_services_reconciles (λ _ _ _, None) Name
              (λ _ tg w, (None, tg, w)) deliverY
              [mkGatewayService svcY 0 "tcp" []] watchingX
              (mkWorld [] [] 5 []) tg' w')
    as (Hdom & _ & Hgone); [reflexivity|reflexivity|reflexivity|exact Hrun|].
  split.
  - etrans; [exact (Hdom ExternalService)|]. vm_compute. reflexivity.
  - destruct (Hgone svcX) as [Hx _].
    { rewrite elem_of_list_to_set. intros Hin.
      apply list_elem_of_singleton in Hin. discriminate Hin. }
    destruct (Hx ExternalService 0%nat) as [Hc Hp]; [vm_compute; reflexivity|].
    split; [exact Hp|exact Hc].
Defined.

(** *** The connect proxy and the upstreams inferred from intentions *)

Section ConnectProxyFacts.
Import ConnectProxy.

Variable kind : ServiceKind.
Variable sourceDatacenter : string.
Variable Notify : World → Provider → string → error.
Variable SN_String : ServiceName → string.
Variable wildcardSID_String : string.
Context {Data CfgMap : Type}.
Variable emptyCfgMap : CfgMap.
Variable parseReducedUpstreamConfig : CfgMap → error.
Implicit Types cp : configSnapshotConnectProxy Data CfgMap.
Implicit Types ig : gmap string nat.

Local Abbreviation watchDiscoveryChain :=
  (watchDiscoveryChain kind Notify Data CfgMap).
Local Abbreviation watchIntentionUpstream :=
  (watchIntentionUpstream kind Notify SN_String wildcardSID_String Data
     CfgMap emptyCfgMap parseReducedUpstreamConfig).
Local Abbreviation watchIntentionUpstreams :=
  (watchIntentionUpstreams kind Notify SN_String wildcardSID_String Data
     CfgMap emptyCfgMap parseReducedUpstreamConfig).
Local Abbreviation pinnedElsewhere := (pinnedElsewhere sourceDatacenter CfgMap).
Local Abbreviation stays := (stays sourceDatacenter CfgMap).
Local Abbreviation keepStaying := (keepStaying sourceDatacenter CfgMap).
Local Abbreviation cleanUp := (cleanUp sourceDatacenter Data CfgMap).

(** What the loop over the payload leaves as it is: nothing is cancelled,
    the endpoint maps and the chains are untouched, chain watches are only
    added, and only for the service [id] at hand, like its configuration. *)
Definition grown (ids : gset string) cp (w : World) cp' (w' : World) : Prop :=
  cancelled w' = cancelled w
  ∧ DiscoveryChain Data CfgMap cp' = DiscoveryChain Data CfgMap cp
  ∧ WatchedUpstreams Data CfgMap cp' = WatchedUpstreams Data CfgMap cp
  ∧ WatchedUpstreamEndpoints Data CfgMap cp'
    = WatchedUpstreamEndpoints Data CfgMap cp
  ∧ WatchedGateways Data CfgMap cp' = WatchedGateways Data CfgMap cp
  ∧ WatchedGatewayEndpoints Data CfgMap cp'
    = WatchedGatewayEndpoints Data CfgMap cp
  ∧ (∀ sn h, WatchedDiscoveryChains Data CfgMap cp !! sn = Some h →
             WatchedDiscoveryChains Data CfgMap cp' !! sn = Some h)
  ∧ (∀ sn, sn ∉ ids →
       WatchedDiscoveryChains Data CfgMap cp' !! sn
       = WatchedDiscoveryChains Data CfgMap cp !! sn
       ∧ UpstreamConfig Data CfgMap cp' !! sn
         = UpstreamConfig Data CfgMap cp !! sn).

Lemma grown_refl cp (w : World) : grown ∅ cp w cp w.
Proof. unfold grown. by repeat split. Qed.

Lemma grown_trans (ids1 ids2 : gset string) cp1 cp2 cp3 (w1 w2 w3 : World) :
  grown ids1 cp1 w1 cp2 w2 → grown ids2 cp2 w2 cp3 w3 →
  grown (ids1 ∪ ids2) cp1 w1 cp3 w3.
Proof.
  intros (Hc & Hd & Hu & Hue & Hg & Hge & Hk & Ho)
         (Hc' & Hd' & Hu' & Hue' & Hg' & Hge' & Hk' & Ho').
  unfold grown. repeat (split; [congruence|]). split.
  - intros sn h Hh. by apply Hk', Hk.
  - intros sn Hout.
    destruct (Ho sn) as [E1 E2]; [set_solver|].
    destruct (Ho' sn) as [E1' E2']; [set_solver|].
    split; congruence.
Qed.

Lemma watchDiscoveryChain_grown (id : string) cp ig (w : World) cp' ig'
    (w' : World) :
  watchDiscoveryChain id cp ig w = (None, cp', ig', w') →
  grown {[id]} cp w cp' w'.
Proof.
  unfold ConnectProxy.watchDiscoveryChain, watch.
  destruct (WatchedDiscoveryChains Data CfgMap cp !! id) as [h0|] eqn:Hid.
  { intros [= <- <- <-]. unfold grown. by repeat split. }
  destruct (Notify _ _ _) as [e|]; [done|].
  destruct kind; try done; intros [= <- <- <-]; unfold grown; simpl;
    split_and!; try done.
  - intros sn h Hh. rewrite lookup_insert_ne; [done|]. congruence.
  - intros sn Hout. rewrite lookup_insert_ne; [done|]. set_solver.
Qed.

Lemma watchIntentionUpstream_grown (svc : ServiceName) cp ig (w : World)
    cp' ig' (w' : World) :
  watchIntentionUpstream svc cp ig w = (None, cp', ig', w') →
  grown {[SN_String svc]} cp w cp' w'.
Proof.
  unfold ConnectProxy.watchIntentionUpstream.
  set (id := SN_String svc).
  destruct (match UpstreamConfig Data CfgMap cp !! id with
            | Some u => _ | None => _ end) as [[cfgMap isNil] cp1] eqn:Hcfg.
  assert (Hcp1 : grown {[id]} cp w cp1 w).
  { destruct (UpstreamConfig Data CfgMap cp !! id) as [u|] eqn:Hu.
    { injection Hcfg as _ _ <-. unfold grown. by repeat split. }
    destruct (UpstreamConfig Data CfgMap cp !! wildcardSID_String)
      as [defaults|].
    - injection Hcfg as _ _ <-. unfold grown. simpl.
      split_and!; try done.
      intros sn Hout. split; [done|]. rewrite lookup_insert_ne; [done|].
      set_solver.
    - injection Hcfg as _ _ <-. unfold grown. by repeat split. }
  set (w1 := match parseReducedUpstreamConfig cfgMap with
             | Some _ => logMsg "failed to parse upstream config" w
             | None => w end).
  assert (Hw1 : cancelled w1 = cancelled w).
  { subst w1. by destruct (parseReducedUpstreamConfig cfgMap). }
  assert (Hgo : ∀ r,
    match watchDiscoveryChain id cp1 ig w1 with
    | (Some e, cp2, ig2, w2) =>
        (Some ("failed to watch discovery chain for " ++ id ++ ": " ++ e),
         cp2, ig2, w2)
    | (None, cp2, ig2, w2) => (None, cp2, ig2, w2)
    end = r → r = (None, cp', ig', w') → grown {[id]} cp w cp' w').
  { intros r <-.
    destruct (watchDiscoveryChain id cp1 ig w1) as [[[[e|] cp2] ig2] w2] eqn:Hw;
      [done|].
    intros [= <- <- <-]. apply watchDiscoveryChain_grown in Hw.
    replace ({[id]} : gset string) with (({[id]} : gset string) ∪ {[id]})
      by set_solver.
    eapply grown_trans; [exact Hcp1|].
    destruct Hw as (Hc & Hrest). split; [congruence|done]. }
  destruct (parseReducedUpstreamConfig cfgMap) as [perr|] eqn:Hparse,
    isNil; try done; intros Hr; by eapply Hgo.
Qed.

Lemma watchIntentionUpstreams_grown (services : list ServiceName)
    (seen : gset string) cp ig (w : World) (seen' : gset string) cp' ig'
    (w' : World) :
  watchIntentionUpstreams services seen cp ig w = (None, seen', cp', ig', w') →
  let ids : gset string := list_to_set (SN_String <$> services) in
  seen' = ids ∪ seen ∧ grown ids cp w cp' w'.
Proof.
  revert seen cp ig w.
  induction services as [|svc rest IH]; intros seen cp ig w; simpl.
  - intros [= <- <- <- <-]. split; [set_solver|apply grown_refl].
  - destruct (watchIntentionUpstream svc cp ig w)
      as [[[[e|] cp1] ig1] w1] eqn:H1; [done|].
    intros Hrest. apply IH in Hrest as (-> & Hg2).
    apply watchIntentionUpstream_grown in H1.
    split; [set_solver|]. by eapply grown_trans.
Qed.

Local Arguments Proxycfg.ConnectProxy.keepStaying : simpl never.

Lemma lookup_keepStaying {V : Type} (cfg : gmap string (Upstream CfgMap))
    (seen : gset string) (m : gmap string V) (sn : string) :
  keepStaying cfg seen m !! sn = if stays cfg seen sn then m !! sn else None.
Proof.
  unfold ConnectProxy.keepStaying.
  destruct (stays cfg seen sn) eqn:Hst.
  - destruct (m !! sn) as [v|] eqn:Hm.
    + by apply map_lookup_filter_Some.
    + apply map_lookup_filter_None. by left.
  - apply map_lookup_filter_None. right. intros v _. simpl. congruence.
Qed.

(** The clean-up loops. *)
Lemma cleanUp_upstreams_spec (seen : gset string) cp (w : World) :
  let r := cleanUp seen cp w in
  let cfg := UpstreamConfig Data CfgMap cp in
  subs r.2 = subs w
  ∧ (∀ sn, stays cfg seen sn = true →
       WatchedUpstreams Data CfgMap r.1 !! sn
       = WatchedUpstreams Data CfgMap cp !! sn
       ∧ WatchedUpstreamEndpoints Data CfgMap r.1 !! sn
         = WatchedUpstreamEndpoints Data CfgMap cp !! sn
       ∧ WatchedGateways Data CfgMap r.1 !! sn
         = WatchedGateways Data CfgMap cp !! sn
       ∧ WatchedGatewayEndpoints Data CfgMap r.1 !! sn
         = WatchedGatewayEndpoints Data CfgMap cp !! sn
       ∧ WatchedDiscoveryChains Data CfgMap r.1 !! sn
         = WatchedDiscoveryChains Data CfgMap cp !! sn
       ∧ DiscoveryChain Data CfgMap r.1 !! sn
         = DiscoveryChain Data CfgMap cp !! sn)
  ∧ (∀ sn, stays cfg seen sn = false →
       WatchedUpstreams Data CfgMap r.1 !! sn = None
       ∧ WatchedUpstreamEndpoints Data CfgMap r.1 !! sn = None
       ∧ WatchedGateways Data CfgMap r.1 !! sn = None
       ∧ WatchedGatewayEndpoints Data CfgMap r.1 !! sn = None
       ∧ WatchedDiscoveryChains Data CfgMap r.1 !! sn = None
       ∧ ∀ h, WatchedDiscoveryChains Data CfgMap cp !! sn = Some h →
              h ∈ cancelled r.2
              ∧ DiscoveryChain Data CfgMap r.1 !! sn = None)
  ∧ (∀ h, h ∈ cancelled r.2 →
       h ∈ cancelled w
       ∨ ∃ sn, WatchedDiscoveryChains Data CfgMap cp !! sn = Some h
               ∧ stays cfg seen sn = false).
Proof.
  intros r cfg. subst r. unfold ConnectProxy.cleanUp. fold cfg.
  cbv zeta. cbn [fst snd]. simpl.
  set (gone := filter (λ kv, stays cfg seen kv.1 = false)
                 (WatchedDiscoveryChains Data CfgMap cp)).
  assert (Hgone : ∀ sn h, gone !! sn = Some h ↔
    WatchedDiscoveryChains Data CfgMap cp !! sn = Some h
    ∧ stays cfg seen sn = false).
  { intros sn h. subst gone. by rewrite map_lookup_filter_Some. }
  split; [done|]. split; [|split].
  - intros sn Hst. rewrite !lookup_keepStaying, Hst.
    repeat (split; [done|]).
    destruct (DiscoveryChain Data CfgMap cp !! sn) as [c|] eqn:Hc.
    + apply map_lookup_filter_Some. split; [done|]. simpl.
      intros [h Hh]%elem_of_dom. apply Hgone in Hh as [_ Hh]. congruence.
    + apply map_lookup_filter_None. by left.
  - intros sn Hst. rewrite !lookup_keepStaying, Hst.
    repeat (split; [done|]). intros h Hh.
    assert (gone !! sn = Some h) as Hg by by apply Hgone.
    split.
    + rewrite elem_of_app. right. apply list_elem_of_fmap.
      exists (sn, h). split; [done|]. by apply elem_of_map_to_list.
    + apply map_lookup_filter_None. right. intros v _. simpl.
      intros Hn. apply Hn. by apply elem_of_dom_2 in Hg.
  - intros h [Hh|Hh]%elem_of_app; [by left|]. right.
    apply list_elem_of_fmap in Hh as ([sn h'] & -> & Hin).
    apply elem_of_map_to_list in Hin. exists sn. by apply Hgone.
Qed.


End ConnectProxyFacts.

(** A transparent proxy in [dc1] that still watches the upstream [old],
    configured without a datacenter, and an update that delivers [svcA]. *)
Definition svcA : ServiceName := mkServiceName "svcA" "".

Definition watchingOld : ConnectProxy.configSnapshotConnectProxy string () :=
  ConnectProxy.mkCP string ()
    {["old" := "chain"]} {["old" := 3%nat]}
    {["old" := {["old.default.dc1" := 7%nat]}]}
    {["old" := {["old.default.dc1" := "nodes"]}]}
    ∅ ∅
    {["old" := mkUpstream "" "default" "old" "" 0 [] () ""]}.

Definition deliverA : UpdateEvent :=
  mkUpdateEvent "intention-upstreams" (PIndexedServiceList [svcA]) None.

(** The handler of a connect proxy in [dc1] over a given cache. *)
Definition handleIn_dc1 (Notify : World → Provider → string → error) :=
  ConnectProxy.handleUpdate ServiceKindConnectProxy "dc1" Notify Name "*"
    string () () (λ _, None) (λ _ cp ig w, (None, cp, ig, w)).



(** *** The event loop [state.run] *)

Section Run.
Import State.

Context {Snap Heap Update : Type}.
Variable handleUpdate : Update → Snap → Heap → error * Snap * Heap.
Variable Valid : Snap → bool.
Variable Clone : Snap → Heap → string + Snap * Heap.
Implicit Types st : runState Snap Heap.

Local Abbreviation step := (State.step handleUpdate Valid Clone).
Local Abbreviation run := (State.run handleUpdate Valid Clone).
Local Abbreviation onSendCh := (State.onSendCh Clone).
Local Abbreviation onUpdate := (State.onUpdate handleUpdate Valid).
Local Abbreviation onRequest := (State.onRequest Valid Clone).

(** At most one timer is outstanding, and [coalesceTimer] holds it. *)
Definition oneTimer st : Prop :=
  (sendPending st ≤ 1)%nat
  ∧ (sendPending st = 1%nat → coalesceTimer st ≠ None).

Lemma oneTimer_init (sn : Snap) (h : Heap) : oneTimer (initRun sn h).
Proof. split; simpl; [lia|done]. Qed.

Lemma oneTimer_armIfNil st : oneTimer st → oneTimer (armIfNil st).
Proof.
  intros [Hle Hset]. unfold armIfNil, armTimer, oneTimer.
  destruct (coalesceTimer st) eqn:Ht; [by rewrite Ht|]. simpl.
  assert (sendPending st = 0%nat) as ->.
  { destruct (sendPending st) as [|[|]]; [done| |lia]. by destruct Hset. }
  split; [lia|done].
Qed.

Lemma oneTimer_step (e : event Update) st st' :
  oneTimer st → step e st = Some st' → oneTimer st'.
Proof.
  intros Hinv. pose proof Hinv as [Hle Hset]. unfold State.step.
  destruct e as [|u| | |].
  - destruct (stopped st); [done|]. by intros [= <-].
  - destruct (stopped st); [done|]. intros [= <-].
    unfold State.onUpdate.
    destruct (handleUpdate u (snap st) (heap st)) as [[[e|] sn] h].
    + done.
    + unfold afterUpdate, set_snap. simpl.
      destruct (Valid sn); [|done]. by apply oneTimer_armIfNil.
  - destruct (stopped st); [done|].
    destruct (sendPending st) as [|n] eqn:Hn; [done|]. intros [= <-].
    assert (n = 0%nat) as -> by lia.
    unfold State.onSendCh. rewrite Hn. simpl.
    destruct (Clone (snap st) (heap st)) as [msg|[c h]].
    + split; simpl; [lia|done].
    + unfold set_heap, set_snap. simpl.
      destruct (snapCh st); [split; simpl; [lia|done]|].
      unfold armIfNil. simpl.
      destruct (coalesceTimer st) eqn:Ht; [split; simpl; [lia|done]|].
      by destruct Hset.
  - destruct (stopped st); [done|]. intros [= <-].
    unfold State.onRequest. destruct (negb _); [done|].
    by destruct (Clone (snap st) (heap st)) as [msg|[c h]].
  - destruct (snapCh st); [done|]. by intros [= <-].
Qed.

Lemma oneTimer_run (es : list (event Update)) st st' :
  oneTimer st → run es st = Some st' → oneTimer st'.
Proof.
  revert st. induction es as [|e es IH]; intros st Hinv; simpl.
  - by intros [= <-].
  - destruct (step e st) as [st1|] eqn:Hstep; [|done].
    apply IH. by eapply oneTimer_step.
Qed.

(** No timer is outstanding although [coalesceTimer] is not nil. *)
Definition stuck st : Prop :=
  sendPending st = 0%nat ∧ coalesceTimer st ≠ None.

(** From a stuck state no step arms a timer or sends a snapshot. *)
Lemma stuck_step (e : event Update) st st' :
  stuck st → step e st = Some st' →
  stuck st' ∧ timersMade st' = timersMade st
  ∧ snapCh st' `suffix_of` snapCh st.
Proof.
  intros [Hp Ht]. unfold State.step.
  destruct e as [|u| | |].
  - destruct (stopped st); [done|]. by intros [= <-].
  - destruct (stopped st); [done|]. intros [= <-].
    unfold State.onUpdate.
    destruct (handleUpdate u (snap st) (heap st)) as [[[e|] sn] h].
    + done.
    + unfold afterUpdate, set_snap, armIfNil. simpl.
      destruct (Valid sn); [|done].
      by destruct (coalesceTimer st).
  - destruct (stopped st); [done|]. by rewrite Hp.
  - destruct (stopped st); [done|]. intros [= <-].
    unfold State.onRequest. destruct (negb _); [done|].
    by destruct (Clone (snap st) (heap st)) as [msg|[c h]].
  - destruct (snapCh st) as [|x rest] eqn:Hch; [done|]. intros [= <-].
    simpl. split; [done|]. split; [done|]. by apply suffix_cons_r.
Qed.

Lemma stuck_run (es : list (event Update)) st st' :
  stuck st → run es st = Some st' →
  stuck st' ∧ timersMade st' = timersMade st
  ∧ snapCh st' `suffix_of` snapCh st.
Proof.
  revert st. induction es as [|e es IH]; intros st Hst; simpl.
  - by intros [= <-].
  - destruct (step e st) as [st1|] eqn:Hstep; [|done]. intros Hrun.
    destruct (stuck_step _ _ _ Hst Hstep) as (Hst1 & Htm & Hsuf).
    destruct (IH _ Hst1 Hrun) as (Hst' & Htm' & Hsuf').
    split; [done|]. split; [congruence|]. by etrans.
Qed.

(** C1.  In every state that [run] reaches from its start, in which a timer
    is outstanding and the outbound channel holds a snapshot [old] that was
    not consumed: when the timer's token is received, the iteration does not
    block and the loop goes on; the snapshot and the channel are as before,
    nothing is delivered.  But no timer is armed: the guard
    [coalesceTimer == nil] fails because the timer that just fired was never
    cleared.  From then on [coalesceTimer] stays set with no timer
    outstanding, so whatever happens next (updates, requests, the consumer
    draining the channel), no timer is armed and no snapshot is sent again. *)
Theorem full_channel_arms_no_timer (sn : Snap) (h : Heap) (es : list (event Update))
    st (old : Snap) :
  run es (initRun sn h) = Some st →
  stopped st = false →
  (0 < sendPending st)%nat →
  snapCh st = [old] →
  ∃ st',
    step SendCh st = Some st'
    ∧ stopped st' = false
    ∧ snap st' = snap st
    ∧ snapCh st' = [old]
    ∧ timersMade st' = timersMade st
    ∧ sendPending st' = 0%nat
    ∧ coalesceTimer st' = coalesceTimer st
    ∧ coalesceTimer st' ≠ None
    ∧ ∀ (es' : list (event Update)) st'',
        run es' st' = Some st'' →
        timersMade st'' = timersMade st
        ∧ sendPending st'' = 0%nat
        ∧ (snapCh st'' = [old] ∨ snapCh st'' = []).
Proof.
  intros Hrun Hgo Hpend Hfull.
  destruct (oneTimer_run _ _ _ (oneTimer_init sn h) Hrun) as [Hle Hset].
  assert (Hone : sendPending st = 1%nat) by lia.
  specialize (Hset Hone).
  exists (onSendCh st). unfold State.step. rewrite Hgo, Hone.
  split; [done|].
  assert (Hst : stopped (onSendCh st) = false
                ∧ snap (onSendCh st) = snap st
                ∧ snapCh (onSendCh st) = [old]
                ∧ timersMade (onSendCh st) = timersMade st
                ∧ sendPending (onSendCh st) = 0%nat
                ∧ coalesceTimer (onSendCh st) = coalesceTimer st).
  { unfold State.onSendCh. rewrite Hone. simpl.
    destruct (Clone (snap st) (heap st)) as [msg|[c h']]; [done|].
    unfold set_heap, set_snap, armIfNil. simpl. rewrite Hfull. simpl.
    by destruct (coalesceTimer st). }
  destruct Hst as (? & ? & Hch & Htm & Hp & Hct).
  repeat (split; [done|]). split; [congruence|].
  intros es' st'' Hrun'.
  destruct (stuck_run es' (onSendCh st) st'') as ([Hp'' _] & Htm'' & Hsuf);
    [split; congruence|done|].
  split; [congruence|]. split; [done|].
  rewrite Hch in Hsuf. destruct Hsuf as [k Hk].
  destruct k as [|x [|y k]]; simpl in Hk.
  - left. congruence.
  - right. injection Hk as _ Hk. done.
  - injection Hk as _ Hk. by destruct k.
Qed.

End Run.

(** A proxy whose snapshot is a version number: every update increases it,
    every snapshot is valid, copying never fails. *)
Definition bump (_ : ()) (n : nat) (h : ()) : error * nat * () :=
  (None, S n, h).
Definition copyNat (n : nat) (h : ()) : string + nat * () := inr (n, h).

(** The theorem after: an update, the timer (version 1 is sent and not
    consumed), another update; then the second timer fires. *)
Lemma full_channel_arms_no_timer_witness :
  ∃ st st',
    State.run bump (λ _, true) copyNat
      [State.Inbound (); State.SendCh; State.Inbound ()]
      (State.initRun 0%nat ()) = Some st
    ∧ State.snap st = 2%nat
    ∧ State.snapCh st = [1%nat]
    ∧ State.step bump (λ _, true) copyNat State.SendCh st = Some st'
    ∧ State.timersMade st' = [coalesceTimeout; coalesceTimeout]
    ∧ State.sendPending st' = 0%nat
    ∧ State.snapCh st' = [1%nat].
Proof.
  edestruct (full_channel_arms_no_timer bump (λ _, true) copyNat 0%nat ()
               [State.Inbound (); State.SendCh; State.Inbound ()])
    as (st' & Hstep & _ & _ & Hch & Htm & Hp & _).
  - reflexivity.
  - reflexivity.
  - simpl. lia.
  - reflexivity.
  - eexists _, st'. split; [reflexivity|]. split; [reflexivity|].
    split; [reflexivity|]. split; [exact Hstep|].
    split; [exact Htm|]. split; [exact Hp|exact Hch].
Defined.

(** The same run continued: the consumer takes version 1, two more updates
    arrive, and nothing is armed or sent; version 3 never reaches the
    consumer. *)
Example stuck_after_full_channel :
  ∃ st,
    State.run bump (λ _, true) copyNat
      [State.Inbound (); State.SendCh; State.Inbound (); State.SendCh;
       State.Consume; State.Inbound (); State.Inbound ()]
      (State.initRun 0%nat ()) = Some st
    ∧ State.snap st = 4%nat
    ∧ State.snapCh st = []
    ∧ State.sendPending st = 0%nat
    ∧ State.coalesceTimer st = Some 1%nat
    ∧ State.step bump (λ _, true) copyNat State.SendCh st = None.
Proof. eexists. split; [vm_compute; reflexivity|]. by vm_compute. Qed.

(** *** The deep copy and [CurrentSnapshot] *)

Section DeepCopy.
Import State.

Fixpoint value_ind' (P : value → Prop)
    (HS : ∀ s, P (Scalar s))
    (HO : ∀ a es, Forall P es → P (Object a es)) (v : value) : P v :=
  match v with
  | Scalar s => HS s
  | Object a es =>
      HO a es
        ((fix all (l : list value) : Forall P l :=
            match l with
            | [] => List.Forall_nil P
            | x :: r => List.Forall_cons P x r (value_ind' P HS HO x) (all r)
            end) es)
  end.

Lemma deepCopy_Object (a : nat) (es : list value) (next : nat) :
  deepCopy (Object a es) next =
  let '(es', next') := copyAll es (S next) in (Object next es', next').
Proof.
  simpl.
  assert (H : ∀ l n,
    (fix copyAll (l : list value) (n : nat) : list value * nat :=
       match l with
       | [] => ([], n)
       | x :: r =>
           let '(x', n1) := deepCopy x n in
           let '(r', n2) := copyAll r n1 in (x' :: r', n2)
       end) l n = copyAll l n).
  { induction l as [|x r IH]; intros n; simpl; [done|].
    destruct (deepCopy x n) as [x' n1]. by rewrite IH. }
  by rewrite H.
Qed.

(** What a copy is, started at the first free address [next]: it has the
    content of the original and its objects are at the addresses from [next]
    up to the new first free address. *)
Definition copied (v c : value) (next next' : nat) : Prop :=
  (next ≤ next')%nat
  ∧ content c = content v
  ∧ Forall (λ a, (next ≤ a < next')%nat) (addrs c).

Lemma copyAll_copied (l : list value) :
  Forall (λ v, ∀ n, copied v (deepCopy v n).1 n (deepCopy v n).2) l →
  ∀ n,
    (n ≤ (copyAll l n).2)%nat
    ∧ map content (copyAll l n).1 = map content l
    ∧ Forall (λ a, (n ≤ a < (copyAll l n).2)%nat)
        (flat_map addrs (copyAll l n).1).
Proof.
  induction 1 as [|x r Hx _ IH]; intros n; simpl.
  - split; [lia|]. split; [done|]. constructor.
  - specialize (Hx n). destruct (deepCopy x n) as [x' n1].
    destruct Hx as (Hle & Hc & Ha). simpl in *.
    specialize (IH n1). destruct (copyAll r n1) as [r' n2].
    destruct IH as (Hle' & Hc' & Ha'). simpl in *.
    split; [lia|]. split; [by rewrite Hc, Hc'|].
    apply Forall_app. split.
    + eapply Forall_impl; [exact Ha|]. simpl. intros; lia.
    + eapply Forall_impl; [exact Ha'|]. simpl. intros; lia.
Qed.

Lemma deepCopy_copied (v : value) (n : nat) :
  copied v (deepCopy v n).1 n (deepCopy v n).2.
Proof.
  revert n. induction v as [s|a es IH] using value_ind'; intros n.
  - simpl. split; [lia|]. split; [done|]. constructor.
  - rewrite deepCopy_Object.
    destruct (copyAll_copied es IH (S n)) as (Hle & Hc & Ha).
    destruct (copyAll es (S n)) as [es' n']. simpl in *.
    unfold copied. simpl.
    split; [lia|]. split; [by rewrite Hc|].
    constructor; [lia|].
    eapply Forall_impl; [exact Ha|]. simpl. intros; lia.
Qed.

(** A copy made above the objects of [v] shares no object with [v]. *)
Lemma deepCopy_disjoint (v : value) (n : nat) :
  Forall (λ a, (a < n)%nat) (addrs v) →
  ∀ a, a ∈ addrs (deepCopy v n).1 → a ∉ addrs v.
Proof.
  intros Hv a Ha Hin.
  destruct (deepCopy_copied v n) as (_ & _ & Hc).
  rewrite Forall_forall in Hv, Hc.
  specialize (Hv a Hin). specialize (Hc a Ha). lia.
Qed.

Context {Update : Type}.
Variable Valid : value → bool.

(** C2.  While [run] is looping, an on-demand request ([CurrentSnapshot])
    is answered, and the snapshot stays as it is.  If the snapshot is not
    valid the answer is nil.  Otherwise the answer is a copy with the
    content of the snapshot none of whose maps, slices and structures is one
    of the snapshot's (those lie below the first free address, those of the
    copy are allocated from it on). *)
Theorem CurrentSnapshot_reply (st : runState value nat) :
  stopped st = false →
  allocated st →
  ∃ r st',
    CurrentSnapshot Valid Clone st = Some (r, st')
    ∧ snap st' = snap st
    ∧ replies st' = (replies st ++ [r])%list
    ∧ (∀ handleUpdate : Update → value → nat → error * value * nat,
         step handleUpdate Valid Clone ReqCh st = Some st')
    ∧ (Valid (snap st) = false → r = None)
    ∧ (Valid (snap st) = true →
       ∃ c, r = Some c
            ∧ content c = content (snap st)
            ∧ (∀ a, a ∈ addrs c → a ∉ addrs (snap st))
            ∧ (∀ a, a ∈ addrs c → (heap st ≤ a < heap st')%nat)).
Proof.
  intros Hgo Halloc.
  unfold CurrentSnapshot, step, onRequest, Clone. rewrite Hgo.
  destruct (Valid (snap st)) eqn:Hv; simpl.
  - pose proof (deepCopy_copied (snap st) (heap st)) as (Hle & Hc & Ha).
    pose proof (deepCopy_disjoint (snap st) (heap st) Halloc) as Hd.
    destruct (deepCopy (snap st) (heap st)) as [c n'] eqn:Hcopy.
    simpl in *. eexists _, _. split; [reflexivity|]. simpl.
    split; [done|]. split; [done|]. split; [by intros ?|].
    split; [done|]. intros _.
    exists c. split; [done|]. split; [done|]. split; [done|].
    intros a Hin. rewrite Forall_forall in Ha. apply (Ha a Hin).
  - eexists _, _. split; [reflexivity|]. simpl.
    split; [done|]. split; [done|]. split; [by intros ?|]. done.
Qed.

End DeepCopy.

(** A valid snapshot with two nested maps and a slice, five objects. *)
Definition someSnapshot : State.value :=
  State.Object 0
    [State.Scalar "connect-proxy";
     State.Object 1 [State.Scalar "roots"];
     State.Object 2 [State.Object 3 [State.Scalar "db"];
                     State.Object 4 []]].

Lemma CurrentSnapshot_reply_witness :
  ∃ st',
    State.CurrentSnapshot (λ _, true) State.Clone
      (State.initRun someSnapshot 5%nat)
    = Some (Some (State.Object 5
                    [State.Scalar "connect-proxy";
                     State.Object 6 [State.Scalar "roots"];
                     State.Object 7 [State.Object 8 [State.Scalar "db"];
                                     State.Object 9 []]]), st').
Proof.
  destruct (CurrentSnapshot_reply (Update := ()) (λ _, true)
              (State.initRun someSnapshot 5%nat))
    as (r & st' & Hcur & _).
  - reflexivity.
  - unfold State.allocated. simpl. repeat constructor.
  - exists st'. rewrite Hcur. f_equal. f_equal.
    vm_compute in Hcur. by injection Hcur as <- _.
Defined.

(** *** The DNS SANs of the ingress gateway's leaf certificate *)

Section IngressGateway.
Import IngressGateway.

Context {CfgMap : Type}.
Variable sourceDatacenter Domain AltDomain : string.
Variable Notify : World → Provider → string → error.
Implicit Types ig : configSnapshotIngressGateway CfgMap.

Local Abbreviation watchIngressLeafCert :=
  (watchIngressLeafCert sourceDatacenter Domain AltDomain Notify CfgMap).
Local Abbreviation generateIngressDNSSANs :=
  (generateIngressDNSSANs sourceDatacenter Domain AltDomain CfgMap).

(** The keys of [namespaces] are the namespaces of the listener upstreams. *)
Lemma elem_of_namespaces ig (ns : string) :
  ns ∈ namespaces CfgMap ig ↔
  ∃ key ups u, Upstreams CfgMap ig !! key = Some ups ∧ u ∈ ups
               ∧ DestinationNamespace u = ns.
Proof.
  unfold namespaces. rewrite elem_of_list_to_set, list_elem_of_fmap.
  split.
  - intros (u & -> & Hu). apply list_elem_of_join in Hu as (ups & Hu & Hups).
    apply list_elem_of_fmap in Hups as ([key ups'] & -> & Hk).
    apply elem_of_map_to_list in Hk. by exists key, ups', u.
  - intros (key & ups & u & Hk & Hu & <-). exists u. split; [done|].
    apply list_elem_of_join. exists ups. split; [done|].
    apply list_elem_of_fmap. exists (key, ups). split; [done|].
    by apply elem_of_map_to_list.
Qed.

(** Every order of visit has each namespace of the upstreams once. *)
Lemma rangeOrder_spec ig (order : list string) :
  rangeOrder CfgMap ig order →
  NoDup order
  ∧ ∀ ns, ns ∈ order ↔
      ∃ key ups u, Upstreams CfgMap ig !! key = Some ups ∧ u ∈ ups
                   ∧ DestinationNamespace u = ns.
Proof.
  unfold rangeOrder. intros Hperm. split.
  - rewrite Hperm. apply NoDup_elements.
  - intros ns. rewrite Hperm, elem_of_elements. apply elem_of_namespaces.
Qed.

(** What [watchIngressLeafCert] subscribes to. *)
Lemma watchIngressLeafCert_subs (order : list string) ig (w : World) :
  let sans := generateIngressDNSSANs order ig in
  let r := watchIngressLeafCert order ig w in
  (∃ new, subs r.2 = (subs w ++ new)%list
          ∧ ∀ sub, sub ∈ new →
              subProvider sub = Cache ConnectCALeafName
              ∧ subID sub = leafWatchID ∧ subDNSSAN sub = sans)
  ∧ (TLSSet CfgMap ig = true → HostsSet CfgMap ig = true → r.1.1 = None →
     ∃ h, subs r.2
          = (subs w ++ [mkSub (Cache ConnectCALeafName) leafWatchID h sans])%list
          ∧ LeafCertWatchCancel CfgMap r.1.2 = Some h
          ∧ ∀ h0, LeafCertWatchCancel CfgMap ig = Some h0 →
                  h0 ∈ cancelled r.2).
Proof.
  intros sans r. subst r. unfold IngressGateway.watchIngressLeafCert.
  destruct (TLSSet CfgMap ig), (HostsSet CfgMap ig); simpl;
    try (split; [exists []; split; [by rewrite app_nil_r|by intros ? ?%elem_of_nil]|done]).
  unfold watch. fold sans.
  set (w0 := match LeafCertWatchCancel CfgMap ig with
             | Some h => cancel h w | None => w end).
  assert (Hs0 : subs w0 = subs w) by (subst w0; by destruct LeafCertWatchCancel).
  assert (Hc0 : ∀ h0, LeafCertWatchCancel CfgMap ig = Some h0 → h0 ∈ cancelled w0).
  { intros h0 Hh0. subst w0. rewrite Hh0. simpl. set_solver. }
  destruct (Notify _ _ _) as [e|]; simpl.
  - split; [|done]. exists []. rewrite app_nil_r.
    split; [done|by intros ? ?%elem_of_nil].
  - rewrite Hs0. split.
    + eexists. split; [done|]. by intros sub ->%list_elem_of_singleton.
    + intros _ _ _. eauto.
Qed.

End IngressGateway.

(** C5.  For an ingress gateway with TLS enabled, the leaf certificate
    request that [watchIngressLeafCert] issues (it issues one when the TLS
    and the hosts settings are both known and the cache accepts it, after
    cancelling the previous watch) carries as DNS SANs, for the namespaces of
    the listener upstreams in the order the map is visited, each once, the
    names [*.ingress.<ns>.<domain>] and [*.ingress.<ns>.<dc>.<domain>] and,
    when the alt domain is not empty, the same two names with the alt
    domain, [<ns>.] being left out for the default namespace; then the
    configured hosts.  For the domain [consul], the alt domain
    [example.com], the datacenter [dc1], one upstream in the namespace [web]
    and the host [api.example.com] the list is the five names of the
    specification. *)
Theorem ingress_leaf_watch_DNSSAN {CfgMap : Type} (dc domain alt : string)
    (Notify : World → Provider → string → error) (order : list string)
    (ig : IngressGateway.configSnapshotIngressGateway CfgMap) (w : World) :
  IngressGateway.TLSEnabled CfgMap ig = true →
  IngressGateway.rangeOrder CfgMap ig order →
  let prefix ns := if String.eqb ns "default" then "" else ns ++ "." in
  let names ns d :=
    ["*.ingress." ++ prefix ns ++ d;
     "*.ingress." ++ prefix ns ++ dc ++ "." ++ d] in
  let sans :=
    ((order ≫= λ ns,
        names ns domain ++ if String.eqb alt "" then [] else names ns alt)
     ++ IngressGateway.Hosts CfgMap ig)%list in
  let r := IngressGateway.watchIngressLeafCert dc domain alt Notify CfgMap
             order ig w in
  (NoDup order
   ∧ ∀ ns, ns ∈ order ↔
       ∃ key ups u, IngressGateway.Upstreams CfgMap ig !! key = Some ups
                    ∧ u ∈ ups ∧ DestinationNamespace u = ns)
  ∧ (∃ new, subs r.2 = (subs w ++ new)%list
            ∧ ∀ sub, sub ∈ new →
                subProvider sub = Cache ConnectCALeafName
                ∧ subID sub = "leaf" ∧ subDNSSAN sub = sans)
  ∧ (IngressGateway.TLSSet CfgMap ig = true →
     IngressGateway.HostsSet CfgMap ig = true → r.1.1 = None →
     ∃ h, subs r.2
          = (subs w ++ [mkSub (Cache ConnectCALeafName) "leaf" h sans])%list
          ∧ IngressGateway.LeafCertWatchCancel CfgMap r.1.2 = Some h
          ∧ ∀ h0, IngressGateway.LeafCertWatchCancel CfgMap ig = Some h0 →
                  h0 ∈ cancelled r.2)
  ∧ (∀ key u,
       IngressGateway.Upstreams CfgMap ig = {[key := [u]]} →
       DestinationNamespace u = "web" →
       IngressGateway.Hosts CfgMap ig = ["api.example.com"] →
       dc = "dc1" → domain = "consul" → alt = "example.com" →
       sans = ["*.ingress.web.consul"; "*.ingress.web.dc1.consul";
               "*.ingress.web.example.com"; "*.ingress.web.dc1.example.com";
               "api.example.com"]).
Proof.
  intros Htls Horder prefix names sans r.
  assert (Hsans : IngressGateway.generateIngressDNSSANs dc domain alt CfgMap
                    order ig = sans).
  { unfold IngressGateway.generateIngressDNSSANs. by rewrite Htls. }
  pose proof (watchIngressLeafCert_subs dc domain alt Notify order ig w) as Hw.
  simpl in Hw. rewrite Hsans in Hw. destruct Hw as [Hnew Hone].
  split; [by apply rangeOrder_spec|]. split; [done|]. split; [done|].
  intros key u Hups Hns Hhosts -> -> ->.
  assert (order = ["web"]) as ->.
  { apply Permutation_singleton_r. unfold IngressGateway.rangeOrder in Horder.
    rewrite Horder. unfold IngressGateway.namespaces.
    rewrite Hups, map_to_list_singleton. simpl. rewrite Hns.
    by rewrite union_empty_r_L, elements_singleton. }
  subst sans. by rewrite Hhosts.
Qed.

(** The gateway of the scenario "Ingress SAN generation". *)
Definition sanScenario : IngressGateway.configSnapshotIngressGateway () :=
  IngressGateway.mkIG () true true ["api.example.com"] true
    {[ ("http", 8080%Z) :=
         [mkUpstream "" "web" "api" "" 8080%Z [] () ""] ]}
    ∅ None.

Lemma ingress_leaf_watch_DNSSAN_witness :
  ∃ h, subs (IngressGateway.watchIngressLeafCert "dc1" "consul" "example.com"
               (λ _ _ _, None) () ["web"] sanScenario emptyWorld).2
       = [mkSub (Cache ConnectCALeafName) "leaf" h
            ["*.ingress.web.consul"; "*.ingress.web.dc1.consul";
             "*.ingress.web.example.com"; "*.ingress.web.dc1.example.com";
             "api.example.com"]].
Proof.
  destruct (ingress_leaf_watch_DNSSAN "dc1" "consul" "example.com"
              (λ _ _ _, None) ["web"] sanScenario emptyWorld)
    as (_ & _ & Hone & Hex).
  - reflexivity.
  - unfold IngressGateway.rangeOrder. by vm_compute.
  - destruct Hone as (h & Hh & _); [reflexivity..|].
    exists h. rewrite Hh. simpl. f_equal.
Defined.

(** The example of the specification with records for the instances. *)
Example hostnameEndpoints_example :
  let nodes := [("dc1", "api", "10.0.0.1"); ("dc1", "api", "host.example")] in
  Proxycfg.hostnameEndpoints (string * string * string)
    (λ n, n.1.1) (λ n, n.1.2) (λ n _, (n.2, 8080%Z)) dottedQuad "dc1" nodes
  = ([("dc1", "api", "host.example")],
     [("service contains instances with mix of hostnames and IP addresses; only hostnames will be passed to Envoy",
       "dc1", "api")]).
Proof. reflexivity. Qed.

(** *** Correlation ids: [removeColonPrefix] and [watchUpstreamTarget] *)

(** The string has no byte [:]. *)
Definition noColon (s : string) : Prop :=
  ":"%char ∉ list_ascii_of_string s.

Lemma noColon_String (c : ascii) (s : string) :
  noColon (String c s) ↔ c ≠ ":"%char ∧ noColon s.
Proof.
  unfold noColon. simpl. rewrite not_elem_of_cons. naive_solver.
Qed.

Lemma prefix_colon (s : string) :
  String.prefix ":" s = true ↔ ∃ r, s = String ":" r.
Proof.
  rewrite prefix_correct. destruct s as [|c r]; simpl.
  - split; [done|]. by intros [r Hr].
  - split.
    + intros [= ->]. eauto.
    + intros [r' [= -> ->]]. by destruct r'.
Qed.

Lemma strings_Index_noColon (s : string) :
  noColon s → strings_Index s ":" = -1.
Proof.
  induction s as [|c s IH]; [done|].
  rewrite noColon_String. intros [Hc Hs].
  cbn [strings_Index].
  destruct (String.prefix ":" (String c s)) eqn:Hp.
  { apply prefix_colon in Hp as [r [= ]]. done. }
  rewrite (IH Hs). done.
Qed.

Lemma append_nil_l (x : string) : "" ++ x = x.
Proof. reflexivity. Qed.

Lemma append_String (c : ascii) (a x : string) :
  String c a ++ x = String c (a ++ x).
Proof. reflexivity. Qed.

Lemma append_assoc (a b c : string) : (a ++ b) ++ c = a ++ b ++ c.
Proof.
  induction a as [|x a IH]; [done|].
  by rewrite !append_String, IH.
Qed.

Lemma strings_Index_first (a b : string) :
  noColon a → strings_Index (a ++ ":" ++ b) ":" = len a.
Proof.
  induction a as [|c a IH].
  - intros _. rewrite append_nil_l, append_String, append_nil_l.
    cbn [strings_Index].
    by rewrite (proj2 (prefix_colon (String ":" b))) by eauto.
  - rewrite noColon_String. intros [Hc Ha].
    rewrite append_String.
    cbn [strings_Index].
    destruct (String.prefix ":" (String c (a ++ ":" ++ b))) eqn:Hp.
    { apply prefix_colon in Hp as [r [= ]]. done. }
    rewrite (IH Ha). unfold len. simpl String.length.
    destruct (Z.ltb_spec (Z.of_nat (String.length a)) 0); lia.
Qed.

(** A string has no colon or splits at its first one. *)
Lemma first_colon (s : string) :
  noColon s ∨ ∃ a b, s = a ++ ":" ++ b ∧ noColon a.
Proof.
  induction s as [|c s IH].
  - left. unfold noColon. simpl. apply not_elem_of_nil.
  - destruct (ascii_dec c ":") as [->|Hc].
    + right. exists "", s. split; [done|].
      unfold noColon. simpl. apply not_elem_of_nil.
    + destruct IH as [Hs|(a & b & -> & Ha)].
      * left. by apply noColon_String.
      * right. exists (String c a), b. split; [done|].
        by apply noColon_String.
Qed.

Lemma string_length_app (a b : string) :
  String.length (a ++ b) = (String.length a + String.length b)%nat.
Proof.
  induction a as [|c a IH]; [done|].
  rewrite append_String. simpl. by rewrite IH.
Qed.

Lemma substring_all (s : string) : substring 0 (String.length s) s = s.
Proof. induction s as [|c s IH]; simpl; [done|]. by rewrite IH. Qed.

Lemma substring_app_l (a x : string) :
  substring 0 (String.length a) (a ++ x) = a.
Proof.
  induction a as [|c a IH]; [by destruct x|].
  rewrite append_String. simpl. by rewrite IH.
Qed.

Lemma substring_app_r (a x : string) :
  substring (String.length a) (String.length x) (a ++ x) = x.
Proof.
  induction a as [|c a IH]; [apply substring_all|].
  rewrite append_String. simpl. done.
Qed.

Lemma slice_app_l (a x : string) : slice (a ++ x) 0 (len a) = a.
Proof.
  unfold slice, len. rewrite Z.sub_0_r, Nat2Z.id. apply substring_app_l.
Qed.

Lemma slice_app_r (a x : string) : slice (a ++ x) (len a) (len (a ++ x)) = x.
Proof.
  unfold slice, len. rewrite Nat2Z.id, string_length_app.
  replace (Z.to_nat _) with (String.length x) by lia.
  apply substring_app_r.
Qed.

Lemma removeColonPrefix_first (a b : string) :
  noColon a → removeColonPrefix (a ++ ":" ++ b) = (a, b, true).
Proof.
  intros Ha. unfold removeColonPrefix.
  rewrite (strings_Index_first a b Ha).
  destruct (Z.eqb_spec (len a) (-1)) as [H|_]; [unfold len in H; lia|].
  rewrite slice_app_l, <- append_assoc.
  replace (len a + 1)%Z with (len (a ++ ":")).
  2:{ unfold len. rewrite string_length_app. simpl. lia. }
  by rewrite slice_app_r.
Qed.

(** X6.  [removeColonPrefix] splits a string at its first colon: it returns
    [(a, b, true)] exactly when the string is [a], a colon and [b] with no
    colon in [a], and ["", "", false] exactly when the string has no
    colon. *)
Theorem removeColonPrefix_splits_at_first_colon (s a b : string) :
  (removeColonPrefix s = (a, b, true) ↔ s = a ++ ":" ++ b ∧ noColon a)
  ∧ (removeColonPrefix s = ("", "", false) ↔ noColon s).
Proof.
  split; split.
  - intros H. destruct (first_colon s) as [Hs|(a' & b' & -> & Ha')].
    + unfold removeColonPrefix in H.
      by rewrite (strings_Index_noColon s Hs) in H.
    + rewrite (removeColonPrefix_first a' b' Ha') in H.
      by injection H as -> ->.
  - intros [-> Ha]. by apply removeColonPrefix_first.
  - intros H. destruct (first_colon s) as [Hs|(a' & b' & -> & Ha')]; [done|].
    by rewrite (removeColonPrefix_first a' b' Ha') in H.
  - intros Hs. unfold removeColonPrefix.
    by rewrite (strings_Index_noColon s Hs).
Qed.

Lemma strings_TrimPrefix_app (p x : string) : strings_TrimPrefix (p ++ x) p = x.
Proof.
  unfold strings_TrimPrefix, strings_HasPrefix.
  rewrite (proj2 (prefix_correct p (p ++ x))) by apply substring_app_l.
  apply slice_app_r.
Qed.

Section UpstreamTargets.
Import ConnectProxy.

Variable Notify : World → Provider → string → error.
Context {Data CfgMap : Type}.
Implicit Types cp : configSnapshotConnectProxy Data CfgMap.

Local Abbreviation watchUpstreamTarget :=
  (watchUpstreamTarget Notify Data CfgMap).

(** X7.  The correlation id under which [watchUpstreamTarget] subscribes
    leads the update case [upstream-target:] back to the same entry: when
    the target id has no colon (the upstream id may have some), the call
    that succeeds adds one health subscription whose id has the prefix
    [upstream-target:] and is read back as that target and that upstream,
    and the cancel function of its new context is stored under
    [WatchedUpstreams[upstreamID][chainID]].  Nothing is cancelled. *)
Theorem upstream_target_id_round_trip (opts : targetWatchOpts) cp (w : World)
    cp' (w' : World) :
  watchUpstreamTarget opts cp w = (None, cp', w') →
  noColon (opts_chainID opts) →
  ∃ (id : string) (h : nat),
    subs w' = (subs w ++ [mkSub Health id h []])%list
    ∧ h = nextCtx w
    ∧ cancelled w' = cancelled w
    ∧ strings_HasPrefix id "upstream-target:" = true
    ∧ upstreamTargetOf id = inr (opts_chainID opts, opts_upstreamID opts)
    ∧ WatchedUpstreams Data CfgMap cp' !! opts_upstreamID opts
        ≫= (.!! opts_chainID opts) = Some h.
Proof.
  intros H Hc. unfold ConnectProxy.watchUpstreamTarget, watch in H.
  set (id := "upstream-target:" ++ opts_chainID opts ++ ":"
             ++ opts_upstreamID opts) in *.
  simpl in H.
  destruct (Notify _ Health id) as [e|]; [done|].
  destruct (WatchedUpstreams Data CfgMap cp !! opts_upstreamID opts)
    as [targets|] eqn:Ht; [|done].
  injection H as <- <-. exists id, (nextCtx w).
  split; [done|]. split; [done|]. split; [done|]. split; [|split].
  - unfold strings_HasPrefix. subst id.
    apply prefix_correct, substring_app_l.
  - unfold upstreamTargetOf. subst id.
    rewrite strings_TrimPrefix_app.
    by rewrite (removeColonPrefix_first _ _ Hc).
  - cbn [WatchedUpstreams set_WatchedUpstreams].
    rewrite lookup_insert_eq. simpl. by rewrite lookup_insert_eq.
Qed.

End UpstreamTargets.

(** The theorem at the target [db.default.dc1] of the upstream
    [prepared_query:db], whose id has a colon. *)
Lemma upstream_target_id_round_trip_witness :
  let opts := ConnectProxy.mkTargetWatchOpts "prepared_query:db"
                "db.default.dc1" "db" "" "dc1" "default" in
  let cp : ConnectProxy.configSnapshotConnectProxy () () :=
    ConnectProxy.mkCP () () ∅ ∅ {["prepared_query:db" := ∅]} ∅ ∅ ∅ ∅ in
  ∃ cp' w' id h,
    ConnectProxy.watchUpstreamTarget (λ _ _ _, None) () () opts cp emptyWorld
      = (None, cp', w')
    ∧ subs w' = [mkSub Health id h []]
    ∧ ConnectProxy.upstreamTargetOf id
      = inr ("db.default.dc1", "prepared_query:db").
Proof.
  intros opts cp.
  destruct (ConnectProxy.watchUpstreamTarget (λ _ _ _, None) () () opts cp
              emptyWorld) as [[e cp'] w'] eqn:Hrun.
  assert (He : e = None).
  { apply (f_equal (λ r, r.1.1)) in Hrun. simpl in Hrun. rewrite <- Hrun.
    by vm_compute. }
  subst e.
  destruct (upstream_target_id_round_trip (λ _ _ _, None) opts cp emptyWorld
              cp' w' Hrun) as (id & h & Hs & _ & _ & _ & Hid & _).
  - unfold noColon. vm_compute.
    intros Hin. repeat (apply elem_of_cons in Hin as [Hin|Hin]; [done|]).
    by apply elem_of_nil in Hin.
  - by exists cp', w', id, h.
Defined.

(** *** [copyProxyConfig], [newState] and [Changed] *)

Section Registration.

Context {CfgMap Rest ServiceAddress : Type}.
Variable zeroRest : Rest.
Variable copystructure_Copy :
  State.ConnectProxyConfig CfgMap Rest →
  string + option (State.ConnectProxyConfig CfgMap Rest).
Variable reflect_DeepEqual :
  State.ConnectProxyConfig CfgMap Rest →
  State.ConnectProxyConfig CfgMap Rest → bool.
Variable NamespaceOrDefault : string → string.
Variable UpstreamDestTypePreparedQuery : string.

Local Abbreviation copyProxyConfig :=
  (State.copyProxyConfig CfgMap Rest zeroRest copystructure_Copy
     NamespaceOrDefault UpstreamDestTypePreparedQuery).
Local Abbreviation Changed :=
  (State.Changed CfgMap Rest zeroRest copystructure_Copy reflect_DeepEqual
     NamespaceOrDefault UpstreamDestTypePreparedQuery).
Local Abbreviation newState :=
  (State.newState CfgMap Rest zeroRest copystructure_Copy
     NamespaceOrDefault UpstreamDestTypePreparedQuery ServiceAddress).
Local Abbreviation newServiceInstanceFromNodeService :=
  (State.newServiceInstanceFromNodeService CfgMap Rest zeroRest
     copystructure_Copy NamespaceOrDefault UpstreamDestTypePreparedQuery
     ServiceAddress).

(** Two upstreams that differ at most in the destination namespace. *)
Definition sameButNamespace (u0 u : Upstream CfgMap) : Prop :=
  DestinationType u = DestinationType u0
  ∧ DestinationName u = DestinationName u0
  ∧ Datacenter u = Datacenter u0
  ∧ LocalBindPort u = LocalBindPort u0
  ∧ IngressHosts u = IngressHosts u0
  ∧ Config u = Config u0
  ∧ MeshGateway u = MeshGateway u0.

(** X8.  When [copyProxyConfig] returns no error for a registration whose
    namespace defaults to a non-empty name, no upstream of the result other
    than a prepared query has an empty destination namespace.  The result is
    the copy made by [copystructure.Copy] but for that: the upstreams are as
    many and in the same order, each differs from the copied one at most in
    its namespace, and one that is a prepared query or has a namespace is
    the copied one. *)
Theorem copyProxyConfig_defaults_namespaces
    (ns : State.NodeService CfgMap Rest)
    (cfg : State.ConnectProxyConfig CfgMap Rest) :
  copyProxyConfig (Some ns) = (cfg, None) →
  NamespaceOrDefault (State.NS_EnterpriseMeta CfgMap Rest ns) ≠ "" →
  Forall (λ u, DestinationType u ≠ UpstreamDestTypePreparedQuery →
               DestinationNamespace u ≠ "")
    (State.ProxyUpstreams CfgMap Rest cfg)
  ∧ ∃ cfg0,
      copystructure_Copy (State.NS_Proxy CfgMap Rest ns) = inr (Some cfg0)
      ∧ State.ProxyRest CfgMap Rest cfg = State.ProxyRest CfgMap Rest cfg0
      ∧ Forall2
          (λ u0 u,
             sameButNamespace u0 u
             ∧ (DestinationType u0 = UpstreamDestTypePreparedQuery
                ∨ DestinationNamespace u0 ≠ "" → u = u0))
          (State.ProxyUpstreams CfgMap Rest cfg0)
          (State.ProxyUpstreams CfgMap Rest cfg).
Proof.
  unfold State.copyProxyConfig. intros H Hns.
  destruct (copystructure_Copy (State.NS_Proxy CfgMap Rest ns))
    as [err|[cfg0|]]; try done.
  injection H as <-. simpl.
  assert (Hdef : ∀ u0,
    let u := State.defaultNamespace CfgMap Rest NamespaceOrDefault
               UpstreamDestTypePreparedQuery ns u0 in
    sameButNamespace u0 u
    ∧ (DestinationType u0 = UpstreamDestTypePreparedQuery
       ∨ DestinationNamespace u0 ≠ "" → u = u0)
    ∧ (DestinationType u ≠ UpstreamDestTypePreparedQuery →
       DestinationNamespace u ≠ "")).
  { intros u0. unfold State.defaultNamespace, sameButNamespace.
    destruct (String.eqb (DestinationType u0) UpstreamDestTypePreparedQuery)
      eqn:Ht; simpl.
    - apply String.eqb_eq in Ht. done.
    - apply String.eqb_neq in Ht.
      destruct (String.eqb (DestinationNamespace u0) "") eqn:Hn; simpl.
      + apply String.eqb_eq in Hn. split; [done|]. split; [|done].
        by intros [?|?].
      + apply String.eqb_neq in Hn. done. }
  split.
  - apply Forall_forall. intros u Hu.
    apply list_elem_of_fmap in Hu as (u0 & -> & _). apply Hdef.
  - exists cfg0. split; [done|]. split; [done|].
    apply Forall2_fmap_r, Forall_Forall2_diag, Forall_forall.
    intros u0 _. split; apply Hdef.
Qed.

Lemma copyMap_id {V : Type} (m : gmap string V) : State.copyMap m = m.
Proof.
  unfold State.copyMap.
  induction m as [|k v m Hk Hfold IH] using map_first_key_ind; [done|].
  rewrite map_fold_insert_first_key by done. by rewrite IH.
Qed.

(** X9.  A state made by [newState] from a registration and a token has not
    changed with respect to that registration and that token, and has
    changed with respect to any other token (given that [reflect.DeepEqual]
    finds the stored proxy configuration equal to itself).  Its handler is
    the one of the registration's kind, which is none other than connect
    proxy or one of the three gateways, and its maps are those of the
    registration. *)
Theorem newState_has_not_Changed
    (ns : State.NodeService CfgMap Rest)
    (maps : State.serviceMaps ServiceAddress) (tok : string)
    (st : State.state CfgMap Rest ServiceAddress) :
  newState (Some (ns, maps)) tok = inr st →
  let i := State.state_serviceInstance CfgMap Rest ServiceAddress st in
  reflect_DeepEqual (State.proxyCfg CfgMap Rest i)
                    (State.proxyCfg CfgMap Rest i) = true →
  Changed i (Some ns) tok = (false, [])
  ∧ (∀ tok', tok' ≠ tok → (Changed i (Some ns) tok').1 = true)
  ∧ State.state_serviceMaps CfgMap Rest ServiceAddress st = maps
  ∧ State.NS_Kind CfgMap Rest ns ≠ ServiceKindTypical
  ∧ State.state_handler CfgMap Rest ServiceAddress st =
    match State.NS_Kind CfgMap Rest ns with
    | ServiceKindTerminatingGateway => State.handlerTerminatingGateway
    | ServiceKindMeshGateway => State.handlerMeshGateway
    | ServiceKindIngressGateway => State.handlerIngressGateway
    | _ => State.handlerConnectProxy
    end.
Proof.
  unfold State.newState, State.newServiceInstanceFromNodeService.
  change (fst <$> Some (ns, maps)) with (Some ns).
  destruct (copyProxyConfig (Some ns)) as [cfg [err|]] eqn:Hcopy; [done|].
  rewrite !copyMap_id.
  intros Hst Heq.
  set (i := State.state_serviceInstance CfgMap Rest ServiceAddress st) in *.
  assert (Hi : i = State.mkServiceInstance CfgMap Rest
                 (State.NS_Kind CfgMap Rest ns) (State.NS_Service CfgMap Rest ns)
                 (State.CompoundServiceID CfgMap Rest ns)
                 (State.NS_Address CfgMap Rest ns) (State.NS_Port CfgMap Rest ns)
                 cfg tok
               ∧ State.state_serviceMaps CfgMap Rest ServiceAddress st = maps
               ∧ State.NS_Kind CfgMap Rest ns ≠ ServiceKindTypical
               ∧ State.state_handler CfgMap Rest ServiceAddress st =
                 match State.NS_Kind CfgMap Rest ns with
                 | ServiceKindTerminatingGateway => State.handlerTerminatingGateway
                 | ServiceKindMeshGateway => State.handlerMeshGateway
                 | ServiceKindIngressGateway => State.handlerIngressGateway
                 | _ => State.handlerConnectProxy
                 end).
  { subst i. destruct (State.NS_Kind CfgMap Rest ns); try done;
      injection Hst as <-; simpl; by destruct maps. }
  destruct Hi as (Hi & Hmaps & Hkind & Hh).
  split; [|split; [|done]].
  - unfold State.Changed. rewrite Hcopy. rewrite Hi in Heq |- *. simpl in *.
    rewrite Heq, !bool_decide_eq_true_2, !String.eqb_refl, Z.eqb_refl by done.
    done.
  - intros tok' Hne. unfold State.Changed. rewrite Hcopy. rewrite Hi. simpl.
    destruct (String.eqb_spec tok tok') as [->|_]; [done|].
    simpl. by rewrite !orb_true_r.
Qed.

End Registration.

(** A registration of a connect proxy with two upstreams, one without a
    namespace; the copy returns its argument and every namespace defaults to
    [default]. *)
Definition webProxy : State.NodeService () () :=
  State.mkNodeService () () ServiceKindConnectProxy "web-sidecar-proxy"
    "web-sidecar-proxy" "10.0.0.1" 21000
    (State.mkProxyCfg () ()
       [mkUpstream "" "" "db" "" 9191 [] () "";
        mkUpstream "prepared_query" "" "geo-cache" "" 9292 [] () ""] ())
    "default".

Definition copyAsIs (c : State.ConnectProxyConfig () ())
    : string + option (State.ConnectProxyConfig () ()) := inr (Some c).

Definition deepEqual (a b : State.ConnectProxyConfig () ()) : bool :=
  bool_decide
    ((λ u : Upstream (), (DestinationType u, DestinationNamespace u,
                          DestinationName u, Datacenter u, LocalBindPort u,
                          IngressHosts u, MeshGateway u))
       <$> State.ProxyUpstreams () () a
     = (λ u : Upstream (), (DestinationType u, DestinationNamespace u,
                            DestinationName u, Datacenter u, LocalBindPort u,
                            IngressHosts u, MeshGateway u))
       <$> State.ProxyUpstreams () () b).

Lemma copyProxyConfig_defaults_namespaces_witness :
  ∃ cfg,
    State.copyProxyConfig () () () copyAsIs (λ _, "default") "prepared_query"
      (Some webProxy) = (cfg, None)
    ∧ Forall (λ u, DestinationType u ≠ "prepared_query" →
                   DestinationNamespace u ≠ "")
        (State.ProxyUpstreams () () cfg).
Proof.
  eexists. split; [vm_compute; reflexivity|].
  eapply (copyProxyConfig_defaults_namespaces () copyAsIs (λ _, "default")
            "prepared_query" webProxy); [vm_compute; reflexivity|done].
Defined.

Lemma newState_has_not_Changed_witness :
  ∃ st,
    State.newState () () () copyAsIs (λ _, "default") "prepared_query" ()
      (Some (webProxy, State.mkServiceMaps () ∅ ∅)) "token" = inr st
    ∧ State.Changed () () () copyAsIs deepEqual (λ _, "default")
        "prepared_query" (State.state_serviceInstance () () () st)
        (Some webProxy) "token" = (false, []).
Proof.
  eexists. split; [vm_compute; reflexivity|].
  eapply (newState_has_not_Changed () copyAsIs deepEqual (λ _, "default")
            "prepared_query" webProxy (State.mkServiceMaps () ∅ ∅) "token");
    [vm_compute; reflexivity|by vm_compute].
Defined.

(** *** [hostnameEndpoints] on its own result, and the order of the DNS SANs *)

Section HostnameEndpointsAgain.

Context {CheckServiceNode : Type}.
Variable Node_Datacenter : CheckServiceNode → string.
Variable CompoundServiceName_String : CheckServiceNode → string.
Variable BestAddress : CheckServiceNode → bool → string * Z.
Variable ParseIP : string → bool.

Local Abbreviation hostnameEndpoints :=
  (hostnameEndpoints CheckServiceNode Node_Datacenter
     CompoundServiceName_String BestAddress ParseIP).
Local Abbreviation isIP := (isIP Node_Datacenter BestAddress ParseIP).

Lemma hostnameEndpoints_eq localDC (l : list CheckServiceNode) :
  hostnameEndpoints localDC l =
  (filter (λ n, isIP localDC n = false) l,
   if existsb (λ n, negb (isIP localDC n)) l && existsb (isIP localDC) l
   then match l with
        | n0 :: _ =>
            [("service contains instances with mix of hostnames and IP addresses; only hostnames will be passed to Envoy",
              Node_Datacenter n0, CompoundServiceName_String n0)]
        | [] => []
        end
   else []).
Proof. unfold Proxycfg.hostnameEndpoints. by rewrite classify_spec. Qed.

Lemma existsb_false {A : Type} (f : A → bool) (l : list A) :
  (∀ x, x ∈ l → f x = false) → existsb f l = false.
Proof.
  induction l as [|x l IH]; intros H; simpl; [done|].
  rewrite (H x) by apply list_elem_of_here. apply IH.
  intros y Hy. apply H. by apply list_elem_of_further.
Qed.

(** X10.  The result of [hostnameEndpoints] is a sublist of its input that
    [hostnameEndpoints] returns as it is, without a warning.  An input in
    which no instance has an IP address comes back unchanged, one in which
    every instance has an IP address gives the empty list, and neither logs
    a warning. *)
Theorem hostnameEndpoints_idempotent localDC (nodes : list CheckServiceNode) :
  let r := hostnameEndpoints localDC nodes in
  hostnameEndpoints localDC r.1 = (r.1, [])
  ∧ r.1 `sublist_of` nodes
  ∧ ((∀ n, n ∈ nodes → isIP localDC n = false) → r = (nodes, []))
  ∧ ((∀ n, n ∈ nodes → isIP localDC n = true) → r = ([], [])).
Proof.
  intros r. subst r. rewrite !hostnameEndpoints_eq. cbn [fst snd].
  split; [|split; [|split]].
  - rewrite (existsb_false (isIP localDC)).
    2:{ intros n Hn. by apply list_elem_of_filter in Hn as [? _]. }
    rewrite andb_false_r. f_equal.
    apply list_filter_filter_l. naive_solver.
  - apply sublist_filter.
  - intros Hall. rewrite (existsb_false (isIP localDC)) by done.
    rewrite andb_false_r. f_equal.
    clear -Hall. induction nodes as [|n l IH]; [done|].
    rewrite filter_cons_True by (apply Hall, list_elem_of_here).
    f_equal. apply IH. intros m Hm. apply Hall. by apply list_elem_of_further.
  - intros Hall. rewrite (existsb_false (λ n, negb (isIP localDC n))).
    2:{ intros n Hn. by rewrite (Hall n Hn). }
    simpl. f_equal.
    clear -Hall. induction nodes as [|n l IH]; [done|].
    rewrite filter_cons_False.
    2:{ rewrite (Hall n) by apply list_elem_of_here. done. }
    apply IH. intros m Hm. apply Hall. by apply list_elem_of_further.
Qed.

End HostnameEndpointsAgain.

Section IngressSANs.
Import IngressGateway.

Context {CfgMap : Type}.
Variable sourceDatacenter Domain AltDomain : string.
Implicit Types ig : configSnapshotIngressGateway CfgMap.

Local Abbreviation generateIngressDNSSANs :=
  (generateIngressDNSSANs sourceDatacenter Domain AltDomain CfgMap).
Local Abbreviation namesFor := (namesFor sourceDatacenter Domain AltDomain).

Lemma length_namesFor (ns : string) :
  length (namesFor ns) = if String.eqb AltDomain "" then 2%nat else 4%nat.
Proof. unfold IngressGateway.namesFor. by destruct (String.eqb AltDomain ""). Qed.

Lemma length_bind_namesFor (order : list string) :
  length (order ≫= namesFor)
  = ((if String.eqb AltDomain "" then 2 else 4) * length order)%nat.
Proof.
  induction order as [|ns order IH]; [simpl; lia|].
  rewrite bind_cons, length_app, IH, length_namesFor.
  simpl length. destruct (String.eqb AltDomain ""); lia.
Qed.

(** X11.  The order in which Go visits the map of namespaces changes the
    DNS SANs of an ingress gateway only by a permutation: for two orders of
    visit the lists are permutations of each other.  With TLS disabled the
    list is empty; with TLS enabled it ends with the configured hosts, in
    their order, after two names for each namespace of the upstreams, or
    four when the alt domain is not empty. *)
Theorem generateIngressDNSSANs_any_order (order1 order2 : list string) ig :
  rangeOrder CfgMap ig order1 →
  rangeOrder CfgMap ig order2 →
  generateIngressDNSSANs order1 ig ≡ₚ generateIngressDNSSANs order2 ig
  ∧ (TLSEnabled CfgMap ig = false → generateIngressDNSSANs order1 ig = [])
  ∧ (TLSEnabled CfgMap ig = true →
     ∃ names,
       generateIngressDNSSANs order1 ig = (names ++ Hosts CfgMap ig)%list
       ∧ length names
         = ((if String.eqb AltDomain "" then 2 else 4)
            * size (namespaces CfgMap ig))%nat).
Proof.
  unfold rangeOrder, IngressGateway.generateIngressDNSSANs.
  intros H1 H2. split; [|split].
  - destruct (TLSEnabled CfgMap ig); simpl; [|done].
    apply Permutation_app_tail. by rewrite H1, H2.
  - by intros ->.
  - intros ->. simpl. eexists. split; [done|].
    rewrite length_bind_namesFor. by rewrite H1.
Qed.

End IngressSANs.

(** A gateway with upstreams in the namespaces [web] and [default]. *)
Definition twoNamespaces : IngressGateway.configSnapshotIngressGateway () :=
  IngressGateway.mkIG () true true ["api.example.com"] true
    {[ ("http", 8080%Z) :=
         [mkUpstream "" "web" "api" "" 8080%Z [] () "";
          mkUpstream "" "default" "db" "" 8080%Z [] () ""] ]}
    ∅ None.

Lemma generateIngressDNSSANs_any_order_witness :
  IngressGateway.generateIngressDNSSANs "dc1" "consul" "" ()
    ["web"; "default"] twoNamespaces
  ≡ₚ IngressGateway.generateIngressDNSSANs "dc1" "consul" "" ()
       ["default"; "web"] twoNamespaces.
Proof.
  apply (generateIngressDNSSANs_any_order "dc1" "consul" ""
           ["web"; "default"] ["default"; "web"] twoNamespaces).
  - unfold IngressGateway.rangeOrder. vm_compute.
    first [reflexivity | apply perm_swap].
  - unfold IngressGateway.rangeOrder. vm_compute.
    first [reflexivity | apply perm_swap].
Defined.

(** *** The loop of [run]: the buffered snapshot and the coalescing timer *)

Section RunLoop.
Import State.

Context {Snap Heap Update : Type}.
Variable handleUpdate : Update → Snap → Heap → error * Snap * Heap.
Variable Valid : Snap → bool.
Variable Clone : Snap → Heap → string + Snap * Heap.
Implicit Types st : runState Snap Heap.

Local Abbreviation step := (State.step handleUpdate Valid Clone).
Local Abbreviation run := (State.run handleUpdate Valid Clone).
Local Abbreviation onUpdate := (State.onUpdate handleUpdate Valid).

(** [s.snapCh] holds at most the one snapshot it has room for, and is closed
    exactly when [run] has returned. *)
Definition buffered st : Prop :=
  (length (snapCh st) ≤ 1)%nat ∧ snapChClosed st = stopped st.

Lemma buffered_step (e : event Update) st st' :
  buffered st → step e st = Some st' → buffered st'.
Proof.
  intros [Hlen Hcl]. unfold State.step, buffered.
  destruct e as [|u| | |].
  - destruct (stopped st); [done|]. by intros [= <-].
  - destruct (stopped st) eqn:Hs; [done|]. intros [= <-].
    unfold State.onUpdate.
    destruct (handleUpdate u (snap st) (heap st)) as [[[e|] sn] h].
    + simpl. by rewrite Hs.
    + unfold afterUpdate, set_snap, armIfNil. simpl.
      destruct (Valid sn); [|simpl; by rewrite Hs].
      destruct (coalesceTimer st); simpl; by rewrite Hs.
  - destruct (stopped st) eqn:Hs; [done|].
    destruct (sendPending st) as [|n]; [done|]. intros [= <-].
    unfold State.onSendCh. simpl.
    destruct (Clone (snap st) (heap st)) as [msg|[c h]];
      [simpl; by rewrite Hs|].
    unfold set_heap, set_snap, armIfNil. simpl.
    destruct (snapCh st) eqn:Hch; [simpl; by rewrite Hs|].
    destruct (coalesceTimer st); simpl; rewrite ?Hch, Hs; done.
  - destruct (stopped st) eqn:Hs; [done|]. intros [= <-].
    unfold State.onRequest. destruct (negb _); [simpl; by rewrite Hs|].
    destruct (Clone (snap st) (heap st)) as [msg|[c h]]; simpl; by rewrite Hs.
  - destruct (snapCh st) as [|x rest]; [done|]. intros [= <-].
    simpl in *. split; [lia|done].
Qed.

Lemma buffered_run (es : list (event Update)) st st' :
  buffered st → run es st = Some st' → buffered st'.
Proof.
  revert st. induction es as [|e es IH]; intros st Hinv; simpl.
  - by intros [= <-].
  - destruct (step e st) as [st1|] eqn:Hstep; [|done].
    apply IH. by eapply buffered_step.
Qed.

(** X12.  In every state that [run] reaches from the one [Watch] starts it
    in, whatever the events, [s.snapCh] holds at most one snapshot and is
    closed exactly when [run] has returned, at most one timer is
    outstanding, and [coalesceTimer] is not nil while one is. *)
Theorem run_keeps_one_snapshot_and_one_timer (sn : Snap) (h : Heap)
    (es : list (event Update)) st :
  run es (initRun sn h) = Some st →
  (length (snapCh st) ≤ 1)%nat
  ∧ (snapChClosed st = true ↔ stopped st = true)
  ∧ (sendPending st ≤ 1)%nat
  ∧ (sendPending st = 1%nat → coalesceTimer st ≠ None).
Proof.
  intros Hrun.
  destruct (buffered_run es (initRun sn h) st) as [Hlen Hcl]; [|done|].
  { split; simpl; [lia|done]. }
  destruct (oneTimer_run handleUpdate Valid Clone es (initRun sn h) st)
    as [Hp Ht]; [apply oneTimer_init|done|].
  rewrite Hcl. done.
Qed.

(** One update: nothing is sent, and a timer is armed only when none is
    set, the update is handled without error and the snapshot is valid. *)
Lemma onUpdate_arms (u : Update) st :
  let st1 := onUpdate u st in
  snapCh st1 = snapCh st
  ∧ stopped st1 = stopped st
  ∧ ((timersMade st1 = timersMade st
      ∧ coalesceTimer st1 = coalesceTimer st
      ∧ sendPending st1 = sendPending st)
     ∨ (coalesceTimer st = None
        ∧ timersMade st1 = (timersMade st ++ [coalesceTimeout])%list
        ∧ coalesceTimer st1 ≠ None
        ∧ sendPending st1 = S (sendPending st)
        ∧ (handleUpdate u (snap st) (heap st)).1.1 = None
        ∧ Valid (snap st1) = true)).
Proof.
  unfold State.onUpdate.
  destruct (handleUpdate u (snap st) (heap st)) as [[[e|] sn] h]; simpl.
  - split; [done|]. split; [done|]. by left.
  - unfold afterUpdate, set_snap, armIfNil. simpl.
    destruct (Valid sn) eqn:Hv; simpl.
    + destruct (coalesceTimer st) eqn:Ht; simpl.
      * split; [done|]. split; [done|]. by left.
      * split; [done|]. split; [done|]. by right.
    + split; [done|]. split; [done|]. by left.
Qed.

(** X13.  Updates are coalesced: a burst of updates, however long, with no
    other event between them, sends no snapshot and arms at most one timer,
    for [coalesceTimeout]; it arms none when a timer is already set.  The
    loop takes every update of the burst. *)
Theorem updates_coalesce (us : list Update) st :
  stopped st = false →
  ∃ st',
    run (Inbound <$> us) st = Some st'
    ∧ stopped st' = false
    ∧ snapCh st' = snapCh st
    ∧ (timersMade st' = timersMade st
       ∨ timersMade st' = (timersMade st ++ [coalesceTimeout])%list)
    ∧ (coalesceTimer st ≠ None →
       timersMade st' = timersMade st ∧ sendPending st' = sendPending st).
Proof.
  revert st. induction us as [|u us IH]; intros st Hst; simpl.
  { exists st. split; [done|]. split; [done|]. split; [done|].
    split; [by left|done]. }
  rewrite Hst.
  destruct (onUpdate_arms u st) as (Hch & Hstop & Harm).
  destruct (IH (onUpdate u st)) as (st' & Hrun & Hst' & Hch' & Htm & Hset).
  { by rewrite Hstop. }
  exists st'. split; [done|]. split; [done|]. split; [congruence|].
  destruct Harm as [(Ht & Hc & Hp)|(Hnone & Ht & Hc & Hp & _)].
  - rewrite Ht in Htm, Hset. rewrite Hc, Hp in Hset. done.
  - destruct (Hset Hc) as [Ht' Hp']. split.
    + right. congruence.
    + intros Hsome. by rewrite Hnone in Hsome.
Qed.

End RunLoop.

(** The theorem at a run that takes two updates, fires the timer, takes a
    third update and is cancelled. *)
Lemma run_keeps_one_snapshot_and_one_timer_witness :
  ∃ st,
    State.run bump (λ _, true) copyNat
      [State.Inbound (); State.Inbound (); State.SendCh; State.Inbound ();
       State.CtxDone]
      (State.initRun 0%nat ()) = Some st
    ∧ (length (State.snapCh st) ≤ 1)%nat.
Proof.
  eexists. split; [vm_compute; reflexivity|].
  eapply (run_keeps_one_snapshot_and_one_timer bump (λ _, true) copyNat
            0%nat ()
            [State.Inbound (); State.Inbound (); State.SendCh;
             State.Inbound (); State.CtxDone]).
  vm_compute. reflexivity.
Defined.

(** The theorem at a burst of three updates in the initial state. *)
Lemma updates_coalesce_witness :
  ∃ st',
    State.run bump (λ _, true) copyNat
      [State.Inbound (); State.Inbound (); State.Inbound ()]
      (State.initRun 0%nat ()) = Some st'
    ∧ State.snapCh st' = [].
Proof.
  destruct (updates_coalesce bump (λ _, true) copyNat [(); (); ()]
              (State.initRun 0%nat ()) eq_refl) as (st' & Hrun & _ & Hch & _).
  by exists st'.
Defined.

(** *** The terminating gateway: the same services delivered again *)

Section TerminatingGatewayAgain.
Import TerminatingGateway.

Variable Notify : World → Provider → string → error.
Variable SN_String : ServiceName → string.
Context {Data : Type}.
Implicit Types tg : configSnapshotTerminatingGateway Data.
Implicit Types m : gmap ServiceName nat.

Local Abbreviation watchIfMissing := (watchIfMissing Notify SN_String).
Local Abbreviation watchGatewayService :=
  (watchGatewayService Notify SN_String Data).
Local Abbreviation watchGatewayServices :=
  (watchGatewayServices Notify SN_String Data).
Local Abbreviation handleGatewayServices :=
  (handleGatewayServices Notify SN_String Data).

Local Arguments keepListed : simpl never.
Local Arguments dropCancelled : simpl never.
Local Arguments unlisted : simpl never.

(** [snap.TerminatingGateway.GatewayServices[svc.Service] = svc] over the
    payload. *)
Definition record (gs : gmap ServiceName GatewayService)
    (services : list GatewayService) : gmap ServiceName GatewayService :=
  foldl (λ acc svc, <[Service svc := svc]> acc) gs services.

Definition withGatewayServices tg (gs : gmap ServiceName GatewayService)
    (hs : gmap ServiceName Data) : configSnapshotTerminatingGateway Data :=
  mkTG Data (WatchedServices Data tg) (WatchedIntentions Data tg)
    (Intentions Data tg) (WatchedLeaves Data tg) (ServiceLeaves Data tg)
    (WatchedConfigs Data tg) (ServiceConfigs Data tg)
    (WatchedResolvers Data tg) (ServiceResolvers Data tg)
    (ServiceResolversSet Data tg) (ServiceGroups Data tg) gs hs.

Lemma watchGatewayService_records (svc : GatewayService) tg (w : World) :
  GatewayServices Data (watchGatewayService svc tg w).1.2
  = <[Service svc := svc]> (GatewayServices Data tg).
Proof.
  unfold TerminatingGateway.watchGatewayService.
  destruct (watchIfMissing (WatchedServices Data tg) _ _ _ _ w)
    as [[[e|] ws] w1]; [done|].
  destruct (watchIfMissing (WatchedIntentions Data tg) _ _ _ _ w1)
    as [[[e|] wi] w2]; [done|].
  destruct (watchIfMissing (WatchedLeaves Data tg) _ _ _ _ w2)
    as [[[e|] wl] w3]; [done|].
  destruct (watchIfMissing (WatchedConfigs Data tg) _ _ _ _ w3)
    as [[[e|] wc] w4]; [done|].
  by destruct (watchIfMissing (WatchedResolvers Data tg) _ _ _ _ w4)
    as [[[e|] wr] w5].
Qed.

Lemma watchGatewayServices_records (services : list GatewayService)
    (svcMap : gset ServiceName) tg (w : World) (svcMap' : gset ServiceName)
    tg' (w' : World) :
  watchGatewayServices services svcMap tg w = (None, svcMap', tg', w') →
  GatewayServices Data tg' = record (GatewayServices Data tg) services.
Proof.
  revert svcMap tg w.
  induction services as [|svc rest IH]; intros svcMap tg w; simpl.
  - by intros [= _ <- _].
  - pose proof (watchGatewayService_records svc tg w) as Hrec.
    destruct (watchGatewayService svc tg w) as [[[e|] tg1] w1]; [done|].
    intros Hrest. apply IH in Hrest. simpl in Hrec. by rewrite Hrest, Hrec.
Qed.

(** A service with all five watches: the loop body subscribes nothing. *)
Lemma watchGatewayService_watched (svc : GatewayService) tg (w : World) :
  (∀ k, Service svc ∈ dom (watched k tg)) →
  watchGatewayService svc tg w
  = (None,
     withGatewayServices tg (<[Service svc := svc]> (GatewayServices Data tg))
       (HostnameServices Data tg),
     w).
Proof.
  intros Hall. unfold TerminatingGateway.watchGatewayService,
    TerminatingGateway.watchIfMissing.
  pose proof (Hall ExternalService) as [h1 H1]%elem_of_dom.
  pose proof (Hall ServiceIntentions) as [h2 H2]%elem_of_dom.
  pose proof (Hall ServiceLeaf) as [h3 H3]%elem_of_dom.
  pose proof (Hall ServiceConfig) as [h4 H4]%elem_of_dom.
  pose proof (Hall ServiceResolver) as [h5 H5]%elem_of_dom.
  simpl in H1, H2, H3, H4, H5. by rewrite H1, H2, H3, H4, H5.
Qed.

Lemma watchGatewayServices_watched (services : list GatewayService)
    (svcMap : gset ServiceName) tg (w : World) :
  (∀ k svc, svc ∈ services → Service svc ∈ dom (watched k tg)) →
  watchGatewayServices services svcMap tg w
  = (None, list_to_set (Service <$> services) ∪ svcMap,
     withGatewayServices tg (record (GatewayServices Data tg) services)
       (HostnameServices Data tg),
     w).
Proof.
  revert svcMap tg.
  induction services as [|svc rest IH]; intros svcMap tg Hall.
  - simpl. rewrite union_empty_l_L. by destruct tg.
  - cbn [TerminatingGateway.watchGatewayServices].
    rewrite watchGatewayService_watched.
    2:{ intros k. apply Hall, list_elem_of_here. }
    rewrite IH.
    2:{ intros k svc' Hin.
        specialize (Hall k svc' (list_elem_of_further _ _ _ Hin)).
        by destruct k. }
    simpl. do 3 f_equal. set_solver.
Qed.

Lemma keepListed_all {V : Type} (S : gset ServiceName)
    (m : gmap ServiceName V) :
  dom m ⊆ S → keepListed S m = m.
Proof.
  intros Hsub. apply map_eq. intros sn. rewrite lookup_keepListed.
  destruct (decide (sn ∈ S)) as [|Hout]; [done|].
  symmetry. apply not_elem_of_dom. set_solver.
Qed.

Lemma keepListed_twice {V : Type} (S : gset ServiceName)
    (m : gmap ServiceName V) :
  keepListed S (keepListed S m) = keepListed S m.
Proof.
  apply keepListed_all. rewrite (dom_keepListed SN_String). set_solver.
Qed.

Lemma unlisted_none (S : gset ServiceName) m :
  dom m ⊆ S → unlisted S m = ∅.
Proof.
  intros Hsub. apply map_empty. intros sn.
  destruct (unlisted S m !! sn) as [h|] eqn:Hl; [|done].
  apply lookup_unlisted in Hl as [Hm Hout].
  apply elem_of_dom_2 in Hm. set_solver.
Qed.

Lemma dropCancelled_none {V : Type} (mirror : gmap ServiceName V) :
  dropCancelled ∅ mirror = mirror.
Proof.
  unfold dropCancelled. apply map_filter_id. intros sn v _. simpl.
  rewrite dom_empty_L. set_solver.
Qed.

Lemma cancelGone_none (msg : string) (w : World) : cancelGone msg ∅ w = w.
Proof.
  unfold cancelGone, cancelAll. rewrite map_to_list_empty. simpl.
  rewrite app_nil_r. by destruct w.
Qed.

(** The clean-up loops when no watch is for a service that is not listed. *)
Lemma cleanUp_settled (S : gset ServiceName) tg (w : World) :
  (∀ k, dom (watched k tg) ⊆ S) →
  cleanUp Data S tg w
  = (withGatewayServices tg (keepListed S (GatewayServices Data tg))
       (keepListed S (HostnameServices Data tg)),
     w).
Proof.
  intros Hall. unfold cleanUp. cbv zeta.
  rewrite !(unlisted_none S) by
    first [apply (Hall ExternalService) | apply (Hall ServiceIntentions)
          | apply (Hall ServiceLeaf) | apply (Hall ServiceConfig)
          | apply (Hall ServiceResolver)].
  rewrite !dropCancelled_none, !cancelGone_none.
  rewrite !(keepListed_all S (V:=nat)) by
    first [apply (Hall ExternalService) | apply (Hall ServiceIntentions)
          | apply (Hall ServiceLeaf) | apply (Hall ServiceConfig)
          | apply (Hall ServiceResolver)].
  done.
Qed.

Lemma record_lookup_other (services : list GatewayService)
    (gs : gmap ServiceName GatewayService) (sn : ServiceName) :
  sn ∉ Service <$> services → record gs services !! sn = gs !! sn.
Proof.
  revert gs. induction services as [|svc rest IH]; intros gs Hout; [done|].
  rewrite fmap_cons, not_elem_of_cons in Hout. destruct Hout as [Hne Hout].
  unfold record in *. simpl. rewrite IH by done.
  by rewrite lookup_insert_ne.
Qed.

(** What is recorded for a delivered service does not depend on what was
    recorded before. *)
Lemma record_lookup_delivered (services : list GatewayService)
    (gs gs' : gmap ServiceName GatewayService) (sn : ServiceName) :
  sn ∈ Service <$> services →
  record gs services !! sn = record gs' services !! sn.
Proof.
  revert gs gs'. induction services as [|svc rest IH]; intros gs gs' Hin.
  { by apply elem_of_nil in Hin. }
  unfold record in *. simpl.
  destruct (decide (sn ∈ Service <$> rest)) as [Hrest|Hrest].
  - by apply IH.
  - rewrite fmap_cons in Hin. apply elem_of_cons in Hin as [->|]; [|done].
    pose proof (record_lookup_other rest) as Ho. unfold record in Ho.
    rewrite !Ho by done. by rewrite !lookup_insert_eq.
Qed.

Lemma handleGatewayServices_again (services : list GatewayService) tg
    (w : World) tg1 (w1 : World) :
  handleGatewayServices services tg w = (None, tg1, w1) →
  handleGatewayServices services tg1 w1 = (None, tg1, w1).
Proof.
  unfold TerminatingGateway.handleGatewayServices.
  destruct (watchGatewayServices services ∅ tg w)
    as [[[[e|] svcMap] tg0] w0] eqn:Hloop; [done|].
  pose proof (watchGatewayServices_records _ _ _ _ _ _ _ Hloop) as Hrec.
  apply (watchGatewayServices_opened Notify SN_String) in Hloop
    as (HS & new & Hsubs & Hcan & Hopened & Hkept).
  rewrite union_empty_r_L in HS. subst svcMap.
  set (S := list_to_set (Service <$> services) : gset ServiceName) in *.
  pose proof (cleanUp_spec SN_String S tg0 w0) as (_ & _ & Hdom & _).
  destruct (cleanUp Data S tg0 w0) as [tg1' w1'] eqn:Hclean.
  intros [= <- <-]. simpl in Hdom.
  assert (Hgs : GatewayServices Data tg1'
                = keepListed S (record (GatewayServices Data tg) services)).
  { apply (f_equal (λ r, GatewayServices Data r.1)) in Hclean.
    simpl in Hclean. by rewrite <- Hclean, Hrec. }
  assert (Hhs : HostnameServices Data tg1'
                = keepListed S (HostnameServices Data tg0)).
  { apply (f_equal (λ r, HostnameServices Data r.1)) in Hclean.
    simpl in Hclean. by rewrite <- Hclean. }
  assert (Hall : ∀ k, dom (watched k tg1') = S).
  { intros k. rewrite Hdom. destruct (Hopened k) as (-> & _). set_solver. }
  rewrite watchGatewayServices_watched.
  2:{ intros k svc Hin. rewrite Hall. subst S.
      apply elem_of_list_to_set, list_elem_of_fmap. eauto. }
  rewrite union_empty_r_L. fold S.
  rewrite cleanUp_settled.
  2:{ intros k. specialize (Hall k). destruct k; simpl in *; by rewrite Hall. }
  f_equal. f_equal.
  unfold withGatewayServices. simpl.
  assert (Hgs' : keepListed S (record (GatewayServices Data tg1') services)
                 = GatewayServices Data tg1').
  { rewrite Hgs. apply map_eq. intros sn. rewrite !lookup_keepListed.
    destruct (decide (sn ∈ S)) as [Hin|]; [|done].
    apply record_lookup_delivered. subst S.
    by apply elem_of_list_to_set in Hin. }
  assert (Hhs' : keepListed S (HostnameServices Data tg1')
                 = HostnameServices Data tg1').
  { rewrite Hhs. apply keepListed_twice. }
  rewrite Hgs', Hhs'. by destruct tg1'.
Qed.

(** X14.  Handling a [gateway-services] update is idempotent: when the
    terminating gateway has handled one without error, handling an update
    with the same services again returns no error, subscribes and cancels
    nothing, logs nothing and leaves the snapshot as it is. *)
Theorem gateway_services_idempotent
    (otherCases : UpdateEvent → configSnapshotTerminatingGateway Data →
                  World → error * configSnapshotTerminatingGateway Data * World)
    (u : UpdateEvent) (services : list GatewayService) tg (w : World)
    tg1 (w1 : World) :
  Err u = None →
  CorrelationID u = "gateway-services" →
  Result u = PIndexedGatewayServices services →
  handleUpdate Notify SN_String Data otherCases u tg w = (None, tg1, w1) →
  handleUpdate Notify SN_String Data otherCases u tg1 w1 = (None, tg1, w1).
Proof.
  intros Herr Hid Hres. unfold handleUpdate. rewrite Herr, Hid, Hres.
  rewrite decide_True by done. apply handleGatewayServices_again.
Qed.

Lemma lookup_dropCancelled_other {V : Type} (gone : gmap ServiceName nat)
    (mirror : gmap ServiceName V) (sn : ServiceName) :
  sn ∉ dom gone → dropCancelled gone mirror !! sn = mirror !! sn.
Proof.
  intros Hout. unfold dropCancelled.
  destruct (mirror !! sn) as [v|] eqn:Hm.
  - by apply map_lookup_filter_Some.
  - apply map_lookup_filter_None. by left.
Qed.

(** The loop leaves the watches of the services it is not given. *)
Lemma opened_other k (S : gset ServiceName) m m' (new : list Sub)
    (sn : ServiceName) :
  opened SN_String k S m m' new → sn ∉ S → m' !! sn = m !! sn.
Proof.
  intros (Hdom & Hkeep & _) Hout.
  destruct (m !! sn) as [h|] eqn:Hm; [by apply Hkeep|].
  apply not_elem_of_dom. rewrite Hdom. apply not_elem_of_dom in Hm.
  set_solver.
Qed.

(** X23.  A [gateway-services] update that the terminating gateway handles
    without error loses nothing else: the state mirrored from a watch
    (intentions, leaf, service config, resolver and its set flag, service
    groups) is unchanged for every service but those that had that watch
    and are not delivered, and the hostname services of the delivered
    services are unchanged.  The only cancel functions called are those of
    watches of services that are not delivered. *)
Theorem gateway_services_keeps_the_rest
    (otherCases : UpdateEvent → configSnapshotTerminatingGateway Data →
                  World → error * configSnapshotTerminatingGateway Data * World)
    (u : UpdateEvent) (services : list GatewayService) tg (w : World)
    tg' (w' : World) :
  Err u = None →
  CorrelationID u = "gateway-services" →
  Result u = PIndexedGatewayServices services →
  handleUpdate Notify SN_String Data otherCases u tg w = (None, tg', w') →
  let delivered : gset ServiceName := list_to_set (Service <$> services) in
  let dropped k sn := sn ∉ delivered ∧ is_Some (watched k tg !! sn) in
  (∀ sn, ¬ dropped ServiceIntentions sn →
     Intentions Data tg' !! sn = Intentions Data tg !! sn)
  ∧ (∀ sn, ¬ dropped ServiceLeaf sn →
       ServiceLeaves Data tg' !! sn = ServiceLeaves Data tg !! sn)
  ∧ (∀ sn, ¬ dropped ServiceConfig sn →
       ServiceConfigs Data tg' !! sn = ServiceConfigs Data tg !! sn)
  ∧ (∀ sn, ¬ dropped ServiceResolver sn →
       ServiceResolvers Data tg' !! sn = ServiceResolvers Data tg !! sn
       ∧ ServiceResolversSet Data tg' !! sn
         = ServiceResolversSet Data tg !! sn)
  ∧ (∀ sn, ¬ dropped ExternalService sn →
       ServiceGroups Data tg' !! sn = ServiceGroups Data tg !! sn)
  ∧ (∀ sn, sn ∈ delivered →
       HostnameServices Data tg' !! sn = HostnameServices Data tg !! sn)
  ∧ (∀ h, h ∈ cancelled w' →
       h ∈ cancelled w
       ∨ ∃ k sn, sn ∉ delivered ∧ watched k tg !! sn = Some h).
Proof.
  intros Herr Hid Hres. unfold handleUpdate. rewrite Herr, Hid, Hres.
  rewrite decide_True by done.
  unfold TerminatingGateway.handleGatewayServices.
  destruct (watchGatewayServices services ∅ tg w)
    as [[[[e|] svcMap] tg0] w0] eqn:Hloop; [done|].
  apply (watchGatewayServices_opened Notify SN_String) in Hloop
    as (HS & new & Hsubs & Hcan & Hopened & Hkept).
  rewrite union_empty_r_L in HS. subst svcMap.
  set (S := list_to_set (Service <$> services) : gset ServiceName) in *.
  unfold cleanUp. cbv zeta. intros [= <- <-].
  set (dropped := λ k sn, sn ∉ S ∧ is_Some (watched k tg !! sn)).
  set (delivered := S).
  cbn [Intentions ServiceLeaves ServiceConfigs ServiceResolvers
       ServiceResolversSet ServiceGroups HostnameServices].
  destruct Hkept as (-> & -> & -> & -> & -> & -> & ->).
  assert (Hstay : ∀ k sn, ¬ dropped k sn →
            sn ∉ dom (unlisted S (watched k tg0))).
  { intros k sn Hnot [h Hh]%elem_of_dom.
    apply lookup_unlisted in Hh as [Hh Hout]. apply Hnot. split; [done|].
    rewrite <- (opened_other k S _ _ new sn (Hopened k) Hout). eauto. }
  split_and!.
  - intros sn Hnot. apply lookup_dropCancelled_other.
    apply (Hstay ServiceIntentions sn Hnot).
  - intros sn Hnot. apply lookup_dropCancelled_other.
    apply (Hstay ServiceLeaf sn Hnot).
  - intros sn Hnot. apply lookup_dropCancelled_other.
    apply (Hstay ServiceConfig sn Hnot).
  - intros sn Hnot. split; apply lookup_dropCancelled_other;
      apply (Hstay ServiceResolver sn Hnot).
  - intros sn Hnot. apply lookup_dropCancelled_other.
    apply (Hstay ExternalService sn Hnot).
  - intros sn Hin. rewrite lookup_keepListed. by rewrite decide_True.
  - intros h. rewrite !cancelGone_cancelled, Hcan, !elem_of_app.
    assert (Hfrom : ∀ k, h ∈ (map_to_list (unlisted S (watched k tg0))).*2 →
              ∃ k sn, sn ∉ delivered ∧ watched k tg !! sn = Some h).
    { intros k Hh. apply list_elem_of_fmap in Hh as ([sn h'] & -> & Hin).
      apply elem_of_map_to_list, lookup_unlisted in Hin as [Hh Hout].
      exists k, sn. split; [done|].
      by rewrite <- (opened_other k S _ _ new sn (Hopened k) Hout). }
    intros [[[[[?|?]|?]|?]|?]|?]; [by left|right..].
    + by apply (Hfrom ExternalService).
    + by apply (Hfrom ServiceLeaf).
    + by apply (Hfrom ServiceConfig).
    + by apply (Hfrom ServiceResolver).
    + by apply (Hfrom ServiceIntentions).
Qed.

End TerminatingGatewayAgain.

(** The theorem at the update that replaces the watched [svcX] by [svcY]. *)
Lemma gateway_services_idempotent_witness :
  ∃ tg1 w1,
    TerminatingGateway.handleUpdate (λ _ _ _, None) Name string
      (λ _ tg w, (None, tg, w)) deliverY watchingX emptyWorld
      = (None, tg1, w1)
    ∧ TerminatingGateway.handleUpdate (λ _ _ _, None) Name string
        (λ _ tg w, (None, tg, w)) deliverY tg1 w1
      = (None, tg1, w1).
Proof.
  destruct (TerminatingGateway.handleUpdate (λ _ _ _, None) Name string
              (λ _ tg w, (None, tg, w)) deliverY watchingX emptyWorld)
    as [[e tg1] w1] eqn:Hrun.
  assert (He : e = None).
  { apply (f_equal (λ r, r.1.1)) in Hrun. simpl in Hrun. rewrite <- Hrun.
    by vm_compute. }
  subst e. exists tg1, w1. split; [done|].
  by apply (gateway_services_idempotent (λ _ _ _, None) Name
              (λ _ tg w, (None, tg, w)) deliverY
              [mkGatewayService svcY 0 "tcp" []]
              watchingX emptyWorld tg1 w1).
Defined.

(** The theorem at the same update: the watch of [svcX] is cancelled, and
    nothing is known of [svcY] before or after. *)
Lemma gateway_services_keeps_the_rest_witness :
  ∃ tg1 w1,
    TerminatingGateway.handleUpdate (λ _ _ _, None) Name string
      (λ _ tg w, (None, tg, w)) deliverY watchingX emptyWorld
      = (None, tg1, w1)
    ∧ TerminatingGateway.ServiceGroups string tg1 !! svcY = None.
Proof.
  destruct (TerminatingGateway.handleUpdate (λ _ _ _, None) Name string
              (λ _ tg w, (None, tg, w)) deliverY watchingX emptyWorld)
    as [[e tg1] w1] eqn:Hrun.
  assert (He : e = None).
  { apply (f_equal (λ r, r.1.1)) in Hrun. simpl in Hrun. rewrite <- Hrun.
    by vm_compute. }
  subst e. exists tg1, w1. split; [done|].
  destruct (gateway_services_keeps_the_rest (λ _ _ _, None) Name
              (λ _ tg w, (None, tg, w)) deliverY
              [mkGatewayService svcY 0 "tcp" []]
              watchingX emptyWorld tg1 w1 eq_refl eq_refl eq_refl Hrun)
    as (_ & _ & _ & _ & Hgroups & _).
  rewrite Hgroups; [done|].
  intros [Hout _]. apply Hout. set_solver.
Defined.

(** *** The mesh gateway *)

Section MeshGatewayFacts.
Import MeshGateway.

Variable snapDatacenter : string.
Variable Notify : World → Provider → string → error.
Variable SN_String : ServiceName → string.
Variable ServiceNameFromString : string → ServiceName.
Context {CheckServiceNode : Type}.
Variable Node_Datacenter : CheckServiceNode → string.
Variable CompoundServiceName_String : CheckServiceNode → string.
Variable BestAddress : CheckServiceNode → bool → string * Z.
Variable ParseIP : string → bool.
Variable Service_Service : CheckServiceNode → string.
Variable ConsulServiceName : string.
Implicit Types mg : configSnapshotMeshGateway CheckServiceNode.
Implicit Types nodes : list CheckServiceNode.

Local Abbreviation hostnames :=
  (hostnames snapDatacenter CheckServiceNode Node_Datacenter
     CompoundServiceName_String BestAddress ParseIP).
Local Abbreviation handleFederationStates :=
  (handleFederationStates snapDatacenter CheckServiceNode Node_Datacenter
     CompoundServiceName_String BestAddress ParseIP).
Local Abbreviation handleMeshGatewayNodes :=
  (handleMeshGatewayNodes snapDatacenter CheckServiceNode Node_Datacenter
     CompoundServiceName_String BestAddress ParseIP).
Local Abbreviation watchServices :=
  (watchServices Notify SN_String CheckServiceNode).
Local Abbreviation handleServiceList :=
  (handleServiceList Notify SN_String CheckServiceNode).
Local Abbreviation handleUpdate :=
  (handleUpdate snapDatacenter Notify SN_String ServiceNameFromString
     CheckServiceNode Node_Datacenter CompoundServiceName_String BestAddress
     ParseIP Service_Service ConsulServiceName).

(** The instances of a list whose best address is not an IP address. *)
Definition withHostname nodes : list CheckServiceNode :=
  filter (λ n, isIP Node_Datacenter BestAddress ParseIP snapDatacenter n
               = false) nodes.

(** Logging leaves the subscriptions and the contexts alone. *)
Definition sameWatches (w w' : World) : Prop :=
  subs w' = subs w ∧ cancelled w' = cancelled w ∧ nextCtx w' = nextCtx w.

Lemma hostnames_spec nodes (w : World) :
  (hostnames nodes w).1 = withHostname nodes
  ∧ sameWatches w (hostnames nodes w).2.
Proof.
  unfold MeshGateway.hostnames.
  rewrite (hostnameEndpoints_eq Node_Datacenter CompoundServiceName_String
             BestAddress ParseIP).
  split; [done|]. simpl.
  destruct (_ && _); [destruct nodes|]; done.
Qed.

(** The first loop of the federation states case over a list of entries
    with distinct keys. *)
Lemma federation_fold (l : list (string * list CheckServiceNode))
    (hd : gmap string (list CheckServiceNode)) (w : World) :
  NoDup l.*1 →
  let r := foldl (λ '(hd, w) '(dc, nodes),
                    let '(resp, w') := hostnames nodes w in
                    (<[dc := resp]> hd, w')) (hd, w) l in
  (∀ dc, r.1 !! dc =
         match (list_to_map l : gmap string (list CheckServiceNode)) !! dc with
         | Some nodes => Some (withHostname nodes)
         | None => hd !! dc
         end)
  ∧ sameWatches w r.2.
Proof.
  revert hd w. induction l as [|[dc0 nodes0] l IH]; intros hd w Hnd.
  { simpl. split; [intros dc; by rewrite lookup_empty|done]. }
  rewrite fmap_cons in Hnd. apply NoDup_cons in Hnd as [Hout Hnd].
  cbn [foldl].
  destruct (hostnames_spec nodes0 w) as [Hresp Hw].
  destruct (hostnames nodes0 w) as [resp w1]. simpl in Hresp, Hw. subst resp.
  destruct (IH (<[dc0 := withHostname nodes0]> hd) w1 Hnd) as [Hlook Hw'].
  split.
  - intros dc. rewrite Hlook. cbn [list_to_map foldr].
    destruct (decide (dc = dc0)) as [->|Hne].
    + rewrite (not_elem_of_list_to_map_1 _ dc0 Hout).
      by rewrite !lookup_insert_eq.
    + by rewrite !lookup_insert_ne.
  - destruct Hw as (? & ? & ?), Hw' as (? & ? & ?).
    unfold sameWatches. split_and!; congruence.
Qed.

Lemma handleFederationStates_spec
    (dcNodes : gmap string (list CheckServiceNode)) mg (w : World) :
  let r := handleFederationStates dcNodes mg w in
  HostnameDatacenters CheckServiceNode r.1 = withHostname <$> dcNodes
  ∧ FedStateGateways CheckServiceNode r.1 = dcNodes
  ∧ sameWatches w r.2
  ∧ WatchedServices CheckServiceNode r.1 = WatchedServices CheckServiceNode mg
  ∧ WatchedServicesSet CheckServiceNode r.1
    = WatchedServicesSet CheckServiceNode mg
  ∧ WatchedDatacenters CheckServiceNode r.1
    = WatchedDatacenters CheckServiceNode mg
  ∧ ServiceGroups CheckServiceNode r.1 = ServiceGroups CheckServiceNode mg
  ∧ GatewayGroups CheckServiceNode r.1 = GatewayGroups CheckServiceNode mg
  ∧ ConsulServers CheckServiceNode r.1 = ConsulServers CheckServiceNode mg.
Proof.
  unfold MeshGateway.handleFederationStates.
  pose proof (federation_fold (map_to_list dcNodes)
                (HostnameDatacenters CheckServiceNode mg) w
                (NoDup_fst_map_to_list dcNodes)) as [Hlook Hw].
  destruct (foldl _ _ (map_to_list dcNodes)) as [hd w1]. simpl in *.
  split; [|done].
  apply map_eq. intros dc. rewrite lookup_fmap.
  specialize (Hlook dc). rewrite list_to_map_to_list in Hlook.
  destruct (dcNodes !! dc) as [nodes|] eqn:Hdc; simpl.
  - apply map_lookup_filter_Some. split; [done|]. simpl.
    by apply elem_of_dom_2 in Hdc.
  - apply map_lookup_filter_None. right. intros nodes _. simpl.
    by apply not_elem_of_dom.
Qed.

(** X15.  After a federation states update, the hostname gateways the mesh
    gateway keeps are those of the delivered datacenters and no other: for
    each delivered datacenter, in their order, its gateways whose best
    address is not an IP address.  The delivered map is stored as it is;
    nothing is subscribed or cancelled and no other field changes. *)
Theorem federation_states_hostname_gateways
    (otherCases : MeshUpdateEvent CheckServiceNode →
                  configSnapshotMeshGateway CheckServiceNode → World →
                  error * configSnapshotMeshGateway CheckServiceNode * World)
    (u : MeshUpdateEvent CheckServiceNode)
    (dcNodes : gmap string (list CheckServiceNode)) mg (w : World) :
  MErr CheckServiceNode u = None →
  MCorrelationID CheckServiceNode u = "federation-state-list-mesh-gateways" →
  MResult CheckServiceNode u = PDatacenterIndexedCheckServiceNodes _ dcNodes →
  ∃ mg' w',
    handleUpdate otherCases u mg w = (None, mg', w')
    ∧ HostnameDatacenters CheckServiceNode mg' = withHostname <$> dcNodes
    ∧ FedStateGateways CheckServiceNode mg' = dcNodes
    ∧ sameWatches w w'
    ∧ WatchedServices CheckServiceNode mg' = WatchedServices CheckServiceNode mg
    ∧ WatchedServicesSet CheckServiceNode mg'
      = WatchedServicesSet CheckServiceNode mg
    ∧ WatchedDatacenters CheckServiceNode mg'
      = WatchedDatacenters CheckServiceNode mg
    ∧ ServiceGroups CheckServiceNode mg' = ServiceGroups CheckServiceNode mg
    ∧ GatewayGroups CheckServiceNode mg' = GatewayGroups CheckServiceNode mg
    ∧ ConsulServers CheckServiceNode mg' = ConsulServers CheckServiceNode mg.
Proof.
  intros Herr Hid Hres. unfold MeshGateway.handleUpdate.
  rewrite Herr, Hid, Hres.
  rewrite decide_False by done. rewrite decide_True by done.
  pose proof (handleFederationStates_spec dcNodes mg w) as Hspec.
  destruct (handleFederationStates dcNodes mg w) as [mg' w'].
  by exists mg', w'.
Qed.

(** The loop over the delivered services, when it ends without error. *)
Lemma watchServices_spec (services : list ServiceName)
    (svcMap : gset ServiceName) mg (w : World) (svcMap' : gset ServiceName)
    mg' (w' : World) :
  watchServices services svcMap mg w = (None, svcMap', mg', w') →
  let delivered : gset ServiceName := list_to_set services in
  let m := WatchedServices CheckServiceNode mg in
  let m' := WatchedServices CheckServiceNode mg' in
  svcMap' = delivered ∪ svcMap
  ∧ mg' = set_WatchedServices CheckServiceNode mg m'
            (WatchedServicesSet CheckServiceNode mg)
  ∧ dom m' = dom m ∪ delivered
  ∧ (∀ sn h, m !! sn = Some h → m' !! sn = Some h)
  ∧ cancelled w' = cancelled w
  ∧ ∃ new, subs w' = (subs w ++ new)%list
           ∧ ∀ sn, sn ∈ delivered → m !! sn = None →
               ∃ h, m' !! sn = Some h
                    ∧ mkSub Health ("connect-service:" ++ SN_String sn) h []
                      ∈ new.
Proof.
  revert svcMap mg w.
  induction services as [|svc rest IH]; intros svcMap mg w.
  - simpl. intros [= <- <- <-]. split; [set_solver|].
    split; [by destruct mg|]. split; [set_solver|]. split; [done|].
    split; [done|]. exists []. rewrite app_nil_r. split; [done|].
    intros sn Hin. set_solver.
  - cbn [MeshGateway.watchServices].
    unfold TerminatingGateway.watchIfMissing, watch.
    destruct (WatchedServices CheckServiceNode mg !! svc) as [h0|] eqn:Hsvc.
    + intros Hrest. apply IH in Hrest
        as (-> & -> & Hdom & Hkeep & Hcan & new & Hsubs & Hnew).
      simpl in *. split; [set_solver|]. split; [done|].
      split; [rewrite Hdom; apply elem_of_dom_2 in Hsvc; set_solver|].
      split; [done|]. split; [done|]. exists new. split; [done|].
      intros sn Hin Hnone. apply Hnew; [|done].
      apply elem_of_union in Hin as [Hin|]; [|done].
      apply elem_of_singleton in Hin as ->. congruence.
    + destruct (Notify _ _ _) as [e|]; [done|].
      intros Hrest. apply IH in Hrest
        as (-> & -> & Hdom & Hkeep & Hcan & new & Hsubs & Hnew).
      simpl in *. split; [set_solver|]. split; [done|].
      split; [rewrite Hdom, dom_insert_L; set_solver|].
      split.
      { intros sn h Hsn. apply Hkeep. rewrite lookup_insert_ne; [done|].
        congruence. }
      split; [done|]. eexists. rewrite Hsubs, <- app_assoc.
      split; [done|]. intros sn Hin Hnone.
      destruct (decide (sn = svc)) as [->|Hne].
      * eexists. split; [apply Hkeep, lookup_insert_eq|].
        apply elem_of_app. left. by apply list_elem_of_singleton.
      * destruct (Hnew sn) as (h & Hh & Hsub); [set_solver|
          by rewrite lookup_insert_ne|].
        exists h. split; [done|]. apply elem_of_app. by right.
Qed.

Local Arguments TerminatingGateway.keepListed : simpl never.
Local Arguments TerminatingGateway.unlisted : simpl never.

(** X16.  After a service list update that the mesh gateway handles without
    error, the watched services are the delivered ones: a delivered service
    that was watched keeps its watch, one that was not is subscribed with
    the health provider under [connect-service:<service>], and the watch of
    every service that is not delivered is cancelled.  [WatchedServicesSet]
    is then set.  The service groups are left as they are, also those of
    services whose watch was cancelled, and so are the other fields. *)
Theorem service_list_reconciles
    (otherCases : MeshUpdateEvent CheckServiceNode →
                  configSnapshotMeshGateway CheckServiceNode → World →
                  error * configSnapshotMeshGateway CheckServiceNode * World)
    (u : MeshUpdateEvent CheckServiceNode) (services : list ServiceName)
    mg (w : World) mg' (w' : World) :
  MErr CheckServiceNode u = None →
  MCorrelationID CheckServiceNode u = "service-list" →
  MResult CheckServiceNode u = PServiceList _ services →
  handleUpdate otherCases u mg w = (None, mg', w') →
  let delivered : gset ServiceName := list_to_set services in
  let m := WatchedServices CheckServiceNode mg in
  let m' := WatchedServices CheckServiceNode mg' in
  dom m' = delivered
  ∧ (∀ sn h, m !! sn = Some h →
       if decide (sn ∈ delivered) then m' !! sn = Some h
       else h ∈ cancelled w')
  ∧ (∃ new, subs w' = (subs w ++ new)%list
            ∧ ∀ sn, sn ∈ delivered → m !! sn = None →
                ∃ h, m' !! sn = Some h
                     ∧ mkSub Health ("connect-service:" ++ SN_String sn) h []
                       ∈ new)
  ∧ WatchedServicesSet CheckServiceNode mg' = true
  ∧ ServiceGroups CheckServiceNode mg' = ServiceGroups CheckServiceNode mg
  ∧ WatchedDatacenters CheckServiceNode mg'
    = WatchedDatacenters CheckServiceNode mg
  ∧ GatewayGroups CheckServiceNode mg' = GatewayGroups CheckServiceNode mg
  ∧ HostnameDatacenters CheckServiceNode mg'
    = HostnameDatacenters CheckServiceNode mg.
Proof.
  intros Herr Hid Hres. unfold MeshGateway.handleUpdate.
  rewrite Herr, Hid, Hres.
  rewrite decide_False by done. rewrite decide_False by done.
  rewrite decide_True by done.
  unfold MeshGateway.handleServiceList.
  destruct (watchServices services ∅ mg w)
    as [[[[e|] svcMap] mg1] w1] eqn:Hloop; [done|].
  apply watchServices_spec in Hloop
    as (HS & Hmg1 & Hdom & Hkeep & Hcan & new & Hsubs & Hnew).
  rewrite union_empty_r_L in HS. subst svcMap.
  set (S := list_to_set services : gset ServiceName) in *.
  intros [= <- <-]. cbv zeta.
  cbn [WatchedServices set_WatchedServices WatchedServicesSet ServiceGroups
       WatchedDatacenters GatewayGroups HostnameDatacenters].
  rewrite Hmg1. cbn [WatchedServices set_WatchedServices WatchedServicesSet
       ServiceGroups WatchedDatacenters GatewayGroups HostnameDatacenters].
  split; [|split; [|split]].
  - rewrite (dom_keepListed SN_String), Hdom. set_solver.
  - intros sn h Hsn. rewrite lookup_keepListed.
    destruct (decide (sn ∈ S)) as [Hin|Hout]; [by apply Hkeep|].
    rewrite cancelGone_cancelled. apply elem_of_app. right.
    apply list_elem_of_fmap. exists (sn, h). split; [done|].
    apply elem_of_map_to_list, lookup_unlisted. split; [by apply Hkeep|done].
  - exists new. rewrite cancelGone_subs. split; [done|].
    intros sn Hin Hnone. destruct (Hnew sn Hin Hnone) as (h & Hh & Hsub).
    exists h. split; [|done]. rewrite lookup_keepListed.
    by rewrite decide_True.
  - done.
Qed.

(** No stored hostname gateway has an IP address. *)
Definition hostnamesOnly mg : Prop :=
  ∀ dc nodes n,
    HostnameDatacenters CheckServiceNode mg !! dc = Some nodes → n ∈ nodes →
    isIP Node_Datacenter BestAddress ParseIP snapDatacenter n = false.

Lemma withHostname_hostname nodes (n : CheckServiceNode) :
  n ∈ withHostname nodes →
  isIP Node_Datacenter BestAddress ParseIP snapDatacenter n = false.
Proof. unfold withHostname. by intros [? _]%list_elem_of_filter. Qed.

Lemma watchServices_hostnames (services : list ServiceName)
    (svcMap : gset ServiceName) mg (w : World) :
  HostnameDatacenters CheckServiceNode (watchServices services svcMap mg w).1.2
  = HostnameDatacenters CheckServiceNode mg.
Proof.
  revert svcMap mg w. induction services as [|svc rest IH];
    intros svcMap mg w; [done|].
  cbn [MeshGateway.watchServices].
  destruct (TerminatingGateway.watchIfMissing _ _ _ _ _ _ _ _)
    as [[[e|] m1] w1]; [done|].
  by rewrite IH.
Qed.

(** X17.  The mesh gateway never keeps an endpoint with an IP address among
    its hostname gateways: every update other than [roots], [datacenters]
    and [service-resolvers], whether it is handled with or without an
    error, leaves [HostnameDatacenters] with gateways whose best address is
    not an IP address. *)
Theorem hostname_datacenters_have_no_IP
    (otherCases : MeshUpdateEvent CheckServiceNode →
                  configSnapshotMeshGateway CheckServiceNode → World →
                  error * configSnapshotMeshGateway CheckServiceNode * World)
    (u : MeshUpdateEvent CheckServiceNode) mg (w : World) :
  MCorrelationID CheckServiceNode u ∉
    ["roots"; "datacenters"; "service-resolvers"] →
  hostnamesOnly mg →
  hostnamesOnly (handleUpdate otherCases u mg w).1.2.
Proof.
  intros Hid Hinv. unfold MeshGateway.handleUpdate.
  destruct (MErr CheckServiceNode u) as [e|]; [done|].
  cbv zeta.
  destruct (decide (_ = rootsWatchID)) as [Heq|_].
  { exfalso. apply Hid. rewrite Heq. set_solver. }
  destruct (decide (_ = federationStateListGatewaysWatchID)) as [_|_].
  { destruct (MResult CheckServiceNode u); try done.
    pose proof (handleFederationStates_spec DatacenterNodes mg w) as [Hhd _].
    destruct (handleFederationStates DatacenterNodes mg w) as [mg' w'].
    simpl in *. intros dc nodes n Hdc Hn. rewrite Hhd, lookup_fmap in Hdc.
    destruct (DatacenterNodes !! dc) as [nodes0|]; [|done].
    injection Hdc as <-. by eapply withHostname_hostname. }
  destruct (decide (_ = serviceListWatchID)) as [_|_].
  { destruct (MResult CheckServiceNode u); try done.
    unfold MeshGateway.handleServiceList.
    pose proof (watchServices_hostnames services ∅ mg w) as Hhd.
    destruct (watchServices services ∅ mg w) as [[[[e|] svcMap] mg1] w1];
      unfold hostnamesOnly; simpl in *; intros dc nodes n; rewrite Hhd;
      apply Hinv. }
  destruct (decide (_ = datacentersWatchID)) as [Heq|_].
  { exfalso. apply Hid. rewrite Heq. set_solver. }
  destruct (decide (_ = serviceResolversWatchID)) as [Heq|_].
  { exfalso. apply Hid. rewrite Heq. set_solver. }
  destruct (decide (_ = consulServerListWatchID)) as [_|_].
  { destruct (MResult CheckServiceNode u); try done.
    unfold MeshGateway.handleConsulServerList.
    by destruct (checkConsulServers _ _ _ _ _ _). }
  destruct (strings_HasPrefix _ "connect-service:").
  { by destruct (MResult CheckServiceNode u). }
  destruct (strings_HasPrefix _ "mesh-gateway:"); [|done].
  destruct (MResult CheckServiceNode u); try done.
  unfold MeshGateway.handleMeshGatewayNodes.
  generalize (strings_TrimPrefix (MCorrelationID CheckServiceNode u)
                "mesh-gateway:"). intros dc0.
  destruct (Z.ltb 0 (Z.of_nat (length nodes))).
  - destruct (hostnames_spec nodes w) as [Hresp _].
    destruct (hostnames nodes w) as [resp w']. simpl in *. subst resp.
    intros dc nodes' n Hdc Hn. cbn [HostnameDatacenters] in Hdc.
    destruct (decide (dc = dc0)) as [->|Hne].
    + rewrite lookup_insert_eq in Hdc. injection Hdc as <-.
      by eapply withHostname_hostname.
    + rewrite lookup_insert_ne, lookup_delete_ne in Hdc by done.
      by eapply Hinv.
  - intros dc nodes' n Hdc Hn. cbn [HostnameDatacenters fst snd] in Hdc.
    apply lookup_delete_Some in Hdc as [_ Hdc]. by eapply Hinv.
Qed.

End MeshGatewayFacts.

(** A mesh gateway in [dc1] that watches [svcX]; the nodes are a
    datacenter, a service and an address. *)
Definition meshWatchingX : MeshGateway.configSnapshotMeshGateway
                             (string * string * string) :=
  MeshGateway.mkMG _ {[svcX := 0%nat]} false ∅
    {[svcX := [("dc1", "svcX", "10.0.0.9")]]} ∅ ∅ [] ∅.

Definition meshHandle :=
  MeshGateway.handleUpdate "dc1" (λ _ _ _, None) Name
    (λ s, mkServiceName s "") (string * string * string)
    (λ n, n.1.1) (λ n, n.1.2) (λ n _, (n.2, 8443%Z)) dottedQuad
    (λ n, n.1.2) "consul" (λ _ mg w, (None, mg, w)).

Lemma federation_states_hostname_gateways_witness :
  ∃ mg' w',
    meshHandle
      (MeshGateway.mkMeshUpdateEvent _ "federation-state-list-mesh-gateways"
         (MeshGateway.PDatacenterIndexedCheckServiceNodes _
            {["dc2" := [("dc2", "mesh-gateway", "10.1.0.1");
                        ("dc2", "mesh-gateway", "gw.dc2.example")]]})
         None)
      meshWatchingX emptyWorld = (None, mg', w')
    ∧ MeshGateway.HostnameDatacenters _ mg'
      = {["dc2" := [("dc2", "mesh-gateway", "gw.dc2.example")]]}.
Proof.
  destruct (federation_states_hostname_gateways "dc1" (λ _ _ _, None) Name
              (λ s, mkServiceName s "")
              (λ n : string * string * string, n.1.1) (λ n, n.1.2)
              (λ n _, (n.2, 8443%Z)) dottedQuad (λ n, n.1.2) "consul"
              (λ _ mg w, (None, mg, w))
              (MeshGateway.mkMeshUpdateEvent _
                 "federation-state-list-mesh-gateways"
                 (MeshGateway.PDatacenterIndexedCheckServiceNodes _
                    {["dc2" := [("dc2", "mesh-gateway", "10.1.0.1");
                                ("dc2", "mesh-gateway", "gw.dc2.example")]]})
                 None)
              {["dc2" := [("dc2", "mesh-gateway", "10.1.0.1");
                          ("dc2", "mesh-gateway", "gw.dc2.example")]]}
              meshWatchingX emptyWorld eq_refl eq_refl eq_refl)
    as (mg' & w' & Hrun & Hhd & _).
  exists mg', w'. split; [exact Hrun|].
  rewrite Hhd. by rewrite map_fmap_singleton.
Defined.

Lemma service_list_reconciles_witness :
  ∃ mg' w',
    meshHandle
      (MeshGateway.mkMeshUpdateEvent _ "service-list"
         (MeshGateway.PServiceList _ [svcY]) None)
      meshWatchingX emptyWorld = (None, mg', w')
    ∧ dom (MeshGateway.WatchedServices _ mg') = {[svcY]}.
Proof.
  destruct (meshHandle
              (MeshGateway.mkMeshUpdateEvent _ "service-list"
                 (MeshGateway.PServiceList _ [svcY]) None)
              meshWatchingX emptyWorld) as [[e mg'] w'] eqn:Hrun.
  assert (He : e = None).
  { apply (f_equal (λ r, r.1.1)) in Hrun. simpl in Hrun. rewrite <- Hrun.
    by vm_compute. }
  subst e. exists mg', w'. split; [done|].
  destruct (service_list_reconciles "dc1" (λ _ _ _, None) Name
              (λ s, mkServiceName s "")
              (λ n : string * string * string, n.1.1) (λ n, n.1.2)
              (λ n _, (n.2, 8443%Z)) dottedQuad (λ n, n.1.2) "consul"
              (λ _ mg w, (None, mg, w))
              (MeshGateway.mkMeshUpdateEvent _ "service-list"
                 (MeshGateway.PServiceList _ [svcY]) None)
              [svcY] meshWatchingX emptyWorld mg' w' eq_refl eq_refl eq_refl
              Hrun) as (Hdom & _).
  rewrite Hdom. set_solver.
Defined.

Lemma hostname_datacenters_have_no_IP_witness :
  let mg' :=
    (meshHandle
       (MeshGateway.mkMeshUpdateEvent _ "mesh-gateway:dc2"
          (MeshGateway.PIndexedNodesWithGateways _
             [("dc2", "mesh-gateway", "10.1.0.1");
              ("dc2", "mesh-gateway", "gw.dc2.example")]) None)
       meshWatchingX emptyWorld).1.2 in
  MeshGateway.HostnameDatacenters _ mg' !! "dc2"
  = Some [("dc2", "mesh-gateway", "gw.dc2.example")]
  ∧ dottedQuad "gw.dc2.example" = false.
Proof.
  intros mg'.
  assert (Hdc : MeshGateway.HostnameDatacenters _ mg' !! "dc2"
                = Some [("dc2", "mesh-gateway", "gw.dc2.example")])
    by reflexivity.
  split; [exact Hdc|].
  refine (hostname_datacenters_have_no_IP "dc1" (λ _ _ _, None) Name
            (λ s, mkServiceName s "")
            (λ n : string * string * string, n.1.1) (λ n, n.1.2)
            (λ n _, (n.2, 8443%Z)) dottedQuad (λ n, n.1.2) "consul"
            (λ _ mg w, (None, mg, w))
            (MeshGateway.mkMeshUpdateEvent _ "mesh-gateway:dc2"
               (MeshGateway.PIndexedNodesWithGateways _
                  [("dc2", "mesh-gateway", "10.1.0.1");
                   ("dc2", "mesh-gateway", "gw.dc2.example")]) None)
            meshWatchingX emptyWorld _ _ "dc2" _
            ("dc2", "mesh-gateway", "gw.dc2.example") Hdc _).
  - simpl. intros Hin.
    repeat (apply elem_of_cons in Hin as [Hin|Hin]; [done|]).
    by apply elem_of_nil in Hin.
  - intros dc' nodes' n' Hdc'.
    cbn [MeshGateway.HostnameDatacenters meshWatchingX] in Hdc'.
    by rewrite lookup_empty in Hdc'.
  - apply list_elem_of_here.
Defined.

(** *** The ingress gateway: a [gateway-services] update *)

Section IngressServices.
Import IngressGateway.

Context {CfgMap Data : Type}.
Variable sourceDatacenter Domain AltDomain : string.
Variable Notify : World → Provider → string → error.
Variable NamespaceOrDefault : string → string.
Variable Upstream_Identifier : Upstream CfgMap → string.
Variable protocolConfig : string → CfgMap.
Implicit Types ig : configSnapshotIngressGateway CfgMap.
Implicit Types cp : ConnectProxy.configSnapshotConnectProxy Data CfgMap.
Implicit Types chains : gmap string nat.

Local Abbreviation makeUpstream :=
  (makeUpstream CfgMap NamespaceOrDefault protocolConfig).
Local Abbreviation watchUpstreams :=
  (watchUpstreams Notify CfgMap Data NamespaceOrDefault Upstream_Identifier
     protocolConfig).
Local Abbreviation handleGatewayServices :=
  (handleGatewayServices sourceDatacenter Domain AltDomain Notify CfgMap Data
     NamespaceOrDefault Upstream_Identifier protocolConfig).
Local Abbreviation generateIngressDNSSANs :=
  (generateIngressDNSSANs sourceDatacenter Domain AltDomain CfgMap).

(** The id under which the discovery chain of a service is watched. *)
Definition chainID (svc : GatewayService) : string :=
  Upstream_Identifier (makeUpstream svc).

(** The subscription to the discovery chain [id] under the context [h]. *)
Definition chainSub (id : string) (h : nat) : Sub :=
  mkSub (Cache CompiledDiscoveryChainName) ("discovery-chain:" ++ id) h [].

(** The upstreams of the listener [key] among the services. *)
Definition listenerUpstreams (key : string * Z)
    (services : list GatewayService) : list (Upstream CfgMap) :=
  makeUpstream <$> filter (λ svc, (Protocol svc, Port svc) = key) services.

Lemma watchUpstreams_spec (services : list GatewayService) cp :
  ConnectProxy.WatchedDiscoveryChains Data CfgMap cp = ∅ →
  ∀ (hosts : list string) (ws : gset string)
    (um : gmap (string * Z) (list (Upstream CfgMap))) chains (w : World)
    (hosts' : list string) (ws' : gset string)
    (um' : gmap (string * Z) (list (Upstream CfgMap))) cp' chains'
    (w' : World),
  watchUpstreams services hosts ws um cp chains w
    = (None, hosts', ws', um', cp', chains', w') →
  let ids := chainID <$> services in
  cp' = cp
  ∧ hosts' = (hosts ++ mjoin (Proxycfg.Hosts <$> services))%list
  ∧ ws' = list_to_set ids ∪ ws
  ∧ (∀ key, um' !! key =
            if decide (listenerUpstreams key services = []) then um !! key
            else Some (default [] (um !! key)
                       ++ listenerUpstreams key services)%list)
  ∧ (∀ id, id ∉ ids → chains' !! id = chains !! id)
  ∧ (∃ new,
       subs w' = (subs w ++ new)%list
       ∧ Forall2 (λ svc sub, ∃ h, sub = chainSub (chainID svc) h
                                  ∧ (nextCtx w ≤ h)%nat) services new
       ∧ ∀ id, id ∈ ids →
           ∃ h, chains' !! id = Some h ∧ chainSub id h ∈ new
                ∧ (nextCtx w ≤ h)%nat)
  ∧ cancelled w' = cancelled w.
Proof.
  intros Hcp.
  induction services as [|svc rest IH];
    intros hosts ws um chains w hosts' ws' um' cp' chains' w'.
  - simpl. intros [= <- <- <- <- <- <-].
    split; [done|]. split; [by rewrite app_nil_r|]. split; [set_solver|].
    split; [done|]. split; [done|]. split; [|done].
    exists []. rewrite app_nil_r. split; [done|]. split; [constructor|].
    intros id Hin. by apply elem_of_nil in Hin.
  - cbn [IngressGateway.watchUpstreams].
    unfold ConnectProxy.watchDiscoveryChain, watch. rewrite Hcp, lookup_empty.
    fold (chainID svc).
    destruct (Notify _ _ _) as [e|]; [done|].
    intros Hrest. apply IH in Hrest
      as (-> & -> & -> & Hum & Hother & (new & Hsubs & Hnew & Hkept) & Hcan).
    simpl in *. split; [done|].
    split; [by rewrite <- app_assoc|]. split; [set_solver|].
    split; [|split; [|split]].
    + intros key. rewrite Hum. unfold listenerUpstreams.
      rewrite filter_cons.
      destruct (decide ((Protocol svc, Port svc) = key)) as [<-|Hne].
      * rewrite lookup_insert_eq, fmap_cons. simpl.
        destruct (decide (_ = [])) as [->|_]; [done|].
        by rewrite <- app_assoc.
      * by rewrite lookup_insert_ne.
    + intros id Hout. apply not_elem_of_cons in Hout as [Hne Hout].
      rewrite Hother by done. by rewrite lookup_insert_ne.
    + eexists. rewrite Hsubs, <- app_assoc. split; [done|]. split.
      * constructor; [by eexists|].
        eapply Forall2_impl; [exact Hnew|].
        intros x y (h & -> & Hh). exists h. split; [done|]. lia.
      * intros id Hin.
        destruct (decide (id ∈ chainID <$> rest)) as [Hr|Hr].
        -- destruct (Hkept id Hr) as (h & Hh & Hsub & Hle).
           exists h. split; [done|]. split; [|lia].
           apply elem_of_cons. by right.
        -- apply elem_of_cons in Hin as [->|]; [|done].
           exists (nextCtx w). rewrite Hother by done.
           rewrite lookup_insert_eq. split; [done|]. split; [|done].
           apply list_elem_of_here.
    + done.
Qed.

(** The snapshot after a [gateway-services] update handled without
    error. *)
Lemma handleGatewayServices_snapshot (order : list string)
    (services : list GatewayService) ig cp (w : World) ig' cp' (w' : World) :
  ConnectProxy.WatchedDiscoveryChains Data CfgMap cp = ∅ →
  handleGatewayServices order services ig cp w = (None, ig', cp', w') →
  Hosts CfgMap ig' = mjoin (Proxycfg.Hosts <$> services)
  ∧ HostsSet CfgMap ig' = true
  ∧ (∀ key, Upstreams CfgMap ig' !! key =
            if decide (listenerUpstreams key services = []) then None
            else Some (listenerUpstreams key services))
  ∧ dom (WatchedDiscoveryChains CfgMap ig')
    = list_to_set (chainID <$> services)
  ∧ TLSEnabled CfgMap ig' = TLSEnabled CfgMap ig
  ∧ TLSSet CfgMap ig' = TLSSet CfgMap ig
  ∧ cp' = cp.
Proof.
  intros Hcp. unfold IngressGateway.handleGatewayServices.
  destruct (watchUpstreams services [] ∅ ∅ cp _ w)
    as [[[[[[[e|] hosts] ws] um] cp1] chains1] w1] eqn:Hloop; [done|].
  apply (watchUpstreams_spec services cp Hcp) in Hloop
    as (-> & -> & -> & Hum & Hother & (new & Hsubs & Hnew & Hkept) & Hcan).
  cbv zeta. rewrite union_empty_r_L.
  match goal with |- context [watchIngressLeafCert _ _ _ _ _ _ ?i ?x] =>
    set (ig1 := i); set (w2 := x) end.
  assert (Hsame : ∀ r, (watchIngressLeafCert sourceDatacenter Domain AltDomain
                         Notify CfgMap order ig1 w2) = r → r.1.1 = None →
    Hosts CfgMap r.1.2 = Hosts CfgMap ig1
    ∧ HostsSet CfgMap r.1.2 = HostsSet CfgMap ig1
    ∧ Upstreams CfgMap r.1.2 = Upstreams CfgMap ig1
    ∧ WatchedDiscoveryChains CfgMap r.1.2 = WatchedDiscoveryChains CfgMap ig1
    ∧ TLSEnabled CfgMap r.1.2 = TLSEnabled CfgMap ig1
    ∧ TLSSet CfgMap r.1.2 = TLSSet CfgMap ig1).
  { intros r <-. unfold IngressGateway.watchIngressLeafCert.
    destruct (negb _ || negb _); [done|]. unfold watch.
    by destruct (Notify _ _ _). }
  destruct (watchIngressLeafCert _ _ _ _ _ _ ig1 w2) as [[e ig2] w3] eqn:Hleaf.
  intros [= -> <- <- <-].
  pose proof (Hsame _ eq_refl eq_refl) as Hs. simpl in Hs.
  destruct Hs as (-> & -> & -> & -> & -> & ->).
  subst ig1. simpl. split; [done|]. split; [done|]. split; [|split; [|done]].
  - intros key. rewrite Hum, lookup_empty. simpl. by destruct (decide _).
  - apply set_eq. intros id. rewrite elem_of_dom, elem_of_list_to_set.
    split.
    + intros [h Hh]. apply map_lookup_filter_Some in Hh as [_ Hin].
      simpl in Hin. by apply elem_of_list_to_set in Hin.
    + intros Hin. destruct (Hkept id Hin) as (h & Hh & _).
      exists h. apply map_lookup_filter_Some. split; [done|]. simpl.
      by apply elem_of_list_to_set.
Qed.

(** The watches of a [gateway-services] update handled without error. *)
Lemma handleGatewayServices_watches (order : list string)
    (services : list GatewayService) ig cp (w : World) ig' cp' (w' : World) :
  ConnectProxy.WatchedDiscoveryChains Data CfgMap cp = ∅ →
  handleGatewayServices order services ig cp w = (None, ig', cp', w') →
  let delivered : gset string := list_to_set (chainID <$> services) in
  let gone := filter (λ kv : string * nat, kv.1 ∉ delivered)
                (WatchedDiscoveryChains CfgMap ig) in
  ∃ new leaf,
    subs w' = (subs w ++ new ++ leaf)%list
    ∧ Forall2 (λ svc sub, ∃ h, sub = chainSub (chainID svc) h
                               ∧ (nextCtx w ≤ h)%nat) services new
    ∧ (∀ id h, WatchedDiscoveryChains CfgMap ig' !! id = Some h →
         chainSub id h ∈ new ∧ (nextCtx w ≤ h)%nat)
    ∧ cancelled w'
      = (cancelled w ++ (map_to_list gone).*2
         ++ if TLSSet CfgMap ig
            then option_list (LeafCertWatchCancel CfgMap ig) else [])%list
    ∧ if TLSSet CfgMap ig
      then ∃ h, leaf = [mkSub (Cache ConnectCALeafName) "leaf" h
                          (generateIngressDNSSANs order ig')]
                ∧ LeafCertWatchCancel CfgMap ig' = Some h
      else leaf = []
           ∧ LeafCertWatchCancel CfgMap ig' = LeafCertWatchCancel CfgMap ig.
Proof.
  intros Hcp. unfold IngressGateway.handleGatewayServices.
  destruct (watchUpstreams services [] ∅ ∅ cp _ w)
    as [[[[[[[e|] hosts] ws] um] cp1] chains1] w1] eqn:Hloop; [done|].
  apply (watchUpstreams_spec services cp Hcp) in Hloop
    as (-> & -> & -> & Hum & Hother & (new & Hsubs & Hnew & Hkept) & Hcan).
  cbv zeta. rewrite union_empty_r_L.
  set (S := list_to_set (chainID <$> services) : gset string).
  assert (Hgone : filter (λ kv : string * nat, kv.1 ∉ S) chains1
                  = filter (λ kv : string * nat, kv.1 ∉ S)
                      (WatchedDiscoveryChains CfgMap ig)).
  { apply map_eq. intros id. apply option_eq. intros h.
    rewrite !map_lookup_filter_Some. simpl.
    split; intros [Hh Hout]; (split; [|done]).
    - rewrite <- Hother; [done|]. subst S.
      by rewrite elem_of_list_to_set in Hout.
    - rewrite Hother; [done|]. subst S.
      by rewrite elem_of_list_to_set in Hout. }
  rewrite Hgone.
  set (gone := filter (λ kv : string * nat, kv.1 ∉ S)
                 (WatchedDiscoveryChains CfgMap ig)).
  unfold IngressGateway.watchIngressLeafCert.
  cbn [TLSSet HostsSet TLSEnabled Hosts Upstreams WatchedDiscoveryChains
       LeafCertWatchCancel].
  assert (Hkept' : ∀ id h,
    filter (λ kv : string * nat, kv.1 ∈ S) chains1 !! id = Some h →
    chainSub id h ∈ new ∧ (nextCtx w ≤ h)%nat).
  { intros id h [Hh Hin]%map_lookup_filter_Some. simpl in Hin.
    subst S. apply elem_of_list_to_set in Hin.
    destruct (Hkept id Hin) as (h' & Hh' & Hsub & Hle).
    assert (h' = h) as -> by congruence. done. }
  destruct (TLSSet CfgMap ig) eqn:Htls; simpl.
  - unfold watch.
    set (w0 := match LeafCertWatchCancel CfgMap ig with
               | Some h => cancel h (cancelAll (map_to_list gone).*2 w1)
               | None => cancelAll (map_to_list gone).*2 w1
               end).
    assert (Hw0 : subs w0 = subs w1
                  ∧ cancelled w0
                    = (cancelled w1 ++ (map_to_list gone).*2
                       ++ option_list (LeafCertWatchCancel CfgMap ig))%list).
    { subst w0. destruct (LeafCertWatchCancel CfgMap ig); simpl;
        by rewrite <- ?app_assoc, ?app_nil_r. }
    destruct Hw0 as [Hs0 Hc0].
    destruct (Notify _ _ _) as [e|]; [done|].
    intros [= <- <- <-]. eexists new, [_].
    cbn [subs cancelled WatchedDiscoveryChains LeafCertWatchCancel].
    rewrite Hs0, Hc0, Hsubs, Hcan, <- app_assoc.
    split; [done|]. split; [done|]. split; [done|]. split; [done|].
    by eexists.
  - intros [= <- <- <-]. exists new, []. simpl.
    rewrite !app_nil_r. split; [done|]. split; [done|]. split; [done|].
    split; [by rewrite Hcan|done].
Qed.

(** X18.  After a [gateway-services] update that an ingress gateway (whose
    snapshot has no connect-proxy part) handles without error, the snapshot
    is rebuilt from the payload: the hosts are those of the delivered
    services, in order, and are marked as set; each listener, a protocol and
    a port, has the upstreams made of the delivered services with that
    protocol and port, in order, and there is no other listener; the
    discovery chains watched are those of the delivered services.  The TLS
    settings are left as they are. *)
Theorem ingress_gateway_services_rebuilds (order : list string)
    (services : list GatewayService) ig cp (w : World) ig' cp' (w' : World) :
  ConnectProxy.WatchedDiscoveryChains Data CfgMap cp = ∅ →
  handleGatewayServices order services ig cp w = (None, ig', cp', w') →
  Hosts CfgMap ig' = mjoin (Proxycfg.Hosts <$> services)
  ∧ HostsSet CfgMap ig' = true
  ∧ (∀ key, Upstreams CfgMap ig' !! key =
            if decide (listenerUpstreams key services = []) then None
            else Some (listenerUpstreams key services))
  ∧ dom (WatchedDiscoveryChains CfgMap ig')
    = list_to_set (chainID <$> services)
  ∧ TLSEnabled CfgMap ig' = TLSEnabled CfgMap ig
  ∧ TLSSet CfgMap ig' = TLSSet CfgMap ig
  ∧ cp' = cp.
Proof. apply handleGatewayServices_snapshot. Qed.

(** X19.  While handling a [gateway-services] update without error, an
    ingress gateway (whose snapshot has no connect-proxy part) subscribes to
    the discovery chain of every delivered service, in order, also when it
    already watched that chain: every chain watch it keeps afterwards is one
    of these new subscriptions.  It calls the cancel functions of the chains
    of services that are not delivered, and only those: the cancel function
    that a delivered service had before is overwritten without being
    called.  When the TLS setting is known it then cancels the leaf
    certificate watch, if there is one, and subscribes to the leaf
    certificate with the DNS SANs of the new snapshot. *)
Theorem ingress_gateway_services_rewatches (order : list string)
    (services : list GatewayService) ig cp (w : World) ig' cp' (w' : World) :
  ConnectProxy.WatchedDiscoveryChains Data CfgMap cp = ∅ →
  handleGatewayServices order services ig cp w = (None, ig', cp', w') →
  let delivered : gset string := list_to_set (chainID <$> services) in
  let gone := filter (λ kv : string * nat, kv.1 ∉ delivered)
                (WatchedDiscoveryChains CfgMap ig) in
  ∃ new leaf,
    subs w' = (subs w ++ new ++ leaf)%list
    ∧ Forall2 (λ svc sub, ∃ h, sub = chainSub (chainID svc) h
                               ∧ (nextCtx w ≤ h)%nat) services new
    ∧ (∀ id h, WatchedDiscoveryChains CfgMap ig' !! id = Some h →
         chainSub id h ∈ new ∧ (nextCtx w ≤ h)%nat)
    ∧ cancelled w'
      = (cancelled w ++ (map_to_list gone).*2
         ++ if TLSSet CfgMap ig
            then option_list (LeafCertWatchCancel CfgMap ig) else [])%list
    ∧ if TLSSet CfgMap ig
      then ∃ h, leaf = [mkSub (Cache ConnectCALeafName) "leaf" h
                          (generateIngressDNSSANs order ig')]
                ∧ LeafCertWatchCancel CfgMap ig' = Some h
      else leaf = []
           ∧ LeafCertWatchCancel CfgMap ig' = LeafCertWatchCancel CfgMap ig.
Proof. apply handleGatewayServices_watches. Qed.

(** The two updates an ingress gateway waits for, in either order. *)
Definition configThenServices (order : list string) (enabled : bool)
    (services : list GatewayService) ig cp (w : World)
    : error * configSnapshotIngressGateway CfgMap
      * ConnectProxy.configSnapshotConnectProxy Data CfgMap * World :=
  match handleGatewayConfig sourceDatacenter Domain AltDomain Notify CfgMap
          order enabled ig w with
  | (Some e, ig1, w1) => (Some e, ig1, cp, w1)
  | (None, ig1, w1) => handleGatewayServices order services ig1 cp w1
  end.

Definition servicesThenConfig (order : list string) (enabled : bool)
    (services : list GatewayService) ig cp (w : World)
    : error * configSnapshotIngressGateway CfgMap
      * ConnectProxy.configSnapshotConnectProxy Data CfgMap * World :=
  match handleGatewayServices order services ig cp w with
  | (Some e, ig1, cp1, w1) => (Some e, ig1, cp1, w1)
  | (None, ig1, cp1, w1) =>
      let '(e, ig2, w2) :=
        handleGatewayConfig sourceDatacenter Domain AltDomain Notify CfgMap
          order enabled ig1 w1 in
      (e, ig2, cp1, w2)
  end.

(** The subscriptions of a run that are for the leaf certificate. *)
Definition leafSubs (l : list Sub) : list Sub :=
  filter (λ sub, subID sub = leafWatchID) l.

Lemma leafSubs_chains (services : list GatewayService) (new : list Sub)
    (n : nat) :
  Forall2 (λ svc sub, ∃ h, sub = chainSub (chainID svc) h ∧ (n ≤ h)%nat)
    services new →
  leafSubs new = [].
Proof.
  unfold leafSubs. induction 1 as [|svc sub services new (h & -> & _) _ IH];
    [done|].
  rewrite filter_cons_False; [done|]. simpl. unfold leafWatchID.
  intros Heq. discriminate Heq.
Qed.

(** X20.  An ingress gateway subscribes to its leaf certificate only when
    it has had both its configuration entry and its services.  From a
    snapshot that has had neither, the [gateway-config] update alone changes
    nothing outside the snapshot, and the [gateway-services] update alone
    subscribes to no leaf certificate.  Once both are handled without
    error, in either order, exactly one leaf certificate subscription has
    been made, the last subscription of the run; it carries the DNS SANs of
    the final snapshot, in which TLS is as the configuration entry says,
    and its cancel function is the one stored. *)
Theorem leaf_watch_waits_for_config_and_services (order : list string)
    (enabled : bool) (services : list GatewayService) ig cp (w : World) :
  TLSSet CfgMap ig = false →
  HostsSet CfgMap ig = false →
  LeafCertWatchCancel CfgMap ig = None →
  ConnectProxy.WatchedDiscoveryChains Data CfgMap cp = ∅ →
  (∃ ig1,
     handleGatewayConfig sourceDatacenter Domain AltDomain Notify CfgMap
       order enabled ig w = (None, ig1, w)
     ∧ LeafCertWatchCancel CfgMap ig1 = None)
  ∧ (∀ ig1 cp1 w1,
       handleGatewayServices order services ig cp w = (None, ig1, cp1, w1) →
       ∃ new, subs w1 = (subs w ++ new)%list ∧ leafSubs new = []
              ∧ LeafCertWatchCancel CfgMap ig1 = None)
  ∧ (∀ run, run ∈ [configThenServices; servicesThenConfig] →
     ∀ ig2 cp2 w2,
       run order enabled services ig cp w = (None, ig2, cp2, w2) →
       ∃ new h,
         let leaf := mkSub (Cache ConnectCALeafName) "leaf" h
                       (generateIngressDNSSANs order ig2) in
         subs w2 = (subs w ++ new ++ [leaf])%list
         ∧ leafSubs (new ++ [leaf]) = [leaf]
         ∧ LeafCertWatchCancel CfgMap ig2 = Some h
         ∧ TLSEnabled CfgMap ig2 = enabled
         ∧ TLSSet CfgMap ig2 = true
         ∧ HostsSet CfgMap ig2 = true
         ∧ Hosts CfgMap ig2 = mjoin (Proxycfg.Hosts <$> services)).
Proof.
  intros Htls Hhosts Hleaf Hcp.
  assert (Hone : ∀ new leaf, leafSubs new = [] →
            subID leaf = leafWatchID → leafSubs (new ++ [leaf]) = [leaf]).
  { intros new leaf Hnew Hid. unfold leafSubs in *.
    rewrite filter_app, Hnew. simpl. by rewrite filter_cons_True. }
  split; [|split].
  - unfold handleGatewayConfig, IngressGateway.watchIngressLeafCert.
    cbn [TLSSet HostsSet]. rewrite Hhosts. simpl. by eexists.
  - intros ig1 cp1 w1 Hrun.
    destruct (handleGatewayServices_watches order services ig cp w ig1 cp1 w1
                Hcp Hrun) as (new & leaf & Hsubs & Hnew & _ & _ & Hl).
    rewrite Htls in Hl. destruct Hl as [-> Hl].
    exists new. rewrite app_nil_r in Hsubs. split; [done|].
    split; [by eapply leafSubs_chains|congruence].
  - intros run Hrun ig2 cp2 w2.
    apply elem_of_cons in Hrun as [->|Hrun].
    + unfold configThenServices, handleGatewayConfig,
        IngressGateway.watchIngressLeafCert.
      cbn [TLSSet HostsSet]. rewrite Hhosts. simpl.
      intros Hrun.
      destruct (handleGatewayServices_watches _ _ _ _ _ _ _ _ Hcp Hrun)
        as (new & leaf & Hsubs & Hnew & _ & _ & Hl).
      destruct (handleGatewayServices_snapshot _ _ _ _ _ _ _ _ Hcp Hrun)
        as (Hh & Hhs & _ & _ & Hen & Hset & _).
      simpl in Hl, Hen, Hset. destruct Hl as (h & -> & Hl).
      exists new, h. cbv zeta. split; [done|].
      split; [apply Hone; [by eapply leafSubs_chains|done]|]. done.
    + apply list_elem_of_singleton in Hrun as ->.
      unfold servicesThenConfig.
      destruct (handleGatewayServices order services ig cp w)
        as [[[[e|] ig1] cp1] w1] eqn:Hsvc; [done|].
      destruct (handleGatewayServices_watches _ _ _ _ _ _ _ _ Hcp Hsvc)
        as (new & leaf & Hsubs & Hnew & _ & _ & Hl).
      destruct (handleGatewayServices_snapshot _ _ _ _ _ _ _ _ Hcp Hsvc)
        as (Hh & Hhs & _ & _ & Hen & Hset & _).
      rewrite Htls in Hl. destruct Hl as [-> Hl].
      rewrite app_nil_r in Hsubs.
      unfold handleGatewayConfig, IngressGateway.watchIngressLeafCert.
      cbn [TLSSet HostsSet]. rewrite Hhs. simpl. unfold watch.
      rewrite Hl, Hleaf.
      destruct (Notify _ _ _) as [e|]; [done|].
      intros [= <- <- <-]. exists new. eexists. cbv zeta.
      cbn [subs LeafCertWatchCancel TLSEnabled TLSSet HostsSet Hosts nextCtx].
      rewrite Hsubs, <- app_assoc. split; [done|].
      split; [apply Hone; [by eapply leafSubs_chains|done]|]. done.
Qed.

End IngressServices.

(** An ingress gateway that watches the chains of [api] and [old], with TLS
    known and enabled, and a payload with [api] and [web] on one listener.
    The identifier of an upstream is its destination name. *)
Definition ingressWatching : IngressGateway.configSnapshotIngressGateway () :=
  IngressGateway.mkIG () true true [] true ∅
    {["api" := 0%nat; "old" := 1%nat]} (Some 2%nat).

Definition ingressWorld : World := mkWorld [] [] 3 [].

Definition apiAndWeb : list GatewayService :=
  [mkGatewayService (mkServiceName "api" "") 8080 "http" ["api.example.com"];
   mkGatewayService (mkServiceName "web" "") 8080 "http" []].

Definition ingressHandle :=
  IngressGateway.handleGatewayServices "dc1" "consul" "" (λ _ _ _, None) ()
    () (λ _, "default") (λ u : Upstream (), DestinationName u) (λ _, ())
    ["default"] apiAndWeb ingressWatching
    (ConnectProxy.mkCP () () ∅ ∅ ∅ ∅ ∅ ∅ ∅) ingressWorld.

Lemma ingress_gateway_services_rebuilds_witness :
  ∃ ig' cp' w',
    ingressHandle = (None, ig', cp', w')
    ∧ IngressGateway.Hosts () ig' = ["api.example.com"]
    ∧ dom (IngressGateway.WatchedDiscoveryChains () ig') = {["api"; "web"]}.
Proof.
  destruct ingressHandle as [[[e ig'] cp'] w'] eqn:Hrun.
  assert (He : e = None).
  { apply (f_equal (λ r, r.1.1.1)) in Hrun. simpl in Hrun. rewrite <- Hrun.
    by vm_compute. }
  subst e. exists ig', cp', w'. split; [done|].
  destruct (ingress_gateway_services_rebuilds "dc1" "consul" ""
              (λ _ _ _, None) (λ _, "default")
              (λ u : Upstream (), DestinationName u) (λ _, ())
              ["default"] apiAndWeb ingressWatching
              (ConnectProxy.mkCP () () ∅ ∅ ∅ ∅ ∅ ∅ ∅) ingressWorld ig' cp' w'
              eq_refl Hrun) as (Hhosts & _ & _ & Hdom & _).
  split; [exact Hhosts|]. rewrite Hdom. set_solver.
Defined.

Lemma ingress_gateway_services_rewatches_witness :
  ∃ ig' cp' w',
    ingressHandle = (None, ig', cp', w')
    ∧ cancelled w' = [1%nat; 2%nat]
    ∧ length (subs w') = 3%nat.
Proof.
  destruct ingressHandle as [[[e ig'] cp'] w'] eqn:Hrun.
  assert (He : e = None).
  { apply (f_equal (λ r, r.1.1.1)) in Hrun. simpl in Hrun. rewrite <- Hrun.
    by vm_compute. }
  subst e. exists ig', cp', w'. split; [done|].
  destruct (ingress_gateway_services_rewatches "dc1" "consul" ""
              (λ _ _ _, None) (λ _, "default")
              (λ u : Upstream (), DestinationName u) (λ _, ())
              ["default"] apiAndWeb ingressWatching
              (ConnectProxy.mkCP () () ∅ ∅ ∅ ∅ ∅ ∅ ∅) ingressWorld ig' cp' w'
              eq_refl Hrun)
    as (new & leaf & Hsubs & Hnew & _ & Hcan & h & -> & _).
  split.
  - rewrite Hcan. by vm_compute.
  - rewrite Hsubs. apply Forall2_length in Hnew.
    rewrite !length_app, <- Hnew. done.
Defined.

(** An ingress gateway that has had neither its configuration entry nor its
    services. *)
Definition ingressFresh : IngressGateway.configSnapshotIngressGateway () :=
  IngressGateway.mkIG () false false [] false ∅ ∅ None.

Lemma leaf_watch_waits_for_config_and_services_witness :
  ∃ ig2 cp2 w2,
    servicesThenConfig "dc1" "consul" "" (λ _ _ _, None) (λ _, "default")
      (λ u : Upstream (), DestinationName u) (λ _, ()) ["default"] true
      apiAndWeb ingressFresh (ConnectProxy.mkCP () () ∅ ∅ ∅ ∅ ∅ ∅ ∅)
      emptyWorld = (None, ig2, cp2, w2)
    ∧ IngressGateway.TLSEnabled () ig2 = true
    ∧ IngressGateway.Hosts () ig2 = ["api.example.com"].
Proof.
  destruct (servicesThenConfig "dc1" "consul" "" (λ _ _ _, None)
              (λ _, "default") (λ u : Upstream (), DestinationName u)
              (λ _, ()) ["default"] true apiAndWeb ingressFresh
              (ConnectProxy.mkCP () () ∅ ∅ ∅ ∅ ∅ ∅ ∅) emptyWorld)
    as [[[e ig2] cp2] w2] eqn:Hrun.
  assert (He : e = None).
  { apply (f_equal (λ r, r.1.1.1)) in Hrun. simpl in Hrun. rewrite <- Hrun.
    by vm_compute. }
  subst e. exists ig2, cp2, w2. split; [done|].
  destruct (leaf_watch_waits_for_config_and_services "dc1" "consul" ""
              (λ _ _ _, None) (λ _, "default")
              (λ u : Upstream (), DestinationName u) (λ _, ()) ["default"]
              true apiAndWeb ingressFresh
              (ConnectProxy.mkCP () () ∅ ∅ ∅ ∅ ∅ ∅ ∅) emptyWorld
              eq_refl eq_refl eq_refl eq_refl) as (_ & _ & Hboth).
  destruct (Hboth _ (list_elem_of_further _ _ _ (list_elem_of_here _ _))
              ig2 cp2 w2 Hrun) as (new & h & _ & _ & _ & Hen & _ & _ & Hh).
  split; [exact Hen|]. rewrite Hh. reflexivity.
Defined.

(** *** The connect proxy: the same intention upstreams delivered again *)

Section ConnectProxyAgain.
Import ConnectProxy.

Variable sourceDatacenter : string.
Variable Notify : World → Provider → string → error.
Variable SN_String : ServiceName → string.
Variable wildcardSID_String : string.
Context {Data CfgMap : Type}.
Variable emptyCfgMap : CfgMap.
Variable parseReducedUpstreamConfig : CfgMap → error.
Implicit Types cp : configSnapshotConnectProxy Data CfgMap.
Implicit Types ig : gmap string nat.

(** The handler is the one of a connect proxy. *)
Local Abbreviation kind := ServiceKindConnectProxy.
Local Abbreviation watchDiscoveryChain :=
  (watchDiscoveryChain kind Notify Data CfgMap).
Local Abbreviation watchIntentionUpstream :=
  (watchIntentionUpstream kind Notify SN_String wildcardSID_String Data
     CfgMap emptyCfgMap parseReducedUpstreamConfig).
Local Abbreviation watchIntentionUpstreams :=
  (watchIntentionUpstreams kind Notify SN_String wildcardSID_String Data
     CfgMap emptyCfgMap parseReducedUpstreamConfig).
Local Abbreviation cleanUp := (cleanUp sourceDatacenter Data CfgMap).
Local Abbreviation handleIntentionUpstreams :=
  (handleIntentionUpstreams kind sourceDatacenter Notify SN_String
     wildcardSID_String Data CfgMap emptyCfgMap parseReducedUpstreamConfig).

Local Abbreviation WDC := (WatchedDiscoveryChains Data CfgMap).
Local Abbreviation UC := (UpstreamConfig Data CfgMap).

(** Only messages were logged. *)
Definition onlyLogged (w w' : World) : Prop :=
  subs w' = subs w ∧ cancelled w' = cancelled w ∧ nextCtx w' = nextCtx w.

(** The upstream [id] has its chain watched, and a configuration of its own
    unless there are no defaults and the empty configuration parses. *)
Definition settledFor (id : string) cp : Prop :=
  is_Some (WDC cp !! id)
  ∧ (is_Some (UC cp !! id)
     ∨ (UC cp !! wildcardSID_String = None
        ∧ parseReducedUpstreamConfig emptyCfgMap = None)).

(** What a later step of the loop keeps of the snapshot. *)
Definition extends cp cp' : Prop :=
  (∀ sn h, WDC cp !! sn = Some h → WDC cp' !! sn = Some h)
  ∧ (∀ sn u, UC cp !! sn = Some u → UC cp' !! sn = Some u)
  ∧ (UC cp !! wildcardSID_String = None → UC cp' = UC cp).

Lemma extends_settledFor (id : string) cp cp' :
  extends cp cp' → settledFor id cp → settledFor id cp'.
Proof.
  intros (Hw & Hu & Hnone) ([h Hh] & Hcfg). split; [eauto|].
  destruct Hcfg as [[u Hcfg]|[Hwild Hparse]]; [left; eauto|].
  right. by rewrite (Hnone Hwild).
Qed.

Lemma extends_trans cp1 cp2 cp3 :
  extends cp1 cp2 → extends cp2 cp3 → extends cp1 cp3.
Proof.
  intros (Hw & Hu & Hnone) (Hw' & Hu' & Hnone').
  split; [eauto|]. split; [eauto|].
  intros Hwild. rewrite Hnone', (Hnone Hwild); [done|].
  by rewrite (Hnone Hwild).
Qed.

Lemma watchDiscoveryChain_extends (id : string) cp ig (w : World) cp' ig'
    (w' : World) :
  watchDiscoveryChain id cp ig w = (None, cp', ig', w') →
  UC cp' = UC cp ∧ is_Some (WDC cp' !! id)
  ∧ (∀ sn h, WDC cp !! sn = Some h → WDC cp' !! sn = Some h).
Proof.
  unfold ConnectProxy.watchDiscoveryChain, watch.
  destruct (WDC cp !! id) as [h0|] eqn:Hid.
  { intros [= <- <- <-]. by rewrite Hid. }
  destruct (Notify _ _ _) as [e|]; [done|].
  intros [= <- <- <-]. simpl. rewrite lookup_insert_eq.
  split; [done|]. split; [done|].
  intros sn h Hh. rewrite lookup_insert_ne; [done|]. congruence.
Qed.

Lemma watchIntentionUpstream_settles (svc : ServiceName) cp ig (w : World)
    cp' ig' (w' : World) :
  watchIntentionUpstream svc cp ig w = (None, cp', ig', w') →
  extends cp cp' ∧ settledFor (SN_String svc) cp'.
Proof.
  unfold ConnectProxy.watchIntentionUpstream.
  set (id := SN_String svc).
  destruct (match UC cp !! id with
            | Some u => _ | None => _ end) as [[cfgMap isNil] cp1] eqn:Hcfg.
  assert (Hcp1 : extends cp cp1
                 ∧ (is_Some (UC cp1 !! id)
                    ∨ (isNil = true ∧ cfgMap = emptyCfgMap
                       ∧ UC cp1 !! wildcardSID_String = None))
                 ∧ (isNil = true ∨ is_Some (UC cp1 !! id))).
  { destruct (UC cp !! id) as [u|] eqn:Hu.
    { injection Hcfg as _ <- <-. rewrite Hu. split; [|split; eauto].
      by split_and!. }
    destruct (UC cp !! wildcardSID_String) as [defaults|] eqn:Hwild.
    - injection Hcfg as _ <- <-. simpl. rewrite lookup_insert_eq.
      split; [|split; eauto]. split; [done|]. split.
      + intros sn u Hsn. simpl. rewrite lookup_insert_ne; [done|]. congruence.
      + intros Hn. congruence.
    - injection Hcfg as <- <- <-. rewrite Hwild. split; [|split; eauto 6].
      by split_and!. }
  destruct Hcp1 as (Hext & Hown & _).
  set (w1 := match parseReducedUpstreamConfig cfgMap with
             | Some _ => logMsg "failed to parse upstream config" w
             | None => w end).
  assert (Hgo : ∀ r,
    match watchDiscoveryChain id cp1 ig w1 with
    | (Some e, cp2, ig2, w2) =>
        (Some ("failed to watch discovery chain for " ++ id ++ ": " ++ e),
         cp2, ig2, w2)
    | (None, cp2, ig2, w2) => (None, cp2, ig2, w2)
    end = r → r = (None, cp', ig', w') →
    (isNil = true → parseReducedUpstreamConfig cfgMap = None) →
    extends cp cp' ∧ settledFor id cp').
  { intros r <-.
    destruct (watchDiscoveryChain id cp1 ig w1) as [[[[e|] cp2] ig2] w2] eqn:Hw;
      [done|].
    intros [= <- <- <-] Hparse.
    apply watchDiscoveryChain_extends in Hw as (Huc & Hsome & Hmono).
    assert (Hext2 : extends cp1 cp2).
    { split; [done|]. split; [by rewrite Huc|by rewrite Huc]. }
    split; [by eapply extends_trans|].
    split; [done|]. rewrite Huc.
    destruct Hown as [?|(Hnil & -> & Hwild)]; [by left|].
    right. split; [done|]. by apply Hparse. }
  destruct (parseReducedUpstreamConfig cfgMap) as [perr|] eqn:Hparse,
    isNil; try done; intros Hr; eapply Hgo; try done.
Qed.

Lemma watchIntentionUpstreams_settles (services : list ServiceName)
    (seen : gset string) cp ig (w : World) (seen' : gset string) cp' ig'
    (w' : World) :
  watchIntentionUpstreams services seen cp ig w = (None, seen', cp', ig', w') →
  extends cp cp'
  ∧ ∀ svc, svc ∈ services → settledFor (SN_String svc) cp'.
Proof.
  revert seen cp ig w.
  induction services as [|svc rest IH]; intros seen cp ig w; simpl.
  - intros [= _ <- _ _]. split; [by split_and!|].
    intros svc Hin. by apply elem_of_nil in Hin.
  - destruct (watchIntentionUpstream svc cp ig w)
      as [[[[e|] cp1] ig1] w1] eqn:H1; [done|].
    intros Hrest. apply IH in Hrest as (Hext2 & Hall).
    apply watchIntentionUpstream_settles in H1 as (Hext1 & Hsvc).
    split; [by eapply extends_trans|].
    intros svc' [->|Hin]%elem_of_cons; [|by apply Hall].
    by eapply extends_settledFor.
Qed.

(** A step of the loop for an upstream that is settled. *)
Lemma watchIntentionUpstream_settled (svc : ServiceName) cp ig (w : World) :
  settledFor (SN_String svc) cp →
  ∃ w', watchIntentionUpstream svc cp ig w = (None, cp, ig, w')
        ∧ onlyLogged w w'.
Proof.
  intros ([h Hh] & Hcfg). unfold ConnectProxy.watchIntentionUpstream.
  assert (Hwatch : ∀ w1, watchDiscoveryChain (SN_String svc) cp ig w1
                         = (None, cp, ig, w1)).
  { intros w1. unfold ConnectProxy.watchDiscoveryChain. by rewrite Hh. }
  destruct (UC cp !! SN_String svc) as [u|] eqn:Hu.
  - destruct (parseReducedUpstreamConfig (Config u)) as [perr|];
      rewrite Hwatch; eexists; (split; [done|]); by split_and!.
  - destruct Hcfg as [[u Hcfg]|[Hwild Hparse]]; [done|].
    rewrite Hwild, Hparse, Hwatch. eexists. split; [done|]. by split_and!.
Qed.

Lemma watchIntentionUpstreams_settled (services : list ServiceName)
    (seen : gset string) cp ig (w : World) :
  (∀ svc, svc ∈ services → settledFor (SN_String svc) cp) →
  ∃ w', watchIntentionUpstreams services seen cp ig w
        = (None, list_to_set (SN_String <$> services) ∪ seen, cp, ig, w')
        ∧ onlyLogged w w'.
Proof.
  revert seen w. induction services as [|svc rest IH]; intros seen w Hall.
  - exists w. simpl. rewrite union_empty_l_L. split; [done|]. by split_and!.
  - cbn [ConnectProxy.watchIntentionUpstreams].
    destruct (watchIntentionUpstream_settled svc cp ig w) as (w1 & -> & Hw1).
    { apply Hall, list_elem_of_here. }
    destruct (IH ({[SN_String svc]} ∪ seen) w1) as (w2 & -> & Hw2).
    { intros svc' Hin. by apply Hall, list_elem_of_further. }
    exists w2. split.
    + do 4 f_equal. set_solver.
    + destruct Hw1 as (? & ? & ?), Hw2 as (? & ? & ?).
      unfold onlyLogged. split_and!; congruence.
Qed.

Local Arguments Proxycfg.ConnectProxy.keepStaying : simpl never.

Lemma keepStaying_twice {V : Type} (cfg : gmap string (Upstream CfgMap))
    (seen : gset string) (m : gmap string V) :
  keepStaying sourceDatacenter CfgMap cfg seen
    (keepStaying sourceDatacenter CfgMap cfg seen m)
  = keepStaying sourceDatacenter CfgMap cfg seen m.
Proof.
  unfold ConnectProxy.keepStaying. apply map_filter_id.
  intros sn v Hv. by apply map_lookup_filter_Some in Hv as [_ ?].
Qed.

(** The clean-up loops find nothing to do after themselves. *)
Lemma cleanUp_again (seen : gset string) cp (w w' : World) :
  cleanUp seen (cleanUp seen cp w).1 w' = ((cleanUp seen cp w).1, w').
Proof.
  unfold ConnectProxy.cleanUp. cbv zeta.
  cbn [fst UpstreamConfig WatchedDiscoveryChains DiscoveryChain
       WatchedUpstreams WatchedUpstreamEndpoints WatchedGateways
       WatchedGatewayEndpoints].
  set (cfg := UC cp).
  assert (Hnone : filter (λ kv : string * nat,
                            stays sourceDatacenter CfgMap cfg seen kv.1 = false)
                    (keepStaying sourceDatacenter CfgMap cfg seen (WDC cp))
                  = ∅).
  { apply map_empty. intros sn. apply map_lookup_filter_None. right.
    intros h Hh. unfold ConnectProxy.keepStaying in Hh.
    apply map_lookup_filter_Some in Hh as [_ Hst]. simpl in *. congruence. }
  rewrite Hnone, !keepStaying_twice, map_to_list_empty, dom_empty_L.
  f_equal.
  - f_equal. apply map_filter_id. intros sn v _. simpl. set_solver.
  - unfold cancelAll. simpl. rewrite app_nil_r. by destruct w'.
Qed.

Lemma handleIntentionUpstreams_again (services : list ServiceName) cp ig
    (w : World) cp1 ig1 (w1 : World) :
  handleIntentionUpstreams services cp ig w = (None, cp1, ig1, w1) →
  ∃ w2, handleIntentionUpstreams services cp1 ig1 w1 = (None, cp1, ig1, w2)
        ∧ onlyLogged w1 w2.
Proof.
  unfold ConnectProxy.handleIntentionUpstreams.
  destruct (watchIntentionUpstreams services ∅ cp ig w)
    as [[[[[e|] seen] cp0] ig0] w0] eqn:Hloop; [done|].
  pose proof Hloop as Hseen.
  apply (watchIntentionUpstreams_grown kind Notify SN_String
           wildcardSID_String emptyCfgMap parseReducedUpstreamConfig)
    in Hseen as [Hseen _].
  rewrite union_empty_r_L in Hseen.
  apply watchIntentionUpstreams_settles in Hloop as (_ & Hall).
  destruct (cleanUp seen cp0 w0) as [cp1' w1'] eqn:Hclean.
  intros [= <- <- <-].
  assert (Hcp1 : cp1' = (cleanUp seen cp0 w0).1) by by rewrite Hclean.
  assert (Hall' : ∀ svc, svc ∈ services → settledFor (SN_String svc) cp1').
  { intros svc Hin. destruct (Hall svc Hin) as ([h Hh] & Hcfg).
    rewrite Hcp1. unfold settledFor, ConnectProxy.cleanUp. cbv zeta.
    cbn [fst UpstreamConfig WatchedDiscoveryChains]. split; [|done].
    exists h. rewrite (lookup_keepStaying sourceDatacenter).
    assert (stays sourceDatacenter CfgMap (UC cp0) seen (SN_String svc)
            = true) as ->; [|done].
    unfold stays. apply orb_true_iff. right. apply bool_decide_eq_true.
    rewrite Hseen. apply elem_of_list_to_set, list_elem_of_fmap. eauto. }
  destruct (watchIntentionUpstreams_settled services ∅ cp1' ig0 w1' Hall')
    as (w2 & -> & Hw2).
  rewrite union_empty_r_L, <- Hseen.
  exists w2. rewrite Hcp1 at 1. rewrite cleanUp_again, <- Hcp1. done.
Qed.

(** X21.  Handling an [intention-upstreams] update is idempotent for a
    connect proxy: after one handled without error, handling an update with
    the same services again returns no error and leaves the snapshot as it
    is; it subscribes and cancels nothing, and at most logs the warnings
    about upstream configurations that do not parse. *)
Theorem intention_upstreams_idempotent
    (otherCases : UpdateEvent → configSnapshotConnectProxy Data CfgMap →
                  gmap string nat → World →
                  error * configSnapshotConnectProxy Data CfgMap
                  * gmap string nat * World)
    (u : UpdateEvent) (services : list ServiceName) cp ig (w : World)
    cp1 ig1 (w1 : World) :
  Err u = None →
  CorrelationID u = "intention-upstreams" →
  Result u = PIndexedServiceList services →
  handleUpdate kind sourceDatacenter Notify SN_String wildcardSID_String
    Data CfgMap emptyCfgMap parseReducedUpstreamConfig otherCases u cp ig w
  = (None, cp1, ig1, w1) →
  ∃ w2,
    handleUpdate kind sourceDatacenter Notify SN_String wildcardSID_String
      Data CfgMap emptyCfgMap parseReducedUpstreamConfig otherCases u cp1
      ig1 w1
    = (None, cp1, ig1, w2)
    ∧ subs w2 = subs w1 ∧ cancelled w2 = cancelled w1
    ∧ nextCtx w2 = nextCtx w1.
Proof.
  intros Herr Hid Hres. unfold handleUpdate. rewrite Herr, Hid, Hres.
  rewrite decide_True by done. apply handleIntentionUpstreams_again.
Qed.

End ConnectProxyAgain.

(** The theorem at the update that replaces the watched upstream by
    [svcA]. *)
Lemma intention_upstreams_idempotent_witness :
  ∃ cp1 ig1 w1 w2,
    ConnectProxy.handleUpdate ServiceKindConnectProxy "dc1" (λ _ _ _, None)
      Name "*" string () () (λ _, None) (λ _ cp ig w, (None, cp, ig, w))
      deliverA watchingOld ∅ emptyWorld = (None, cp1, ig1, w1)
    ∧ ConnectProxy.handleUpdate ServiceKindConnectProxy "dc1"
        (λ _ _ _, None) Name "*" string () () (λ _, None)
        (λ _ cp ig w, (None, cp, ig, w)) deliverA cp1 ig1 w1
      = (None, cp1, ig1, w2).
Proof.
  destruct (ConnectProxy.handleUpdate ServiceKindConnectProxy "dc1"
              (λ _ _ _, None) Name "*" string () () (λ _, None)
              (λ _ cp ig w, (None, cp, ig, w)) deliverA watchingOld ∅
              emptyWorld) as [[[e cp1] ig1] w1] eqn:Hrun.
  assert (He : e = None).
  { apply (f_equal (λ r, r.1.1.1)) in Hrun. simpl in Hrun. rewrite <- Hrun.
    by vm_compute. }
  subst e.
  destruct (intention_upstreams_idempotent "dc1" (λ _ _ _, None) Name "*"
              () (λ _, None) (λ _ cp ig w, (None, cp, ig, w)) deliverA
              [svcA] watchingOld ∅ emptyWorld cp1 ig1 w1
              eq_refl eq_refl eq_refl Hrun) as (w2 & Hagain & _).
  by exists cp1, ig1, w1, w2.
Defined.

(** *** [Watch], [Close] and the watches of a new terminating gateway *)

Section WatchFacts.

Variable Notify : World → Provider → string → error.
Context {Data : Type}.

(** X22.  [Watch] on the state of a terminating gateway makes one context
    and keeps its cancel function in [s.cancel].  Whatever the cache
    answers, the subscriptions it leaves are under that context and are, in
    this order, a prefix of the watch of the roots and the watch of the
    gateway's services.  When [initialize] returns an error, [Watch] cancels
    the context, [run] is not started and no other context is cancelled;
    without an error both subscriptions are there, nothing is cancelled and
    [run] starts with a snapshot whose maps are all empty.  [Close] then
    cancels the context, and does nothing on a state that was never
    watched. *)
Theorem Watch_terminating_gateway (w : World) :
  let h := nextCtx w in
  let roots := mkSub (Cache ConnectCARootName) "roots" h [] in
  let linked := mkSub (Cache GatewayServicesName) "gateway-services" h [] in
  let r := State.Watch _ (TerminatingGateway.initialize Notify Data) w in
  r.1.1.2 = Some h
  ∧ nextCtx r.2 = S h
  ∧ (∃ new, subs r.2 = (subs w ++ new)%list
            ∧ new `prefix_of` [roots; linked])
  ∧ match r.1.1.1 with
    | Some _ =>
        r.1.2 = None ∧ cancelled r.2 = (cancelled w ++ [h])%list
    | None =>
        r.1.2 = Some (TerminatingGateway.emptyTG Data)
        ∧ subs r.2 = (subs w ++ [roots; linked])%list
        ∧ cancelled r.2 = cancelled w
    end
  ∧ h ∈ cancelled (State.Close r.1.1.2 r.2)
  ∧ State.Close None r.2 = r.2.
Proof.
  intros h roots linked r. subst r.
  unfold State.Watch, TerminatingGateway.initialize, notify. fold h.
  cbn [subs cancelled nextCtx logs].
  destruct (Notify _ (Cache ConnectCARootName) rootsWatchID) as [e1|].
  { simpl. split; [done|]. split; [done|]. split.
    { exists []. rewrite app_nil_r. split; [done|]. apply prefix_nil. }
    split; [done|]. split; [|done].
    rewrite !elem_of_app, !list_elem_of_singleton. auto. }
  cbn [subs cancelled nextCtx logs].
  destruct (Notify _ (Cache GatewayServicesName) gatewayServicesWatchID)
    as [e2|].
  { simpl. split; [done|]. split; [done|]. split.
    { exists [roots]. split; [done|]. by exists [linked]. }
    split; [done|]. split; [|done].
    rewrite !elem_of_app, !list_elem_of_singleton. auto. }
  simpl. split; [done|]. split; [done|]. split.
  { exists [roots; linked]. split; [by rewrite <- app_assoc|done]. }
  split; [by rewrite <- app_assoc|]. split; [|done].
  rewrite elem_of_app, list_elem_of_singleton. auto.
Qed.

End WatchFacts.

End ProxycfgFacts.
